(** * A shallow embedding of the memory pool allocator of [mem_pool.c]

    The development embeds the allocator (segment list, node arena, gap
    index, placement and release) as executable functions and settles the
    properties stated about it.

    Conventions of the embedding.
    - [unsigned] values are [Z] reduced modulo [2^32], [size_t] values are
      [Z] reduced modulo [2^64]; the reductions are written where the C
      arithmetic can wrap.
    - A [node_pt] is [None] for [NULL] and [Some i] for [&node_heap[i]]:
      records of the arena are addressed by their index.  The move that
      [realloc] may perform is therefore not visible.
    - A [char *] is a [Z] address, [0] being [NULL].
    - The members [used] and [allocated] only ever hold [0] or [1] and are
      only tested for being zero: they are [bool].
    - The [int] counters of the loops are natural numbers: the capacities
      are taken to be below [2^31].
    - Memory whose content the C program does not determine (the cell after
      the last entry of the gap index, the records [realloc] adds) is read
      from an environment [env]. *)

From Stdlib Require Import ZArith QArith Lia Bool.
From stdpp Require Import base list gmap.

Open Scope Z_scope.

(** ** Machine arithmetic *)

Definition wrap32 (z : Z) : Z := z mod 2 ^ 32.
Definition wrap64 (z : Z) : Z := z mod 2 ^ 64.

(** ** Constants *)

Definition MEM_POOL_STORE_INIT_CAPACITY : Z := 20.
Definition MEM_POOL_STORE_FILL_FACTOR : Q := 3 # 4.
Definition MEM_POOL_STORE_EXPAND_FACTOR : Z := 2.

Definition MEM_NODE_HEAP_INIT_CAPACITY : Z := 40.
Definition MEM_NODE_HEAP_FILL_FACTOR : Q := 3 # 4.
Definition MEM_NODE_HEAP_EXPAND_FACTOR : Z := 2.

Definition MEM_GAP_IX_INIT_CAPACITY : Z := 40.
Definition MEM_GAP_IX_FILL_FACTOR : Q := 3 # 4.
Definition MEM_GAP_IX_EXPAND_FACTOR : Z := 2.

(** ** Type declarations *)

(** The enumerations and the structures [alloc_t] and [pool_t] are declared
    in [mem_pool.h]; they are given here with the members that [mem_pool.c]
    uses. *)

Inductive alloc_policy := FIRST_FIT | BEST_FIT.

Inductive alloc_status :=
  ALLOC_OK | ALLOC_FAIL | ALLOC_CALLED_AGAIN | ALLOC_NOT_FREED.

Definition node_pt := option nat.

Record alloc_t := mk_alloc { size : Z; mem : Z }.

Record node_t := mk_node {
  alloc_record : alloc_t;
  used : bool;
  allocated : bool;
  next : node_pt;
  prev : node_pt
}.

Record gap_t := mk_gap { gap_size : Z; gap_node : node_pt }.

Record pool_t := mk_pool {
  pool_mem : Z;
  policy : alloc_policy;
  total_size : Z;
  alloc_size : Z;
  num_allocs : Z;
  num_gaps : Z
}.

Record pool_mgr_t := mk_pool_mgr {
  pool : pool_t;
  node_heap : list node_t;
  total_nodes : Z;
  used_nodes : Z;
  gap_ix : list gap_t;
  gap_ix_capacity : Z
}.

#[global] Instance alloc_policy_eq_dec : EqDecision alloc_policy.
Proof. solve_decision. Defined.
#[global] Instance alloc_status_eq_dec : EqDecision alloc_status.
Proof. solve_decision. Defined.
#[global] Instance alloc_t_eq_dec : EqDecision alloc_t.
Proof. solve_decision. Defined.
#[global] Instance node_t_eq_dec : EqDecision node_t.
Proof. solve_decision. Defined.
#[global] Instance gap_t_eq_dec : EqDecision gap_t.
Proof. solve_decision. Defined.

(** The memory the program reads without having written it. *)
Record env := mk_env {
  past_end : gap_t;           (* the cell at [gap_ix[gap_ix_capacity]] *)
  fresh_nodes : nat -> node_t; (* records added to the arena by [realloc] *)
  fresh_gaps : nat -> gap_t    (* entries added to the gap index by [realloc] *)
}.

(** ** Field updates *)

Definition set_size (z : Z) (n : node_t) : node_t :=
  mk_node (mk_alloc z (mem (alloc_record n))) (used n) (allocated n) (next n) (prev n).
Definition set_mem (z : Z) (n : node_t) : node_t :=
  mk_node (mk_alloc (size (alloc_record n)) z) (used n) (allocated n) (next n) (prev n).
Definition set_used (b : bool) (n : node_t) : node_t :=
  mk_node (alloc_record n) b (allocated n) (next n) (prev n).
Definition set_allocated (b : bool) (n : node_t) : node_t :=
  mk_node (alloc_record n) (used n) b (next n) (prev n).
Definition set_next (p : node_pt) (n : node_t) : node_t :=
  mk_node (alloc_record n) (used n) (allocated n) p (prev n).
Definition set_prev (p : node_pt) (n : node_t) : node_t :=
  mk_node (alloc_record n) (used n) (allocated n) (next n) p.

Definition set_alloc_size (z : Z) (p : pool_t) : pool_t :=
  mk_pool (pool_mem p) (policy p) (total_size p) z (num_allocs p) (num_gaps p).
Definition set_num_allocs (z : Z) (p : pool_t) : pool_t :=
  mk_pool (pool_mem p) (policy p) (total_size p) (alloc_size p) z (num_gaps p).
Definition set_num_gaps (z : Z) (p : pool_t) : pool_t :=
  mk_pool (pool_mem p) (policy p) (total_size p) (alloc_size p) (num_allocs p) z.

Definition with_pool (f : pool_t -> pool_t) (pm : pool_mgr_t) : pool_mgr_t :=
  mk_pool_mgr (f (pool pm)) (node_heap pm) (total_nodes pm) (used_nodes pm)
    (gap_ix pm) (gap_ix_capacity pm).
Definition with_node_heap (h : list node_t) (pm : pool_mgr_t) : pool_mgr_t :=
  mk_pool_mgr (pool pm) h (total_nodes pm) (used_nodes pm)
    (gap_ix pm) (gap_ix_capacity pm).
Definition with_total_nodes (z : Z) (pm : pool_mgr_t) : pool_mgr_t :=
  mk_pool_mgr (pool pm) (node_heap pm) z (used_nodes pm)
    (gap_ix pm) (gap_ix_capacity pm).
Definition with_used_nodes (z : Z) (pm : pool_mgr_t) : pool_mgr_t :=
  mk_pool_mgr (pool pm) (node_heap pm) (total_nodes pm) z
    (gap_ix pm) (gap_ix_capacity pm).
Definition with_gap_ix (g : list gap_t) (pm : pool_mgr_t) : pool_mgr_t :=
  mk_pool_mgr (pool pm) (node_heap pm) (total_nodes pm) (used_nodes pm)
    g (gap_ix_capacity pm).
Definition with_gap_ix_capacity (z : Z) (pm : pool_mgr_t) : pool_mgr_t :=
  mk_pool_mgr (pool pm) (node_heap pm) (total_nodes pm) (used_nodes pm)
    (gap_ix pm) z.

(** ** Access to the arena and to the gap index *)

Definition node_zero : node_t := mk_node (mk_alloc 0 0) false false None None.
Definition gap_zero : gap_t := mk_gap 0 None.

(** [node_heap[i]]; outside the arena the model reads a zeroed record. *)
Definition rd (h : list node_t) (i : nat) : node_t := default node_zero (h !! i).

(** [*p]; the model reads a zeroed record through [NULL]. *)
Definition deref (h : list node_t) (p : node_pt) : node_t :=
  match p with Some i => rd h i | None => node_zero end.

(** An assignment to a member of [node_heap[i]]. *)
Definition wr (h : list node_t) (i : nat) (f : node_t -> node_t) : list node_t :=
  alter f i h.

(** The same through a pointer. *)
Definition wr_p (h : list node_t) (p : node_pt) (f : node_t -> node_t) : list node_t :=
  match p with Some i => wr h i f | None => h end.

(** [gap_ix[i]]; an index outside the array reads the environment's cell. *)
Definition ix_rd (e : env) (ix : list gap_t) (i : nat) : gap_t :=
  default (past_end e) (ix !! i).

(** [realloc] to [n] elements: the old elements are kept, the added ones
    have the content the environment gives them.  The block is extended
    where it is: a [realloc] that moves the block leaves every stored
    address of a record dangling, which an arena addressed by index does not
    show, so what is stated about a pool after a growth is stated for the
    runs in which the block stays in place. *)
Definition realloc {A} (fresh : nat -> A) (l : list A) (n : nat) : list A :=
  take n l ++ map fresh (seq (length l) (n - length l)).

(** ** The static functions *)

(** The quotient of two [unsigned] is an [unsigned]; it is then converted to
    [float] and compared with the fill factor.  The conversion is monotone
    and exact at [0] and [1], so the comparison with [0.75] is decided by
    the same comparison on rationals. *)
Definition exceeds_fill (factor : Q) (used_count capacity : Z) : bool :=
  negb (Qle_bool (inject_Z (used_count / capacity)) factor).

Definition _mem_resize_node_heap (e : env) (pm : pool_mgr_t) : pool_mgr_t :=
  if exceeds_fill MEM_NODE_HEAP_FILL_FACTOR (used_nodes pm) (total_nodes pm) then
    let new_cap := wrap32 (MEM_NODE_HEAP_EXPAND_FACTOR * total_nodes pm) in
    with_total_nodes new_cap
      (with_node_heap (realloc (fresh_nodes e) (node_heap pm) (Z.to_nat new_cap)) pm)
  else pm.

Definition _mem_resize_gap_ix (e : env) (pm : pool_mgr_t) : pool_mgr_t :=
  if exceeds_fill MEM_GAP_IX_FILL_FACTOR (num_gaps (pool pm)) (gap_ix_capacity pm) then
    let new_cap := wrap32 (MEM_GAP_IX_EXPAND_FACTOR * gap_ix_capacity pm) in
    with_gap_ix_capacity new_cap
      (with_gap_ix (realloc (fresh_gaps e) (gap_ix pm) (Z.to_nat new_cap)) pm)
  else pm.

(** One step of the bubbling loop of [_mem_sort_gap_ix], at index [i > 0]. *)
Definition sort_step (e : env) (h : list node_t) (ix : list gap_t) (i : nat) : list gap_t :=
  let cur := ix_rd e ix i in
  let prv := ix_rd e ix (i - 1) in
  let swapped := <[(i - 1)%nat := cur]> (<[i := prv]> ix) in
  if gap_size cur <? gap_size prv then swapped
  else if gap_size cur =? gap_size prv then
    if mem (alloc_record (deref h (gap_node cur)))
       <? mem (alloc_record (deref h (gap_node prv)))
    then swapped else ix
  else ix.

(** [for (i = ...; i > 0; i--)] *)
Fixpoint sort_loop (e : env) (h : list node_t) (i : nat) (ix : list gap_t) : list gap_t :=
  match i with
  | O => ix
  | S i' => sort_loop e h i' (sort_step e h ix i)
  end.

Definition _mem_sort_gap_ix (e : env) (pm : pool_mgr_t) : alloc_status * pool_mgr_t :=
  (ALLOC_OK,
   with_gap_ix
     (sort_loop e (node_heap pm) (Z.to_nat (num_gaps (pool pm) - 1)) (gap_ix pm)) pm).

Definition _mem_add_to_gap_ix (e : env) (pm : pool_mgr_t) (sz : Z) (node : node_pt)
  : alloc_status * pool_mgr_t :=
  let pm := _mem_resize_gap_ix e pm in
  let pm := with_gap_ix
              (<[Z.to_nat (num_gaps (pool pm)) := mk_gap sz node]> (gap_ix pm)) pm in
  let pm := with_pool (set_num_gaps (wrap32 (num_gaps (pool pm) + 1))) pm in
  let '(stat, pm) := _mem_sort_gap_ix e pm in
  if decide (stat = ALLOC_OK) then (ALLOC_OK, pm) else (ALLOC_FAIL, pm).

(** The search loop of [_mem_remove_from_gap_ix]: [n] iterations are left,
    the next one reads [gap_ix[i]]. *)
Fixpoint find_pos (e : env) (ix : list gap_t) (node : node_pt) (n i : nat) : option nat :=
  match n with
  | O => None
  | S n' =>
      if decide (gap_node (ix_rd e ix i) = node) then Some i
      else find_pos e ix node n' (S i)
  end.

(** The indices the search loop reads. *)
Fixpoint find_pos_trace (e : env) (ix : list gap_t) (node : node_pt) (n i : nat) : list nat :=
  match n with
  | O => []
  | S n' =>
      i :: (if decide (gap_node (ix_rd e ix i) = node) then []
            else find_pos_trace e ix node n' (S i))
  end.

(** The shift loop [for (j = pos; j < capacity; j++) gap_ix[j] = gap_ix[j + 1]]:
    [n] iterations are left, the next one is at [j].  The result carries the
    indices accessed, the read before the write. *)
Fixpoint shift_down (e : env) (ix : list gap_t) (n j : nat) : list gap_t * list nat :=
  match n with
  | O => (ix, [])
  | S n' =>
      let '(ix', tr) := shift_down e (<[j := ix_rd e ix (S j)]> ix) n' (S j) in
      (ix', S j :: j :: tr)
  end.

(** [_mem_remove_from_gap_ix] with the list of the indices of [gap_ix] it
    accesses, in order. *)
Definition _mem_remove_from_gap_ix_trace (e : env) (pm : pool_mgr_t) (sz : Z) (node : node_pt)
  : alloc_status * pool_mgr_t * list nat :=
  let cap := Z.to_nat (gap_ix_capacity pm) in
  let tr1 := find_pos_trace e (gap_ix pm) node cap 0 in
  match find_pos e (gap_ix pm) node cap 0 with
  | None => (ALLOC_FAIL, pm, tr1)
  | Some pos =>
      let '(ix, tr2) := shift_down e (gap_ix pm) (cap - pos) pos in
      let n := wrap32 (num_gaps (pool pm) - 1) in
      let pm := with_pool (set_num_gaps n) (with_gap_ix ix pm) in
      let pm := with_gap_ix (<[Z.to_nat n := gap_zero]> (gap_ix pm)) pm in
      (ALLOC_OK, pm, tr1 ++ tr2 ++ [Z.to_nat n])
  end.

Definition _mem_remove_from_gap_ix (e : env) (pm : pool_mgr_t) (sz : Z) (node : node_pt)
  : alloc_status * pool_mgr_t :=
  fst (_mem_remove_from_gap_ix_trace e pm sz node).

(** ** mem_new_alloc *)

(** The scan of the FIRST_FIT branch: [n] iterations are left, the next one
    looks at [node_heap[i]]; [a_node] is assigned at every iteration. *)
Fixpoint first_fit_scan (h : list node_t) (sz : Z) (n i : nat) (a_node : node_pt) : node_pt :=
  match n with
  | O => a_node
  | S n' =>
      let a := rd h i in
      if used a && negb (allocated a) && (sz <=? size (alloc_record a))
      then Some i
      else first_fit_scan h sz n' (S i) (Some i)
  end.

(** The scan of the BEST_FIT branch over the whole capacity of the index. *)
Fixpoint best_fit_scan (e : env) (ix : list gap_t) (sz : Z) (n j : nat) : node_pt :=
  match n with
  | O => None
  | S n' =>
      if sz <=? gap_size (ix_rd e ix j) then gap_node (ix_rd e ix j)
      else best_fit_scan e ix sz n' (S j)
  end.

(** The node chosen for the allocation (lines 216 to 238). *)
Definition select_node (e : env) (pm : pool_mgr_t) (sz : Z) : node_pt :=
  match policy (pool pm) with
  | FIRST_FIT =>
      let a_node := first_fit_scan (node_heap pm) sz (Z.to_nat (total_nodes pm)) 0 None in
      if size (alloc_record (deref (node_heap pm) a_node)) <? sz then None else a_node
  | BEST_FIT =>
      best_fit_scan e (gap_ix pm) sz (Z.to_nat (gap_ix_capacity pm)) 0
  end.

(** The search for a record with [used == 0]. *)
Fixpoint find_unused (h : list node_t) (n k : nat) : node_pt :=
  match n with
  | O => None
  | S n' => if used (rd h k) then find_unused h n' (S k) else Some k
  end.

(** The writes to the arena that turn the unused record [u] into the gap
    left after the allocation [a] and link it after [a] (lines 269 to 281). *)
Definition split_gap (h : list node_t) (a u : nat) (sz remaining_gap_size : Z)
  : list node_t :=
  let h := wr h u (set_size remaining_gap_size) in
  let h := wr h u (set_mem (mem (alloc_record (rd h a)) + sz)) in
  let h := wr h u (set_allocated false) in
  let h := wr h u (set_used true) in
  let h := wr h u (set_prev (Some a)) in
  let h := wr h u (set_next (next (rd h a))) in
  let h := wr_p h (next (rd h a)) (set_prev (Some u)) in
  wr h a (set_next (Some u)).

Definition mem_new_alloc (e : env) (pm : pool_mgr_t) (sz : Z) : node_pt * pool_mgr_t :=
  if num_gaps (pool pm) =? 0 then (None, pm) else
  let pm := _mem_resize_node_heap e pm in
  match select_node e pm sz with
  | None => (None, pm)
  | Some a =>
      let pm := with_pool (set_num_allocs (wrap32 (num_allocs (pool pm) + 1))) pm in
      let pm := with_pool (set_alloc_size (wrap64 (alloc_size (pool pm) + sz))) pm in
      let remaining_gap_size := wrap64 (size (alloc_record (rd (node_heap pm) a)) - sz) in
      let pm := snd (_mem_remove_from_gap_ix e pm sz (Some a)) in
      let pm := with_node_heap (wr (node_heap pm) a (set_allocated true)) pm in
      let pm := with_node_heap (wr (node_heap pm) a (set_size sz)) pm in
      if remaining_gap_size =? 0 then (Some a, pm) else
      match find_unused (node_heap pm) (Z.to_nat (total_nodes pm)) 0 with
      | None => (None, pm)
      | Some u =>
          let pm := with_node_heap
                      (split_gap (node_heap pm) a u sz remaining_gap_size) pm in
          let pm := with_used_nodes (wrap32 (used_nodes pm + 1)) pm in
          let pm := snd (_mem_add_to_gap_ix e pm remaining_gap_size (Some u)) in
          (Some a, pm)
      end
  end.

(** ** mem_del_alloc *)

(** The writes to the arena that merge the successor into the node to
    delete (lines 306 to 323); [deleteNode->next] is read anew at each
    statement. *)
Definition absorb_next (h : list node_t) (d : nat) : list node_t :=
  let nx (h : list node_t) : node_pt := next (rd h d) in
  let h := wr h d (set_size (wrap64 (size (alloc_record (rd h d))
                                     + size (alloc_record (deref h (nx h)))))) in
  let h := wr_p h (nx h) (set_used false) in
  let h := wr_p h (nx h) (set_size 0) in
  let h := wr_p h (nx h) (set_mem 0) in
  match next (deref h (nx h)) with
  | Some nn =>
      let h := wr h nn (set_prev (Some d)) in
      wr h d (set_next (next (deref h (nx h))))
  | None =>
      let h := wr_p h (nx h) (set_prev None) in
      wr h d (set_next None)
  end.

(** The block that merges the successor into the node to delete
    (lines 303 to 323). *)
Definition merge_next (e : env) (pm : pool_mgr_t) (d : nat) : pool_mgr_t :=
  let nx := next (rd (node_heap pm) d) in
  let pm := snd (_mem_remove_from_gap_ix e pm
                   (size (alloc_record (deref (node_heap pm) nx))) nx) in
  let pm := with_node_heap (absorb_next (node_heap pm) d) pm in
  with_used_nodes (wrap32 (used_nodes pm - 1)) pm.

(** The block that merges the node to delete into its predecessor [p]
    (lines 336 to 359), after the predecessor has left the gap index. *)
Definition merge_prev (pm : pool_mgr_t) (d p : nat) : pool_mgr_t :=
  let h := node_heap pm in
  let h := wr h p (set_size (wrap64 (size (alloc_record (rd h p))
                                     + size (alloc_record (rd h d))))) in
  let h := wr h d (set_used false) in
  let h := wr h d (set_size 0) in
  let h := wr h d (set_mem 0) in
  let pm := with_used_nodes (wrap32 (used_nodes pm - 1)) pm in
  let h :=
    match next (rd h d) with
    | Some n =>
        let h := wr h p (set_next (next (rd h d))) in
        wr_p h (next (rd h d)) (set_prev (Some p))
    | None => wr h p (set_next None)
    end in
  let h := wr h d (set_next None) in
  let h := wr h d (set_prev None) in
  with_node_heap h pm.

(** The handle [alloc] is the address of the record [node_heap[d]]. *)
Definition mem_del_alloc (e : env) (pm : pool_mgr_t) (d : nat) : alloc_status * pool_mgr_t :=
  let pm := with_node_heap (wr (node_heap pm) d (set_allocated false)) pm in
  let pm := with_pool (set_num_allocs (wrap32 (num_allocs (pool pm) - 1))) pm in
  let pm := with_pool (set_alloc_size
              (wrap64 (alloc_size (pool pm) - size (alloc_record (rd (node_heap pm) d))))) pm in
  let pm :=
    match next (rd (node_heap pm) d) with
    | Some n => if allocated (rd (node_heap pm) n) then pm else merge_next e pm d
    | None => pm
    end in
  match prev (rd (node_heap pm) d) with
  | Some p =>
      if allocated (rd (node_heap pm) p) then
        _mem_add_to_gap_ix e pm (size (alloc_record (rd (node_heap pm) d))) (Some d)
      else
        let '(remove_status, pm) :=
          _mem_remove_from_gap_ix e pm (size (alloc_record (rd (node_heap pm) p))) (Some p) in
        if decide (remove_status = ALLOC_FAIL) then (ALLOC_FAIL, pm) else
        let pm := merge_prev pm d p in
        _mem_add_to_gap_ix e pm (size (alloc_record (rd (node_heap pm) p))) (Some p)
  | None =>
      _mem_add_to_gap_ix e pm (size (alloc_record (rd (node_heap pm) d))) (Some d)
  end.

(** ** mem_pool_open, for one pool manager *)

(** The pool manager that [mem_pool_open] builds (lines 135 to 162) when its
    allocations succeed; [base] is the address of the region that [calloc]
    returned. *)
Definition pool_mgr_open (base sz : Z) (pol : alloc_policy) : pool_mgr_t :=
  let h := replicate (Z.to_nat MEM_NODE_HEAP_INIT_CAPACITY) node_zero in
  let ix := replicate (Z.to_nat MEM_GAP_IX_INIT_CAPACITY) gap_zero in
  let h := wr h 0 (set_size sz) in
  let h := wr h 0 (set_mem base) in
  let h := wr h 0 (set_used true) in
  let h := wr h 0 (set_allocated false) in
  let ix := alter (fun g => mk_gap (gap_size g) (Some 0%nat)) 0%nat ix in
  let ix := alter (fun g => mk_gap (size (alloc_record (rd h 0))) (gap_node g)) 0%nat ix in
  mk_pool_mgr (mk_pool base pol sz 0 0 1) h MEM_NODE_HEAP_INIT_CAPACITY 1
    ix MEM_GAP_IX_INIT_CAPACITY.

(** ** mem_inspect_pool *)

(** The walk [while (thisNode != NULL) ... thisNode = thisNode->next], cut
    after [fuel] records: the indices of the records visited. *)
Fixpoint walk (h : list node_t) (fuel : nat) (thisNode : node_pt) : list nat :=
  match fuel, thisNode with
  | S f, Some i => i :: walk h f (next (rd h i))
  | _, _ => []
  end.

(** The [(size, allocated)] pairs written to the segment array, and the
    count reported; the walk starts at [pool_mgr->node_heap]. *)
Definition mem_inspect_pool (fuel : nat) (pm : pool_mgr_t) : list (Z * bool) * Z :=
  (map (fun i => (size (alloc_record (rd (node_heap pm) i)), allocated (rd (node_heap pm) i)))
       (walk (node_heap pm) fuel (Some 0%nat)),
   used_nodes pm).

(** ** The pool store: mem_init, mem_pool_open, mem_pool_close *)

(** The blocks obtained from [malloc], [calloc] and [realloc] on behalf of
    the pool manager at address [p]. *)
Inductive block :=
| Region (p : nat)     (* [pool_mgr->pool.mem] *)
| NodeHeap (p : nat)   (* [pool_mgr->node_heap] *)
| GapIx (p : nat)      (* [pool_mgr->gap_ix] *)
| Mgr (p : nat).       (* [pool_mgr] itself *)

#[global] Instance block_eq_dec : EqDecision block.
Proof. solve_decision. Defined.

(** The static variables and the part of the C heap the module owns: the
    pool managers by address, and the blocks not yet freed. *)
Record world := mk_world {
  pool_store : option (list (option nat));
  pool_store_size : Z;
  pool_store_capacity : Z;
  mgrs : gmap nat pool_mgr_t;
  live : list block
}.

Definition free (b : block) (w : world) : world :=
  mk_world (pool_store w) (pool_store_size w) (pool_store_capacity w) (mgrs w)
    (filter (fun b' => b' ≠ b) (live w)).

Definition with_pool_store (s : option (list (option nat))) (w : world) : world :=
  mk_world s (pool_store_size w) (pool_store_capacity w) (mgrs w) (live w).

Definition mem_init (w : world) : alloc_status * world :=
  match pool_store w with
  | Some _ => (ALLOC_CALLED_AGAIN, w)
  | None =>
      (ALLOC_OK,
       mk_world (Some (replicate (Z.to_nat MEM_POOL_STORE_INIT_CAPACITY) None))
         0 MEM_POOL_STORE_INIT_CAPACITY (mgrs w) (live w))
  end.

(** [fresh] is the content of the slots [realloc] adds to the store. *)
Definition _mem_resize_pool_store (fresh : nat -> option nat) (w : world) : world :=
  if exceeds_fill MEM_POOL_STORE_FILL_FACTOR (pool_store_size w) (pool_store_capacity w) then
    let new_cap := wrap32 (MEM_POOL_STORE_EXPAND_FACTOR * pool_store_capacity w) in
    mk_world ((fun s => realloc fresh s (Z.to_nat new_cap)) <$> pool_store w)
      (pool_store_size w) new_cap (mgrs w) (live w)
  else w.

(** [p] is the address [malloc] returns for the pool manager ([None] when it
    fails) and [base] the address of the region ([0] when [calloc] fails);
    the two [calloc] for the arena and for the gap index succeed. *)
Definition mem_pool_open (fresh : nat -> option nat) (p : option nat) (base : Z)
    (w : world) (sz : Z) (pol : alloc_policy) : option nat * world :=
  match pool_store w with
  | None => (None, w)
  | Some _ =>
      let w := _mem_resize_pool_store fresh w in
      match p with
      | None => (None, w)
      | Some p =>
          if base =? 0 then (None, w) else
          let store := (fun s => <[Z.to_nat (pool_store_size w) := Some p]> s) <$> pool_store w in
          (Some p,
           mk_world store (wrap32 (pool_store_size w + 1)) (pool_store_capacity w)
             (<[p := pool_mgr_open base sz pol]> (mgrs w))
             (Mgr p :: Region p :: NodeHeap p :: GapIx p :: live w))
      end
  end.

(** The loop that clears the slot of the store that holds [p]: [n]
    iterations are left, the next one reads [pool_store[i]]. *)
Fixpoint clear_slot (p : nat) (s : list (option nat)) (n i : nat) : list (option nat) :=
  match n with
  | O => s
  | S n' =>
      if decide (mjoin (s !! i) = Some p) then <[i := None]> s
      else clear_slot p s n' (S i)
  end.

(** [None] is returned for a handle that is not [NULL] and is not the
    address of a pool manager: the C function reads freed memory there. *)
Definition mem_pool_close (w : world) (pl : option nat) : option (alloc_status * world) :=
  match pl with
  | None => Some (ALLOC_FAIL, w)
  | Some p =>
      match mgrs w !! p with
      | None => None
      | Some pool_mgr =>
          if decide (num_gaps (pool pool_mgr) ≠ 1) then Some (ALLOC_NOT_FREED, w)
          else if decide (num_allocs (pool pool_mgr) ≠ 0) then Some (ALLOC_NOT_FREED, w)
          else
            let w := free (Region p) w in
            let w := free (NodeHeap p) w in
            let w := free (GapIx p) w in
            let w := with_pool_store
                       ((fun s => clear_slot p s (Z.to_nat (pool_store_capacity w)) 0)
                          <$> pool_store w) w in
            let w := free (Mgr p) w in
            Some (ALLOC_OK,
                  mk_world (pool_store w) (pool_store_size w) (pool_store_capacity w)
                    (delete p (mgrs w)) (live w))
      end
  end.

(** ** Runs of the allocator *)

Inductive op := Alloc (sz : Z) | Del (d : nat).

Definition step (e : env) (pm : pool_mgr_t) (o : op) : pool_mgr_t :=
  match o with
  | Alloc sz => snd (mem_new_alloc e pm sz)
  | Del d => snd (mem_del_alloc e pm d)
  end.

Definition run (e : env) (pm : pool_mgr_t) (ops : list op) : pool_mgr_t :=
  fold_left (step e) ops pm.

(** An environment whose undetermined memory is zeroed. *)
Definition env_zero : env := mk_env gap_zero (fun _ => node_zero) (fun _ => gap_zero).

(** The environments under which the arena keeps its first record: the
    records [realloc] adds do not hold the address of [node_heap[0]] in
    their [next] member. *)
Definition env_ok (e : env) : Prop :=
  forall i, next (fresh_nodes e i) <> Some 0%nat.

(** The pool managers that [mem_pool_open] followed by calls of
    [mem_new_alloc] and [mem_del_alloc] can produce, with any request size
    and any handle, as long as the records [realloc] adds satisfy [env_ok]
    and doubling the capacity of the arena does not overflow an
    [unsigned]. *)
Inductive reachable : pool_mgr_t -> Prop :=
| reach_open base sz pol : reachable (pool_mgr_open base sz pol)
| reach_alloc e pm sz :
    reachable pm -> env_ok e -> total_nodes pm < 2 ^ 31 ->
    reachable (snd (mem_new_alloc e pm sz))
| reach_del e pm d :
    reachable pm -> reachable (snd (mem_del_alloc e pm d)).

(** ** The properties stated about the pool *)

(** The segment list: the records met from [node_heap[0]] along [next]. *)
Definition segment_ids (pm : pool_mgr_t) : list nat :=
  walk (node_heap pm) (length (node_heap pm)) (Some 0%nat).

Definition segment_of (h : list node_t) (i : nat) : Z * Z * bool :=
  (mem (alloc_record (rd h i)), size (alloc_record (rd h i)), allocated (rd h i)).

(** The [(base, size, allocated)] triples of the segments, in list order. *)
Definition segments (pm : pool_mgr_t) : list (Z * Z * bool) :=
  map (segment_of (node_heap pm)) (segment_ids pm).

(** The counters compared by the round-trip law. *)
Definition counters (pm : pool_mgr_t) : Z * Z * Z :=
  (num_allocs (pool pm), num_gaps (pool pm), alloc_size (pool pm)).

Fixpoint adjacent_gaps (l : list (Z * Z * bool)) : bool :=
  match l with
  | [] => false
  | s :: t =>
      match t with
      | [] => false
      | s' :: _ => (negb (snd s) && negb (snd s')) || adjacent_gaps t
      end
  end.

(** A record that the FIRST_FIT scan accepts. *)
Definition fits (sz : Z) (a : node_t) : bool :=
  used a && negb (allocated a) && (sz <=? size (alloc_record a)).

(** The first gap of the segment list, in address order, that is large
    enough: the choice the specification words describe for first-fit. *)
Definition first_fit_by_address (pm : pool_mgr_t) (sz : Z) : node_pt :=
  find (fun i => negb (allocated (rd (node_heap pm) i))
                 && (sz <=? size (alloc_record (rd (node_heap pm) i))))
       (segment_ids pm).

(** The order of the gap index: by size, then by the base address of the
    segment referenced. *)
Definition gap_base (h : list node_t) (g : gap_t) : Z :=
  mem (alloc_record (deref h (gap_node g))).

Definition gap_le (h : list node_t) (g1 g2 : gap_t) : Prop :=
  gap_size g1 < gap_size g2
  \/ (gap_size g1 = gap_size g2 /\ gap_base h g1 <= gap_base h g2).

Definition gap_leb (h : list node_t) (g1 g2 : gap_t) : bool :=
  (gap_size g1 <? gap_size g2)
  || ((gap_size g1 =? gap_size g2) && (gap_base h g1 <=? gap_base h g2)).

(** The sort invariant on the [n] entries in use. *)
Definition gap_sorted (h : list node_t) (ix : list gap_t) (n : nat) : Prop :=
  forall i j gi gj, (i < j)%nat -> (j < n)%nat ->
    ix !! i = Some gi -> ix !! j = Some gj -> gap_le h gi gj.

(** *** The invariants at rest, as a check *)

Fixpoint links_ok (h : list node_t) (before : node_pt) (l : list nat) : bool :=
  match l with
  | [] => true
  | i :: t =>
      bool_decide (prev (rd h i) = before)
      && match t with
         | [] => bool_decide (next (rd h i) = None)
         | j :: _ => bool_decide (next (rd h i) = Some j)
         end
      && links_ok h (Some i) t
  end.

Fixpoint tiles (h : list node_t) (from to : Z) (l : list nat) : bool :=
  match l with
  | [] => from =? to
  | i :: t =>
      (mem (alloc_record (rd h i)) =? from)
      && (0 <? size (alloc_record (rd h i)))
      && tiles h (from + size (alloc_record (rd h i))) to t
  end.

Fixpoint sorted_gaps (h : list node_t) (l : list gap_t) : bool :=
  match l with
  | [] => true
  | g :: t =>
      match t with
      | [] => true
      | g' :: _ => gap_leb h g g' && sorted_gaps h t
      end
  end.

Definition sum_sizes (h : list node_t) (l : list nat) : Z :=
  foldr (fun i acc => size (alloc_record (rd h i)) + acc) 0 l.

(** The six invariants of the data model, on the segment list, the gap
    index and the counters of [pm], together with the agreement of the
    capacities with the arrays. *)
Definition at_rest (pm : pool_mgr_t) : bool :=
  let h := node_heap pm in
  let l := segment_ids pm in
  let gaps := filter (fun i => allocated (rd h i) = false) l in
  let allocs := filter (fun i => allocated (rd h i) = true) l in
  let entries := take (Z.to_nat (num_gaps (pool pm))) (gap_ix pm) in
  (* 1: the used records are one doubly-linked list, by ascending base *)
  forallb (fun i => used (rd h i)) l
  && bool_decide (length (filter (fun n => used n = true) h) = length l)
  && links_ok h None l
  (* 2: the segments tile the region *)
  && tiles h (pool_mem (pool pm)) (pool_mem (pool pm) + total_size (pool pm)) l
  (* 3: no two adjacent gaps *)
  && negb (adjacent_gaps (segments pm))
  (* 4: the gap index holds exactly the gaps, once each, sorted *)
  && bool_decide (length entries = length gaps)
  && forallb (fun i => bool_decide
       (filter (fun g => gap_node g = Some i) entries
        = [mk_gap (size (alloc_record (rd h i))) (Some i)])) gaps
  && sorted_gaps h entries
  (* 5: the counters agree with the list *)
  && (num_allocs (pool pm) =? Z.of_nat (length allocs))
  && (num_gaps (pool pm) =? Z.of_nat (length gaps))
  && (alloc_size (pool pm) =? sum_sizes h allocs)
  (* 6: allocated and free bytes add up to the region *)
  && (alloc_size (pool pm) + sum_sizes h gaps =? total_size (pool pm))
  (* the capacities are those of the arrays *)
  && (total_nodes pm =? Z.of_nat (length h))
  && (used_nodes pm =? Z.of_nat (length l))
  && (gap_ix_capacity pm =? Z.of_nat (length (gap_ix pm))).

(** *** Legitimate use of the interface *)

(** A handle the caller may release: the record is on the list and
    allocated. *)
Definition valid_handle (pm : pool_mgr_t) (d : nat) : bool :=
  used (rd (node_heap pm) d) && allocated (rd (node_heap pm) d).

(** Every request of the run has a positive size and every release is of a
    handle that is allocated at that moment. *)
Fixpoint run_valid (e : env) (pm : pool_mgr_t) (ops : list op) : bool :=
  match ops with
  | [] => true
  | o :: t =>
      match o with
      | Alloc sz => 0 <? sz
      | Del d => valid_handle pm d
      end && run_valid e (step e pm o) t
  end.

(** Thirty-nine one-byte allocations fill the arena up to its last record;
    two releases and a 500-byte allocation then leave [node_heap[39]]
    allocated with 500 bytes, and the gaps are of 3 and 461 bytes. *)
Definition ops_last_record_allocated : list op :=
  replicate 39 (Alloc 1) ++ [Del 0%nat; Del 1%nat; Alloc 500; Del 2%nat].

Definition pool_last_record_allocated : pool_mgr_t :=
  run env_zero (pool_mgr_open 1000 1000 FIRST_FIT) ops_last_record_allocated.

(** A run after which the arena order and the address order differ: the gap
    at [node_heap[1]] lies above the gap at [node_heap[3]]. *)
Definition ops_arena_order : list op :=
  [Alloc 100; Alloc 100; Alloc 100; Alloc 100; Del 1%nat; Del 0%nat;
   Alloc 300; Alloc 200; Del 3%nat].

Definition pool_arena_order : pool_mgr_t :=
  run env_zero (pool_mgr_open 1000 1000 FIRST_FIT) ops_arena_order.

(** A pool with 31 of its 40 records in use. *)
Definition pool_31_of_40 : pool_mgr_t :=
  run env_zero (pool_mgr_open 1000 1000 FIRST_FIT) (replicate 30 (Alloc 1)).

(** ** Further definitions used by the results *)

(** Sixty-two one-byte allocations, then the release of every other one of
    the first sixty: 31 gaps for a gap index of capacity 40. *)
Definition ops_31_gaps : list op :=
  replicate 62 (Alloc 1) ++ map (fun k => Del (2 * k)) (seq 0 30).
Definition pool_31_gaps : pool_mgr_t :=
  run env_zero (pool_mgr_open 1000 1000 BEST_FIT) ops_31_gaps.

(** The part of a pool manager the gap index routines do not touch. *)
Definition outside_gap_ix (pm : pool_mgr_t) :=
  (node_heap pm, total_nodes pm, used_nodes pm,
   (pool_mem (pool pm), policy (pool pm), total_size (pool pm),
    alloc_size (pool pm), num_allocs (pool pm))).

(** An environment whose added records all look used and allocated. *)
Definition env_used : env :=
  mk_env gap_zero (fun _ => mk_node (mk_alloc 0 0) true true None None) (fun _ => gap_zero).

(** A pool whose forty records are all in use. *)
Definition pool_arena_full : pool_mgr_t :=
  run env_zero (pool_mgr_open 1000 1000 BEST_FIT) (replicate 39 (Alloc 1)).

(** The pool of the fifth scenario: gaps of 30 bytes at offset 0 and of 40
    bytes at offset 60. *)
Definition pool_two_gaps : pool_mgr_t :=
  run env_zero (pool_mgr_open 1000 100 BEST_FIT)
    [Alloc 30; Alloc 30; Alloc 40; Del 0%nat; Del 2%nat].

(** An environment in which the records [realloc] adds to the arena look
    like gaps of 100 bytes and hold the address of [node_heap[0]] in their
    [next] member. *)
Definition env_stale : env :=
  mk_env gap_zero (fun _ => mk_node (mk_alloc 100 7000) true false (Some 0%nat) None)
    (fun _ => gap_zero).

(** Forty allocations use the whole region and the forty records of the
    arena; the fortieth finds the arena full and doubles it.  The first
    handle is then released. *)
Definition ops_arena_grown : list op :=
  replicate 39 (Alloc 1) ++ [Alloc 961; Del 0%nat].

Definition pool_arena_grown : pool_mgr_t :=
  run env_stale (pool_mgr_open 1000 1000 FIRST_FIT) ops_arena_grown.

(** [node_heap[0]] is on the list, has no predecessor, and is the successor
    of no record. *)
Definition head_inv (h : list node_t) : Prop :=
  used (rd h 0) = true /\ prev (rd h 0) = None
  /\ forall i, next (rd h i) <> Some 0%nat.

(** Updates that do not make a record point to [node_heap[0]]. *)
Definition safe (f : node_t -> node_t) : Prop :=
  forall n, next n <> Some 0%nat -> next (f n) <> Some 0%nat.

(** Updates that leave the links and the [used] flag alone. *)
Definition keeps_links (f : node_t -> node_t) : Prop :=
  forall n, next (f n) = next n /\ prev (f n) = prev n /\ used (f n) = used n.

(** The world before [mem_init]. *)
Definition world_closed : world := mk_world None 0 0 ∅ [].

(** The world after [mem_init] and one [mem_pool_open] whose manager is at
    address [7]. *)
Definition world_one_pool : world :=
  snd (mem_pool_open (fun _ => None) (Some 7%nat) 4096
         (snd (mem_init world_closed)) 1000 BEST_FIT).

(** The conditions of the round trip: no growth of the arena is due, the
    counters are in range, the candidate [a] is a gap of the list with an
    entry among the [n] in use, its neighbours are allocated records of the
    list, and every record of the list is in use. *)
Definition round_trip_ready (pm : pool_mgr_t) (sz : Z) (a n : nat) : Prop :=
  let h := node_heap pm in
  0 <= used_nodes pm < total_nodes pm
  /\ total_nodes pm = Z.of_nat (length h)
  /\ length (gap_ix pm) = Z.to_nat (gap_ix_capacity pm)
  /\ gap_ix_capacity pm < 2 ^ 32
  /\ num_gaps (pool pm) = Z.of_nat n /\ (n <= length (gap_ix pm))%nat
  /\ 0 <= num_allocs (pool pm) < 2 ^ 32
  /\ 0 <= alloc_size (pool pm) < 2 ^ 64
  /\ used (rd h a) = true /\ allocated (rd h a) = false
  /\ 0 <= sz <= size (alloc_record (rd h a))
  /\ size (alloc_record (rd h a)) < 2 ^ 64
  /\ Exists (fun g => gap_node g = Some a) (take n (gap_ix pm))
  /\ match next (rd h a) with
     | Some x => used (rd h x) = true /\ allocated (rd h x) = true
                 /\ prev (rd h x) = Some a
     | None => True
     end
  /\ match prev (rd h a) with
     | Some p => used (rd h p) = true /\ allocated (rd h p) = true
     | None => True
     end
  /\ Forall (fun i => used (rd h i) = true) (segment_ids pm).

(** The state of the pass when it is about to look at index [i]: the first
    [m] entries are sorted but for the one at [i], which is not above the
    entries after it. *)
Definition bubbling (h : list node_t) (ix : list gap_t) (m i : nat) : Prop :=
  (forall p q gp gq, (p < q)%nat -> (q < m)%nat -> p <> i -> q <> i ->
     ix !! p = Some gp -> ix !! q = Some gq -> gap_le h gp gq)
  /\ (forall q gi gq, (i < q)%nat -> (q < m)%nat ->
        ix !! i = Some gi -> ix !! q = Some gq -> gap_le h gi gq).

(** ** mem_free *)

(** The loop of [mem_free] over the first [pool_store_size] slots of the
    store: [n] iterations are left, the next one reads [pool_store[i]]; the
    result tells whether a slot that is not [NULL] was met.  As in
    [clear_slot], a slot outside the array reads as [NULL]. *)
Fixpoint slot_in_use (s : list (option nat)) (n i : nat) : bool :=
  match n with
  | O => false
  | S n' => if decide (mjoin (s !! i) = None) then slot_in_use s n' (S i) else true
  end.

(** [free(pool_store)] gives the array back and the three static variables
    are reset. *)
Definition mem_free (w : world) : alloc_status * world :=
  match pool_store w with
  | None => (ALLOC_CALLED_AGAIN, w)
  | Some s =>
      if slot_in_use s (Z.to_nat (pool_store_size w)) 0 then (ALLOC_FAIL, w)
      else (ALLOC_OK, mk_world None 0 0 (mgrs w) (live w))
  end.

(** The blocks of the pool manager at address [p]. *)
Definition blocks_of (p : nat) : list block :=
  [Mgr p; Region p; NodeHeap p; GapIx p].

(** What a record says of its segment: everything but the links. *)
Definition record_of (n : node_t) : alloc_t * bool * bool :=
  (alloc_record n, used n, allocated n).

(** The pool managers that [mem_pool_open] followed by calls of
    [mem_new_alloc] and [mem_del_alloc] can produce, with any environment,
    any request size and any handle, as long as no call of [mem_new_alloc]
    finds the arena full: the arena is then never reallocated. *)
Inductive fixed_arena : pool_mgr_t -> Prop :=
| fixed_open base sz pol : fixed_arena (pool_mgr_open base sz pol)
| fixed_alloc e pm sz :
    fixed_arena pm -> 0 <= used_nodes pm < total_nodes pm ->
    fixed_arena (snd (mem_new_alloc e pm sz))
| fixed_del e pm d :
    fixed_arena pm -> fixed_arena (snd (mem_del_alloc e pm d)).

(** ** The segment list, record by record *)

Definition base_of (h : list node_t) (i : nat) : Z := mem (alloc_record (rd h i)).
Definition size_of (h : list node_t) (i : nat) : Z := size (alloc_record (rd h i)).

(** The records in use of the arena [h] form the segment list of the region
    from [lo] to [hi]: [node_heap[0]] is the first segment; the links of the
    records in use agree with one another and lead to records in use; each
    segment starts where its predecessor ends and the last one ends with the
    region; the sizes are positive; and a gap is not followed by a gap.  The
    last condition is not asked of the record [exc], which is the record
    being released while [mem_del_alloc] runs. *)
Definition heap_inv (exc : option nat) (lo hi : Z) (h : list node_t) : Prop :=
  (used (rd h 0) = true /\ prev (rd h 0) = None /\ base_of h 0 = lo)
  /\ (forall i x, used (rd h i) = true -> next (rd h i) = Some x ->
        used (rd h x) = true /\ prev (rd h x) = Some i
        /\ base_of h x = base_of h i + size_of h i)
  /\ (forall i, used (rd h i) = true -> next (rd h i) = None ->
        base_of h i + size_of h i = hi)
  /\ (forall x p, used (rd h x) = true -> prev (rd h x) = Some p ->
        used (rd h p) = true /\ next (rd h p) = Some x)
  /\ (forall i, used (rd h i) = true ->
        0 < size_of h i /\ lo <= base_of h i /\ base_of h i + size_of h i <= hi)
  /\ (forall i x, used (rd h i) = true -> allocated (rd h i) = false ->
        next (rd h i) = Some x -> exc <> Some i -> exc <> Some x ->
        allocated (rd h x) = true).

(** The same of a pool manager, whose region is [total_size] bytes from
    [pool.mem] and whose arena has [total_nodes] records. *)
Definition list_inv (pm : pool_mgr_t) : Prop :=
  heap_inv None (pool_mem (pool pm)) (pool_mem (pool pm) + total_size (pool pm)) (node_heap pm)
  /\ total_size (pool pm) < 2 ^ 64
  /\ total_nodes pm = Z.of_nat (length (node_heap pm)).

(** The pool managers reached when every call does what its caller expects:
    the region has a positive size; no [mem_new_alloc] finds the arena full;
    a request has a positive size and is either refused for want of a
    candidate, or served from a candidate that is a gap in use large enough,
    a handle being returned; a release is of a handle that is allocated and
    it reports [ALLOC_OK]. *)
Inductive orderly : pool_mgr_t -> Prop :=
| orderly_open base sz pol :
    0 < sz < 2 ^ 64 -> orderly (pool_mgr_open base sz pol)
| orderly_alloc e pm sz a :
    orderly pm -> 0 <= used_nodes pm < total_nodes pm -> 0 < sz ->
    select_node e pm sz = Some a -> fits sz (rd (node_heap pm) a) = true ->
    fst (mem_new_alloc e pm sz) <> None ->
    orderly (snd (mem_new_alloc e pm sz))
| orderly_refused e pm sz :
    orderly pm -> 0 <= used_nodes pm < total_nodes pm ->
    select_node e pm sz = None ->
    orderly (snd (mem_new_alloc e pm sz))
| orderly_del e pm d :
    orderly pm -> valid_handle pm d = true ->
    fst (mem_del_alloc e pm d) = ALLOC_OK ->
    orderly (snd (mem_del_alloc e pm d)).

(** * Results *)

(** Reduction of the projections of a pool manager, and of nothing else. *)
Ltac simpl_pm :=
  cbn [pool node_heap total_nodes used_nodes gap_ix gap_ix_capacity
       with_pool with_node_heap with_total_nodes with_used_nodes with_gap_ix
       with_gap_ix_capacity pool_mem policy total_size alloc_size num_allocs
       num_gaps set_alloc_size set_num_allocs set_num_gaps fst snd].

Tactic Notation "simpl_pm" "in" hyp(H) :=
  cbn [pool node_heap total_nodes used_nodes gap_ix gap_ix_capacity
       with_pool with_node_heap with_total_nodes with_used_nodes with_gap_ix
       with_gap_ix_capacity pool_mem policy total_size alloc_size num_allocs
       num_gaps set_alloc_size set_num_allocs set_num_gaps fst snd] in H.

(** ** The growth checks *)

Lemma exceeds_fill_three_quarters (u c : Z) :
  0 < c -> 0 <= u -> exceeds_fill (3 # 4) u c = true <-> c <= u.
Proof.
  intros Hc Hu. unfold exceeds_fill, Qle_bool. simpl.
  rewrite negb_true_iff, Z.leb_gt.
  split; intros H.
  - destruct (Z_lt_le_dec u c) as [Hlt|]; [|assumption].
    rewrite Z.div_small in H by lia. lia.
  - assert (1 <= u / c) by (apply Z.div_le_lower_bound; lia). lia.
Qed.

Lemma resize_node_heap_below_capacity (e : env) (pm : pool_mgr_t) :
  0 <= used_nodes pm < total_nodes pm -> _mem_resize_node_heap e pm = pm.
Proof.
  intros H. unfold _mem_resize_node_heap.
  destruct (exceeds_fill _ _ _) eqn:E; [|reflexivity].
  apply exceeds_fill_three_quarters in E; lia.
Qed.

Lemma resize_gap_ix_below_capacity (e : env) (pm : pool_mgr_t) :
  0 <= num_gaps (pool pm) < gap_ix_capacity pm -> _mem_resize_gap_ix e pm = pm.
Proof.
  intros H. unfold _mem_resize_gap_ix.
  destruct (exceeds_fill _ _ _) eqn:E; [|reflexivity].
  apply exceeds_fill_three_quarters in E; lia.
Qed.

(** C7, at the code: with 31 of 40 records in use, and with 31 of 40 entries
    of the gap index in use, the ratio exceeds 0.75 and neither growth check
    changes the capacity: the quotient of the two [unsigned] is [0]. *)
Theorem C7_growth_defeated_by_truncation :
  (run_valid env_zero (pool_mgr_open 1000 1000 FIRST_FIT) (replicate 30 (Alloc 1)) = true
   /\ used_nodes pool_31_of_40 = 31 /\ total_nodes pool_31_of_40 = 40
   /\ total_nodes pool_31_of_40 * 3 < used_nodes pool_31_of_40 * 4
   /\ total_nodes (_mem_resize_node_heap env_zero pool_31_of_40) = 40)
  /\ (run_valid env_zero (pool_mgr_open 1000 1000 BEST_FIT) ops_31_gaps = true
      /\ num_gaps (pool pool_31_gaps) = 31 /\ gap_ix_capacity pool_31_gaps = 40
      /\ gap_ix_capacity pool_31_gaps * 3 < num_gaps (pool pool_31_gaps) * 4
      /\ gap_ix_capacity (_mem_resize_gap_ix env_zero pool_31_gaps) = 40).
Proof. vm_compute. repeat split; congruence. Qed.

(** ** The gap index *)

Lemma find_pos_bound e ix node n i pos :
  find_pos e ix node n i = Some pos -> (i <= pos < i + n)%nat.
Proof.
  revert i. induction n as [|n IH]; intros i; simpl; [discriminate|].
  destruct (decide _).
  - intros [= <-]. lia.
  - intros H. apply IH in H. lia.
Qed.

Lemma find_pos_hit e ix node n i pos :
  find_pos e ix node n i = Some pos -> gap_node (ix_rd e ix pos) = node.
Proof.
  revert i. induction n as [|n IH]; intros i; simpl; [discriminate|].
  destruct (decide _) as [Heq|]; [intros [= <-]; exact Heq | apply IH].
Qed.

Lemma find_pos_first e ix node n i pos k :
  find_pos e ix node n i = Some pos -> (i <= k < pos)%nat ->
  gap_node (ix_rd e ix k) <> node.
Proof.
  revert i. induction n as [|n IH]; intros i; simpl; [discriminate|].
  destruct (decide _) as [|Hne].
  - intros [= <-]. lia.
  - intros H Hk. destruct (decide (k = i)) as [->|]; [exact Hne|].
    apply (IH (S i)); [exact H | lia].
Qed.

Lemma find_pos_some e ix node n i k :
  (i <= k < i + n)%nat -> gap_node (ix_rd e ix k) = node ->
  exists pos, find_pos e ix node n i = Some pos /\ (pos <= k)%nat.
Proof.
  revert i. induction n as [|n IH]; intros i Hk Hn; simpl; [lia|].
  destruct (decide _).
  - exists i. split; [reflexivity | lia].
  - destruct (decide (k = i)) as [->|]; [contradiction|].
    apply IH; [lia | exact Hn].
Qed.

Lemma shift_down_trace e ix n j :
  snd (shift_down e ix n j) = flat_map (fun k => [S k; k]) (seq j n).
Proof.
  revert ix j. induction n as [|n IH]; intros ix j; simpl; [reflexivity|].
  specialize (IH (<[j := ix_rd e ix (S j)]> ix) (S j)).
  destruct (shift_down _ _ _ _) as [ix' tr]. simpl in *. by rewrite IH.
Qed.

Lemma shift_down_length e ix n j :
  length (fst (shift_down e ix n j)) = length ix.
Proof.
  revert ix j. induction n as [|n IH]; intros ix j; simpl; [reflexivity|].
  specialize (IH (<[j := ix_rd e ix (S j)]> ix) (S j)).
  destruct (shift_down _ _ _ _) as [ix' tr]. simpl in *.
  by rewrite IH, length_insert.
Qed.

Lemma shift_down_lookup e ix n j k :
  fst (shift_down e ix n j) !! k =
  if decide ((j <= k < j + n)%nat /\ (k < length ix)%nat)
  then Some (ix_rd e ix (S k)) else ix !! k.
Proof.
  revert ix j. induction n as [|n IH]; intros ix j; simpl.
  - case_decide; [lia | reflexivity].
  - specialize (IH (<[j := ix_rd e ix (S j)]> ix) (S j)).
    destruct (shift_down _ _ _ _) as [ix' tr]. simpl in *.
    rewrite IH, length_insert. unfold ix_rd.
    rewrite !list_lookup_insert.
    repeat case_decide; try lia; try reflexivity;
      destruct_and?; subst; try lia; reflexivity.
Qed.

Lemma remove_heap_unchanged e pm sz node :
  node_heap (snd (_mem_remove_from_gap_ix e pm sz node)) = node_heap pm.
Proof.
  unfold _mem_remove_from_gap_ix, _mem_remove_from_gap_ix_trace.
  destruct (find_pos _ _ _ _ _); [|reflexivity].
  destruct (shift_down _ _ _ _). reflexivity.
Qed.

(** C8, at the code: whenever [_mem_remove_from_gap_ix] finds its entry, the
    shift loop reads the cell whose index is the capacity of the gap index,
    which lies after the last element of the array. *)
Theorem C8_remove_reads_past_end (e : env) (pm : pool_mgr_t) (sz : Z) (node : node_pt) :
  Z.of_nat (length (gap_ix pm)) = gap_ix_capacity pm ->
  fst (_mem_remove_from_gap_ix e pm sz node) = ALLOC_OK ->
  exists i,
    In i (snd (_mem_remove_from_gap_ix_trace e pm sz node))
    /\ Z.of_nat i = gap_ix_capacity pm
    /\ gap_ix pm !! i = None.
Proof.
  intros Hcap. unfold _mem_remove_from_gap_ix, _mem_remove_from_gap_ix_trace.
  destruct (find_pos _ _ _ _ _) as [pos|] eqn:Hpos; [|discriminate].
  apply find_pos_bound in Hpos.
  pose proof (shift_down_trace e (gap_ix pm) (Z.to_nat (gap_ix_capacity pm) - pos) pos) as Htr.
  destruct (shift_down _ _ _ _) as [ix tr]. simpl in *. intros _.
  exists (length (gap_ix pm)).
  split; [|split; [exact Hcap | apply lookup_ge_None_2; lia]].
  rewrite !in_app_iff. right. left. subst tr.
  apply in_flat_map. exists (length (gap_ix pm) - 1)%nat. split.
  - apply in_seq. lia.
  - left. lia.
Qed.

(** C8, witness: the first allocation from a fresh pool removes the entry of
    slot 0 and reads [gap_ix[40]]. *)
Lemma C8_witness :
  exists i,
    In i (snd (_mem_remove_from_gap_ix_trace env_zero
                 (pool_mgr_open 1000 1000 BEST_FIT) 100 (Some 0%nat)))
    /\ Z.of_nat i = gap_ix_capacity (pool_mgr_open 1000 1000 BEST_FIT)
    /\ gap_ix (pool_mgr_open 1000 1000 BEST_FIT) !! i = None.
Proof.
  apply (C8_remove_reads_past_end env_zero (pool_mgr_open 1000 1000 BEST_FIT) 100 (Some 0%nat));
    reflexivity.
Defined.

(** ** Reads after writes in the arena *)

Lemma rd_wr h i f j :
  rd (wr h i f) j = if decide (i = j /\ (i < length h)%nat) then f (rd h j) else rd h j.
Proof.
  unfold rd, wr. rewrite list_lookup_alter.
  destruct (decide (i = j)) as [->|Hne].
  - destruct (h !! j) eqn:E; simpl.
    + apply lookup_lt_Some in E. rewrite decide_True by (split; [reflexivity | exact E]). reflexivity.
    + apply lookup_ge_None in E. rewrite decide_False by lia. reflexivity.
  - rewrite decide_False by tauto. reflexivity.
Qed.

Lemma length_wr h i f : length (wr h i f) = length h.
Proof. apply length_alter. Qed.

Lemma length_wr_p h p f : length (wr_p h p f) = length h.
Proof. destruct p; [apply length_wr | reflexivity]. Qed.

Lemma rd_wr_in h i f j :
  (i < length h)%nat ->
  rd (wr h i f) j = if decide (i = j) then f (rd h j) else rd h j.
Proof.
  intros Hi. rewrite rd_wr.
  destruct (decide (i = j)) as [->|Hne].
  - rewrite decide_True by tauto. reflexivity.
  - rewrite decide_False by tauto. reflexivity.
Qed.

Lemma used_in_arena h i : used (rd h i) = true -> (i < length h)%nat.
Proof.
  unfold rd. destruct (h !! i) eqn:E; [intros _; eapply lookup_lt_Some, E | discriminate].
Qed.

Lemma rd_wr_same h i f : (i < length h)%nat -> rd (wr h i f) i = f (rd h i).
Proof. intros Hi. rewrite rd_wr_in by exact Hi. rewrite decide_True by reflexivity. reflexivity. Qed.

Lemma rd_wr_ne h i f j : i <> j -> rd (wr h i f) j = rd h j.
Proof. intros Hne. rewrite rd_wr. rewrite decide_False by tauto. reflexivity. Qed.

(** A member that the update [f] leaves alone reads the same after the
    write. *)
Lemma field_rd_wr {A} (fld : node_t -> A) h i f j :
  (forall n, fld (f n) = fld n) -> fld (rd (wr h i f) j) = fld (rd h j).
Proof. intros Hf. rewrite rd_wr. case_decide; [apply Hf | reflexivity]. Qed.

Lemma field_rd_wr_p {A} (fld : node_t -> A) h p f j :
  (forall n, fld (f n) = fld n) -> fld (rd (wr_p h p f) j) = fld (rd h j).
Proof. destruct p; [apply field_rd_wr | reflexivity]. Qed.

Ltac keep_field :=
  repeat first
    [ rewrite field_rd_wr by (intros []; reflexivity)
    | rewrite field_rd_wr_p by (intros []; reflexivity) ].

(** ** What the gap index routines leave alone *)


Lemma remove_trace_frame e pm sz node :
  outside_gap_ix (snd (fst (_mem_remove_from_gap_ix_trace e pm sz node))) = outside_gap_ix pm
  /\ gap_ix_capacity (snd (fst (_mem_remove_from_gap_ix_trace e pm sz node)))
     = gap_ix_capacity pm.
Proof.
  unfold _mem_remove_from_gap_ix_trace.
  destruct (find_pos _ _ _ _ _); [|split; reflexivity].
  destruct (shift_down _ _ _ _). split; reflexivity.
Qed.

Lemma remove_frame e pm sz node :
  outside_gap_ix (snd (_mem_remove_from_gap_ix e pm sz node)) = outside_gap_ix pm.
Proof. apply remove_trace_frame. Qed.

Lemma resize_gap_ix_frame e pm :
  outside_gap_ix (_mem_resize_gap_ix e pm) = outside_gap_ix pm.
Proof. unfold _mem_resize_gap_ix. destruct (exceeds_fill _ _ _); reflexivity. Qed.

Lemma add_frame e pm sz node :
  outside_gap_ix (snd (_mem_add_to_gap_ix e pm sz node)) = outside_gap_ix pm.
Proof.
  unfold _mem_add_to_gap_ix. simpl.
  unfold outside_gap_ix. simpl.
  pose proof (resize_gap_ix_frame e pm) as H. unfold outside_gap_ix in H.
  injection H as -> -> -> -> -> -> -> ->. reflexivity.
Qed.

Lemma add_status e pm sz node : fst (_mem_add_to_gap_ix e pm sz node) = ALLOC_OK.
Proof. reflexivity. Qed.

Lemma remove_status e pm sz node :
  fst (_mem_remove_from_gap_ix e pm sz node) = ALLOC_OK
  \/ fst (_mem_remove_from_gap_ix e pm sz node) = ALLOC_FAIL.
Proof.
  unfold _mem_remove_from_gap_ix, _mem_remove_from_gap_ix_trace.
  destruct (find_pos _ _ _ _ _); [|right; reflexivity].
  destruct (shift_down _ _ _ _). left; reflexivity.
Qed.

(** Projections of [outside_gap_ix], for rewriting. *)
Lemma outside_gap_ix_eq pm pm' :
  outside_gap_ix pm' = outside_gap_ix pm ->
  node_heap pm' = node_heap pm /\ total_nodes pm' = total_nodes pm
  /\ used_nodes pm' = used_nodes pm /\ policy (pool pm') = policy (pool pm)
  /\ alloc_size (pool pm') = alloc_size (pool pm)
  /\ num_allocs (pool pm') = num_allocs (pool pm)
  /\ pool_mem (pool pm') = pool_mem (pool pm)
  /\ total_size (pool pm') = total_size (pool pm).
Proof. unfold outside_gap_ix. intros [= -> -> -> -> -> -> -> ->]. repeat split. Qed.

(** ** mem_del_alloc: counters and flags *)

Lemma merge_next_pool e pm d :
  num_allocs (pool (merge_next e pm d)) = num_allocs (pool pm)
  /\ alloc_size (pool (merge_next e pm d)) = alloc_size (pool pm).
Proof.
  unfold merge_next. simpl_pm.
  match goal with |- context [_mem_remove_from_gap_ix ?e ?p ?s ?n] =>
    destruct (outside_gap_ix_eq _ _ (remove_frame e p s n)) as (_ & _ & _ & _ & -> & -> & _)
  end.
  split; reflexivity.
Qed.

Lemma merge_next_allocated e pm d j :
  allocated (rd (node_heap (merge_next e pm d)) j) = allocated (rd (node_heap pm) j).
Proof.
  unfold merge_next. simpl_pm.
  match goal with |- context [_mem_remove_from_gap_ix ?e ?p ?s ?n] =>
    destruct (outside_gap_ix_eq _ _ (remove_frame e p s n)) as (-> & _)
  end.
  unfold absorb_next. cbv zeta.
  destruct (next (deref _ _)); keep_field; reflexivity.
Qed.

Lemma merge_prev_pool pm d p : pool (merge_prev pm d p) = pool pm.
Proof. reflexivity. Qed.

Lemma merge_prev_allocated pm d p j :
  allocated (rd (node_heap (merge_prev pm d p)) j) = allocated (rd (node_heap pm) j).
Proof.
  unfold merge_prev. simpl_pm.
  destruct (next (rd _ _)); keep_field; reflexivity.
Qed.

(** C5, as amended: [mem_del_alloc] does not look at the state of the record
    behind the handle.  For every pool manager and every handle it clears the
    allocated flag, decrements [num_allocs], subtracts the size of the record
    from [alloc_size], and reports [ALLOC_OK] or [ALLOC_FAIL]. *)
Theorem C5_release_without_validation (e : env) (pm : pool_mgr_t) (d : nat) :
  (fst (mem_del_alloc e pm d) = ALLOC_OK \/ fst (mem_del_alloc e pm d) = ALLOC_FAIL)
  /\ num_allocs (pool (snd (mem_del_alloc e pm d))) = wrap32 (num_allocs (pool pm) - 1)
  /\ alloc_size (pool (snd (mem_del_alloc e pm d)))
     = wrap64 (alloc_size (pool pm) - size (alloc_record (rd (node_heap pm) d)))
  /\ allocated (rd (node_heap (snd (mem_del_alloc e pm d))) d) = false.
Proof.
  unfold mem_del_alloc.
  set (pm1 := with_pool _ (with_pool _ (with_node_heap _ pm))).
  assert (Hc : num_allocs (pool pm1) = wrap32 (num_allocs (pool pm) - 1)
               /\ alloc_size (pool pm1)
                  = wrap64 (alloc_size (pool pm) - size (alloc_record (rd (node_heap pm) d)))).
  { subst pm1. simpl. keep_field. split; reflexivity. }
  assert (Ha : allocated (rd (node_heap pm1) d) = false).
  { subst pm1. simpl. rewrite rd_wr. case_decide as Hd; [reflexivity|].
    unfold rd. rewrite lookup_ge_None_2; [reflexivity|]. lia. }
  set (pm2 := match next (rd (node_heap pm1) d) with
              | Some n => if allocated (rd (node_heap pm1) n) then pm1 else merge_next e pm1 d
              | None => pm1 end).
  assert (Hc2 : num_allocs (pool pm2) = num_allocs (pool pm1)
                /\ alloc_size (pool pm2) = alloc_size (pool pm1)
                /\ allocated (rd (node_heap pm2) d) = false).
  { subst pm2. destruct (next (rd (node_heap pm1) d)) as [n|]; [|tauto].
    destruct (allocated (rd (node_heap pm1) n)); [tauto|].
    rewrite merge_next_allocated. pose proof (merge_next_pool e pm1 d). tauto. }
  destruct Hc as [Hc1 Hc1'], Hc2 as (Hn & Hs & Ha2).
  rewrite <- Hc1, <- Hc1', <- Hn, <- Hs. clearbody pm2. clear - Ha2.
  assert (Hadd : forall pm' sz node,
            allocated (rd (node_heap pm') d) = false ->
            num_allocs (pool pm') = num_allocs (pool pm2) ->
            alloc_size (pool pm') = alloc_size (pool pm2) ->
            (fst (_mem_add_to_gap_ix e pm' sz node) = ALLOC_OK
             \/ fst (_mem_add_to_gap_ix e pm' sz node) = ALLOC_FAIL)
            /\ num_allocs (pool (snd (_mem_add_to_gap_ix e pm' sz node))) = num_allocs (pool pm2)
            /\ alloc_size (pool (snd (_mem_add_to_gap_ix e pm' sz node))) = alloc_size (pool pm2)
            /\ allocated (rd (node_heap (snd (_mem_add_to_gap_ix e pm' sz node))) d) = false).
  { intros pm' sz node H1 H2 H3.
    destruct (outside_gap_ix_eq _ _ (add_frame e pm' sz node)) as (-> & _ & _ & _ & -> & -> & _).
    rewrite add_status. tauto. }
  destruct (prev (rd (node_heap pm2) d)) as [p|]; [|apply Hadd; auto].
  destruct (allocated (rd (node_heap pm2) p)); [apply Hadd; auto|].
  destruct (_mem_remove_from_gap_ix e pm2 _ (Some p)) as [st pm3] eqn:Hrm.
  pose proof (remove_frame e pm2 (size (alloc_record (rd (node_heap pm2) p))) (Some p)) as Hf.
  rewrite Hrm in Hf. simpl in Hf.
  destruct (outside_gap_ix_eq _ _ Hf) as (Hh & _ & _ & _ & Hs & Hn & _).
  destruct (decide (st = ALLOC_FAIL)) as [->|].
  - simpl. rewrite Hh, Hs, Hn. tauto.
  - apply Hadd.
    + rewrite merge_prev_allocated, Hh. exact Ha2.
    + rewrite merge_prev_pool. exact Hn.
    + rewrite merge_prev_pool. exact Hs.
Qed.

(** C5, counterexample: the second release of the same handle reports
    [ALLOC_OK] and changes the pool: [num_allocs] wraps around to [2^32 - 1]
    and the gap index gets a second entry. *)
Lemma C5_counterexample :
  let pm0 := pool_mgr_open 1000 1000 BEST_FIT in
  exists pm1 pm2 pm3,
    mem_new_alloc env_zero pm0 100 = (Some 0%nat, pm1)
    /\ mem_del_alloc env_zero pm1 0 = (ALLOC_OK, pm2)
    /\ valid_handle pm2 0 = false
    /\ mem_del_alloc env_zero pm2 0 = (ALLOC_OK, pm3)
    /\ pm3 <> pm2
    /\ num_allocs (pool pm2) = 0
    /\ num_allocs (pool pm3) = 2 ^ 32 - 1
    /\ num_gaps (pool pm3) = 2.
Proof.
  eexists. eexists. eexists.
  split; [vm_compute; reflexivity|]. split; [vm_compute; reflexivity|].
  split; [vm_compute; reflexivity|]. split; [vm_compute; reflexivity|].
  split; [vm_compute; discriminate|]. repeat split; vm_compute; reflexivity.
Qed.

(** The entries in use after a removal: the entry found is deleted and the
    others keep their order. *)
Lemma remove_live_entries e pm sz node (n k : nat) g :
  length (gap_ix pm) = Z.to_nat (gap_ix_capacity pm) ->
  num_gaps (pool pm) = Z.of_nat n -> Z.of_nat n < 2 ^ 32 ->
  (n <= length (gap_ix pm))%nat ->
  (k < n)%nat -> gap_ix pm !! k = Some g -> gap_node g = node ->
  exists pos gp pm',
    _mem_remove_from_gap_ix e pm sz node = (ALLOC_OK, pm')
    /\ (pos <= k)%nat /\ gap_ix pm !! pos = Some gp /\ gap_node gp = node
    /\ (forall i gi, (i < pos)%nat -> gap_ix pm !! i = Some gi -> gap_node gi <> node)
    /\ num_gaps (pool pm') = Z.of_nat n - 1
    /\ take (n - 1) (gap_ix pm') = delete pos (take n (gap_ix pm))
    /\ length (gap_ix pm') = length (gap_ix pm).
Proof.
  intros Hlen Hn Hn32 Hle Hk Hg Hnode.
  assert (Hg' : gap_node (ix_rd e (gap_ix pm) k) = node).
  { unfold ix_rd. rewrite Hg. exact Hnode. }
  destruct (find_pos_some e (gap_ix pm) node (Z.to_nat (gap_ix_capacity pm)) 0 k)
    as (pos & Hpos & Hposk); [lia | exact Hg' |].
  assert (Hpl : (pos < length (gap_ix pm))%nat) by lia.
  destruct (lookup_lt_is_Some_2 _ _ Hpl) as [gp Hgp].
  exists pos, gp.
  unfold _mem_remove_from_gap_ix, _mem_remove_from_gap_ix_trace. rewrite Hpos.
  pose proof (shift_down_lookup e (gap_ix pm) (Z.to_nat (gap_ix_capacity pm) - pos) pos) as Hsl.
  pose proof (shift_down_length e (gap_ix pm) (Z.to_nat (gap_ix_capacity pm) - pos) pos) as Hsn.
  destruct (shift_down _ _ _ _) as [ix tr]. simpl in Hsl, Hsn.
  eexists. split; [reflexivity|]. simpl.
  assert (Hw : wrap32 (num_gaps (pool pm) - 1) = Z.of_nat n - 1).
  { unfold wrap32. rewrite Hn. apply Z.mod_small. lia. }
  rewrite Hw.
  split; [exact Hposk|]. split; [exact Hgp|].
  split. { pose proof (find_pos_hit _ _ _ _ _ _ Hpos) as H. unfold ix_rd in H.
           rewrite Hgp in H. exact H. }
  split. { intros i gi Hi Hgi. pose proof (find_pos_first _ _ _ _ _ _ i Hpos) as H.
           unfold ix_rd in H. rewrite Hgi in H. apply H. lia. }
  split; [reflexivity|].
  split; [|rewrite length_insert; exact Hsn].
  rewrite take_insert_ge by lia.
  apply list_eq. intros i.
  destruct (decide (i < n - 1)%nat) as [Hi|Hi].
  - rewrite lookup_take_lt by exact Hi. rewrite Hsl.
    destruct (decide (i < pos)%nat).
    + rewrite decide_False by lia.
      rewrite list_lookup_delete_lt by lia. rewrite lookup_take_lt by lia. reflexivity.
    + rewrite decide_True by lia.
      rewrite list_lookup_delete_ge by lia. rewrite lookup_take_lt by lia.
      unfold ix_rd. destruct (lookup_lt_is_Some_2 (gap_ix pm) (S i)) as [x ->]; [lia|].
      reflexivity.
  - rewrite lookup_take_ge by lia. symmetry. apply lookup_ge_None_2.
    rewrite length_delete by (apply lookup_lt_is_Some_2; rewrite length_take; lia).
    rewrite length_take. lia.
Qed.

Lemma find_unused_ext h h' n k :
  (forall i, used (rd h i) = used (rd h' i)) ->
  find_unused h n k = find_unused h' n k.
Proof.
  intros Hu. revert k. induction n as [|n IH]; intros k; simpl; [reflexivity|].
  rewrite Hu, IH. reflexivity.
Qed.

Lemma find_unused_sound h n k u :
  find_unused h n k = Some u -> used (rd h u) = false /\ (k <= u < k + n)%nat.
Proof.
  revert k. induction n as [|n IH]; intros k; simpl; [discriminate|].
  destruct (used (rd h k)) eqn:E.
  - intros H. apply IH in H. split; [tauto | lia].
  - intros [= <-]. split; [exact E | lia].
Qed.

Lemma find_unused_none h n k :
  find_unused h n k = None ->
  forall i, (k <= i < k + n)%nat -> used (rd h i) = true.
Proof.
  revert k. induction n as [|n IH]; intros k; simpl; [intros _ i Hi; lia|].
  destruct (used (rd h k)) eqn:E; [|discriminate].
  intros H i Hi. destruct (decide (i = k)) as [->|]; [exact E|].
  apply (IH (S k) H). lia.
Qed.

Lemma resize_node_heap_frame e pm :
  pool (_mem_resize_node_heap e pm) = pool pm
  /\ gap_ix (_mem_resize_node_heap e pm) = gap_ix pm
  /\ gap_ix_capacity (_mem_resize_node_heap e pm) = gap_ix_capacity pm.
Proof. unfold _mem_resize_node_heap. destruct (exceeds_fill _ _ _); repeat split. Qed.

(** C9: when the candidate is larger than the request and the arena has no
    record with [used == 0], [mem_new_alloc] returns [NULL] after it has
    counted the allocation, taken the candidate out of the gap index and
    marked it allocated. *)
Theorem C9_null_after_mutation (e : env) (pm : pool_mgr_t) (sz : Z) (a n k : nat) (g : gap_t) :
  num_gaps (pool pm) = Z.of_nat n -> (0 < n)%nat -> Z.of_nat n < 2 ^ 32 ->
  length (gap_ix pm) = Z.to_nat (gap_ix_capacity pm) ->
  (n <= length (gap_ix pm))%nat ->
  (k < n)%nat -> gap_ix pm !! k = Some g -> gap_node g = Some a ->
  select_node e (_mem_resize_node_heap e pm) sz = Some a ->
  (a < length (node_heap (_mem_resize_node_heap e pm)))%nat ->
  allocated (rd (node_heap (_mem_resize_node_heap e pm)) a) = false ->
  0 <= sz < size (alloc_record (rd (node_heap (_mem_resize_node_heap e pm)) a)) ->
  size (alloc_record (rd (node_heap (_mem_resize_node_heap e pm)) a)) < 2 ^ 64 ->
  find_unused (node_heap (_mem_resize_node_heap e pm))
    (Z.to_nat (total_nodes (_mem_resize_node_heap e pm))) 0 = None ->
  exists pm' pos gp,
    mem_new_alloc e pm sz = (None, pm')
    /\ pm' <> pm
    /\ num_allocs (pool pm') = wrap32 (num_allocs (pool pm) + 1)
    /\ alloc_size (pool pm') = wrap64 (alloc_size (pool pm) + sz)
    /\ allocated (rd (node_heap pm') a) = true
    /\ size (alloc_record (rd (node_heap pm') a)) = sz
    /\ gap_ix pm !! pos = Some gp /\ gap_node gp = Some a
    /\ num_gaps (pool pm') = Z.of_nat n - 1
    /\ take (n - 1) (gap_ix pm') = delete pos (take n (gap_ix pm)).
Proof.
  intros Hn Hpos Hn32 Hlen Hle Hk Hg Hga Hsel Ha Hgap Hsz Hsz64 Hfull.
  unfold mem_new_alloc.
  destruct (num_gaps (pool pm) =? 0) eqn:E; [apply Z.eqb_eq in E; lia|]. clear E.
  destruct (resize_node_heap_frame e pm) as (Hp & Hix & Hcap).
  set (pm1 := _mem_resize_node_heap e pm) in *.
  rewrite Hsel.
  set (pm2 := with_pool _ (with_pool _ pm1)).
  assert (Hrd : rd (node_heap pm2) a = rd (node_heap pm1) a) by reflexivity.
  rewrite Hrd.
  destruct (remove_live_entries e pm2 sz (Some a) n k g)
    as (pos & gp & pm3 & Hrm & _ & Hgp & Hgpa & _ & Hn3 & Htk & _).
  { subst pm2; simpl; rewrite Hix, Hcap; exact Hlen. }
  { subst pm2; simpl; rewrite Hp; exact Hn. }
  { exact Hn32. }
  { subst pm2; simpl; rewrite Hix; exact Hle. }
  { exact Hk. }
  { subst pm2; simpl; rewrite Hix; exact Hg. }
  { exact Hga. }
  pose proof (remove_frame e pm2 sz (Some a)) as Hf. rewrite Hrm in *. simpl_pm in Hf. simpl_pm.
  destruct (outside_gap_ix_eq _ _ Hf) as (Hh3 & Ht3 & _ & _ & Hs3 & Ha3 & _).
  destruct (wrap64 _ =? 0) eqn:E.
  { apply Z.eqb_eq in E. unfold wrap64 in E. rewrite Z.mod_small in E by lia. lia. }
  clear E.
  rewrite Ht3, Hh3.
  rewrite (find_unused_ext _ (node_heap pm1)); [|intros i; keep_field; reflexivity].
  change (total_nodes pm2) with (total_nodes pm1). rewrite Hfull.
  exists (with_node_heap
            (wr (wr (node_heap pm1) a (set_allocated true)) a (set_size sz)) pm3), pos, gp.
  split; [reflexivity|].
  split. { intros Heq. apply (f_equal (fun p => num_gaps (pool p))) in Heq.
           simpl in Heq. lia. }
  simpl. rewrite Hs3, Ha3. subst pm2. simpl. rewrite Hp.
  split; [reflexivity|]. split; [reflexivity|].
  rewrite !rd_wr, !length_wr.
  rewrite !decide_True by (split; [reflexivity | exact Ha]). simpl.
  split; [reflexivity|]. split; [reflexivity|].
  rewrite <- Hix.
  split; [exact Hgp|]. split; [exact Hgpa|]. split; [exact Hn3 | exact Htk].
Qed.



(** C9, witness: the arena is full, [realloc] adds records that look used,
    and a request of one byte out of a gap of 961 returns [NULL]. *)
Lemma C9_witness :
  exists pm' pos gp,
    mem_new_alloc env_used pool_arena_full 1 = (None, pm')
    /\ pm' <> pool_arena_full
    /\ num_allocs (pool pm') = wrap32 (num_allocs (pool pool_arena_full) + 1)
    /\ alloc_size (pool pm') = wrap64 (alloc_size (pool pool_arena_full) + 1)
    /\ allocated (rd (node_heap pm') 39) = true
    /\ size (alloc_record (rd (node_heap pm') 39)) = 1
    /\ gap_ix pool_arena_full !! pos = Some gp /\ gap_node gp = Some 39%nat
    /\ num_gaps (pool pm') = Z.of_nat 1 - 1
    /\ take (1 - 1) (gap_ix pm') = delete pos (take 1 (gap_ix pool_arena_full)).
Proof.
  apply (C9_null_after_mutation env_used pool_arena_full 1 39 1 0 (mk_gap 961 (Some 39%nat)));
    vm_compute; try reflexivity; try lia; try (split; congruence); try congruence.
Defined.

(** ** Selection of the candidate *)

Lemma mem_new_alloc_returns_selected e pm sz a :
  fst (mem_new_alloc e pm sz) = Some a ->
  select_node e (_mem_resize_node_heap e pm) sz = Some a.
Proof.
  unfold mem_new_alloc.
  destruct (num_gaps (pool pm) =? 0); [discriminate|].
  destruct (select_node _ _ _) as [a'|]; [|discriminate].
  destruct (_ =? 0); [simpl; congruence|].
  destruct (find_unused _ _ _); simpl; congruence.
Qed.

(** The record of the allocation after the split: the writes of the split
    go to the record [u] and to the links. *)
Lemma split_gap_keeps_allocation h a u sz remaining :
  u <> a ->
  allocated (rd (split_gap h a u sz remaining) a) = allocated (rd h a)
  /\ alloc_record (rd (split_gap h a u sz remaining) a) = alloc_record (rd h a).
Proof.
  intros Hua. unfold split_gap. cbv zeta.
  split; keep_field; rewrite !rd_wr_ne by exact Hua; reflexivity.
Qed.

(** What [mem_new_alloc] does once a candidate is selected. *)
Lemma mem_new_alloc_on_candidate e pm sz a :
  num_gaps (pool pm) <> 0 ->
  select_node e (_mem_resize_node_heap e pm) sz = Some a ->
  num_allocs (pool (snd (mem_new_alloc e pm sz))) = wrap32 (num_allocs (pool pm) + 1)
  /\ alloc_size (pool (snd (mem_new_alloc e pm sz))) = wrap64 (alloc_size (pool pm) + sz)
  /\ (fst (mem_new_alloc e pm sz) = Some a
      \/ (fst (mem_new_alloc e pm sz) = None
          /\ wrap64 (size (alloc_record (rd (node_heap (_mem_resize_node_heap e pm)) a)) - sz)
             <> 0
          /\ forall i, (i < Z.to_nat (total_nodes (_mem_resize_node_heap e pm)))%nat ->
               used (rd (node_heap (_mem_resize_node_heap e pm)) i) = true))
  /\ (used (rd (node_heap (_mem_resize_node_heap e pm)) a) = true ->
      allocated (rd (node_heap (snd (mem_new_alloc e pm sz))) a) = true
      /\ alloc_record (rd (node_heap (snd (mem_new_alloc e pm sz))) a)
         = mk_alloc sz (mem (alloc_record (rd (node_heap (_mem_resize_node_heap e pm)) a)))).
Proof.
  intros Hgaps Hsel. unfold mem_new_alloc.
  destruct (num_gaps (pool pm) =? 0) eqn:E; [apply Z.eqb_eq in E; contradiction|]. clear E.
  destruct (resize_node_heap_frame e pm) as (Hp & _ & _).
  set (pm1 := _mem_resize_node_heap e pm) in *.
  rewrite Hsel.
  set (pm2 := with_pool _ (with_pool _ pm1)).
  change (rd (node_heap pm2) a) with (rd (node_heap pm1) a).
  pose proof (remove_frame e pm2 sz (Some a)) as Hf.
  destruct (outside_gap_ix_eq _ _ Hf) as (Hh & Htn & _ & _ & Has & Hna & _).
  set (pm3 := snd (_mem_remove_from_gap_ix e pm2 sz (Some a))) in *. clearbody pm3.
  assert (Hna2 : num_allocs (pool pm2) = wrap32 (num_allocs (pool pm) + 1))
    by (subst pm2; simpl_pm; rewrite Hp; reflexivity).
  assert (Has2 : alloc_size (pool pm2) = wrap64 (alloc_size (pool pm) + sz))
    by (subst pm2; simpl_pm; rewrite Hp; reflexivity).
  assert (Hh2 : node_heap pm2 = node_heap pm1) by reflexivity.
  assert (Htn2 : total_nodes pm2 = total_nodes pm1) by reflexivity.
  rewrite Hna2 in Hna. rewrite Has2 in Has. rewrite Hh2 in Hh. rewrite Htn2 in Htn.
  clearbody pm2.
  simpl_pm. rewrite Hh, Htn.
  set (hA := wr (wr (node_heap pm1) a (set_allocated true)) a (set_size sz)).
  assert (HA : used (rd (node_heap pm1) a) = true ->
               allocated (rd hA a) = true
               /\ alloc_record (rd hA a) = mk_alloc sz (mem (alloc_record (rd (node_heap pm1) a)))).
  { intros Hu. apply used_in_arena in Hu. subst hA.
    rewrite !rd_wr_same by (rewrite ?length_wr; exact Hu).
    destruct (rd (node_heap pm1) a) as [[s m] ? ? ? ?]. split; reflexivity. }
  assert (HAu : forall i, used (rd hA i) = used (rd (node_heap pm1) i)).
  { intros i. subst hA. keep_field. reflexivity. }
  destruct (wrap64 _ =? 0) eqn:E.
  { simpl_pm. split; [exact Hna|]. split; [exact Has|]. split; [left; reflexivity|]. exact HA. }
  apply Z.eqb_neq in E.
  destruct (find_unused hA _ 0) as [u|] eqn:Eu.
  - cbn [fst snd].
    match goal with |- context [_mem_add_to_gap_ix ?e ?p ?s ?n] =>
      destruct (outside_gap_ix_eq _ _ (add_frame e p s n)) as (-> & _ & _ & _ & -> & -> & _)
    end.
    simpl_pm. split; [exact Hna|]. split; [exact Has|]. split; [left; reflexivity|].
    intros Hu.
    apply find_unused_sound in Eu as [Eu _].
    assert (Hua : u <> a).
    { intros ->. rewrite HAu in Eu. congruence. }
    destruct (split_gap_keeps_allocation hA a u sz
                (wrap64 (size (alloc_record (rd (node_heap pm1) a)) - sz)) Hua) as [-> ->].
    exact (HA Hu).
  - simpl_pm. split; [exact Hna|]. split; [exact Has|].
    split; [|exact HA].
    right. split; [reflexivity|]. split; [exact E|].
    intros i Hi. rewrite <- HAu. apply (find_unused_none _ _ _ Eu). lia.
Qed.

Lemma first_fit_scan_first h sz n i a0 k :
  (i <= k < i + n)%nat -> fits sz (rd h k) = true ->
  (forall j, (i <= j < k)%nat -> fits sz (rd h j) = false) ->
  first_fit_scan h sz n i a0 = Some k.
Proof.
  revert i a0. induction n as [|n IH]; intros i a0 Hk Hfit Hbefore; simpl; [lia|].
  destruct (decide (k = i)) as [->|Hne].
  - unfold fits in Hfit. rewrite Hfit. reflexivity.
  - pose proof (Hbefore i ltac:(lia)) as Hi. unfold fits in Hi. rewrite Hi.
    apply IH; [lia | exact Hfit | intros j Hj; apply Hbefore; lia].
Qed.




Lemma best_fit_scan_first e ix sz n j k g :
  (j <= k < j + n)%nat -> ix !! k = Some g -> sz <= gap_size g ->
  (forall i gi, (j <= i < k)%nat -> ix !! i = Some gi -> gap_size gi < sz) ->
  best_fit_scan e ix sz n j = gap_node g.
Proof.
  revert j. induction n as [|n IH]; intros j Hk Hg Hfit Hbefore; simpl; [lia|].
  destruct (decide (k = j)) as [->|Hne].
  - unfold ix_rd. rewrite Hg. simpl.
    destruct (sz <=? gap_size g) eqn:E; [reflexivity | apply Z.leb_gt in E; lia].
  - assert (Hj : (j < length ix)%nat) by (apply lookup_lt_Some in Hg; lia).
    destruct (lookup_lt_is_Some_2 _ _ Hj) as [gj Hgj].
    unfold ix_rd at 1. rewrite Hgj. simpl.
    pose proof (Hbefore j gj ltac:(lia) Hgj).
    destruct (sz <=? gap_size gj) eqn:E; [apply Z.leb_le in E; lia|].
    apply IH; [lia | exact Hg | exact Hfit | intros i gi Hi; apply Hbefore; lia].
Qed.

(** Among the entries that fit there is a first one. *)
Lemma first_fitting_entry (ix : list gap_t) sz k g :
  ix !! k = Some g -> sz <= gap_size g ->
  exists j gj, (j <= k)%nat /\ ix !! j = Some gj /\ sz <= gap_size gj
    /\ forall i gi, (i < j)%nat -> ix !! i = Some gi -> gap_size gi < sz.
Proof.
  revert k. induction ix as [|x ix IH]; intros k Hg Hfit; [destruct k; discriminate|].
  destruct (Z_lt_le_dec (gap_size x) sz) as [Hx|Hx].
  - destruct k as [|k]; [simpl in Hg; injection Hg as ->; lia|].
    destruct (IH k Hg Hfit) as (j & gj & Hj & Hgj & Hfj & Hmin).
    exists (S j), gj. split; [lia|]. split; [exact Hgj|]. split; [exact Hfj|].
    intros [|i] gi Hi Hgi; [simpl in Hgi; injection Hgi as <-; exact Hx|].
    apply (Hmin i); [lia | exact Hgi].
  - exists 0%nat, x. split; [lia|]. split; [reflexivity|]. split; [exact Hx|].
    intros i gi Hi. lia.
Qed.

Lemma gap_leb_le h g1 g2 : gap_leb h g1 g2 = true <-> gap_le h g1 g2.
Proof.
  unfold gap_leb, gap_le.
  rewrite orb_true_iff, andb_true_iff, Z.ltb_lt, Z.eqb_eq, Z.leb_le. reflexivity.
Qed.

Lemma gap_le_trans h g1 g2 g3 : gap_le h g1 g2 -> gap_le h g2 g3 -> gap_le h g1 g3.
Proof. unfold gap_le. lia. Qed.

Lemma sorted_gaps_tail h g t : sorted_gaps h (g :: t) = true -> sorted_gaps h t = true.
Proof.
  simpl. destruct t as [|g' t]; [reflexivity|].
  intros H. apply andb_prop in H. tauto.
Qed.

Lemma sorted_gaps_head h g t j gj :
  sorted_gaps h (g :: t) = true -> t !! j = Some gj -> gap_le h g gj.
Proof.
  revert g j. induction t as [|g' t IH]; intros g j Hs Hj; [destruct j; discriminate|].
  simpl in Hs. apply andb_prop in Hs as [Hle Hs]. apply gap_leb_le in Hle.
  destruct j as [|j]; [simpl in Hj; injection Hj as <-; exact Hle|].
  apply (gap_le_trans _ _ g'); [exact Hle|]. apply (IH g' j); assumption.
Qed.

Lemma sorted_gaps_all h l i j gi gj :
  sorted_gaps h l = true -> (i < j)%nat ->
  l !! i = Some gi -> l !! j = Some gj -> gap_le h gi gj.
Proof.
  revert i j. induction l as [|g t IH]; intros i j Hs Hij Hi Hj; [destruct i; discriminate|].
  destruct j as [|j]; [lia|]. destruct i as [|i].
  - simpl in Hi. injection Hi as <-. apply (sorted_gaps_head h g t j); assumption.
  - apply (IH i j); [eapply sorted_gaps_tail; eassumption | lia | exact Hi | exact Hj].
Qed.

(** The check on adjacent entries gives the sort invariant. *)
Lemma sorted_gaps_sound h ix n :
  sorted_gaps h (take n ix) = true -> gap_sorted h ix n.
Proof.
  intros Hs i j gi gj Hij Hj Hi Hgj.
  apply (sorted_gaps_all h (take n ix) i j); [exact Hs | exact Hij | |].
  - rewrite lookup_take_lt by lia. exact Hi.
  - rewrite lookup_take_lt by lia. exact Hgj.
Qed.

(** C2: under BEST_FIT, with the entries in use sorted and one of them
    large enough, the candidate is the node of the first entry that is large
    enough, and that entry is the least, by size and then by base address,
    of the entries in use that are large enough.  [mem_new_alloc] acts on
    the record of that entry: it counts the allocation, marks the record
    allocated with the requested size at the base address it had, and
    returns its handle, unless a residual gap is due and every record of the
    arena is in use. *)
Theorem C2_best_fit_smallest_gap (e : env) (pm : pool_mgr_t) (sz : Z) (n k : nat) (g : gap_t) :
  policy (pool pm) = BEST_FIT ->
  num_gaps (pool pm) = Z.of_nat n ->
  (n <= Z.to_nat (gap_ix_capacity pm))%nat ->
  gap_sorted (node_heap pm) (gap_ix pm) n ->
  (k < n)%nat -> gap_ix pm !! k = Some g -> sz <= gap_size g ->
  exists j gj,
    (j <= k)%nat /\ gap_ix pm !! j = Some gj /\ sz <= gap_size gj
    /\ (forall i gi, (i < j)%nat -> gap_ix pm !! i = Some gi -> gap_size gi < sz)
    /\ select_node e (_mem_resize_node_heap e pm) sz = gap_node gj
    /\ (forall a, fst (mem_new_alloc e pm sz) = Some a -> gap_node gj = Some a)
    /\ (forall k' g', (k' < n)%nat -> gap_ix pm !! k' = Some g' -> sz <= gap_size g' ->
          gap_le (node_heap pm) gj g')
    /\ (forall a, gap_node gj = Some a ->
          num_allocs (pool (snd (mem_new_alloc e pm sz))) = wrap32 (num_allocs (pool pm) + 1)
          /\ alloc_size (pool (snd (mem_new_alloc e pm sz)))
             = wrap64 (alloc_size (pool pm) + sz)
          /\ (fst (mem_new_alloc e pm sz) = Some a
              \/ (fst (mem_new_alloc e pm sz) = None
                  /\ wrap64 (size (alloc_record
                                     (rd (node_heap (_mem_resize_node_heap e pm)) a)) - sz)
                     <> 0
                  /\ forall i, (i < Z.to_nat (total_nodes (_mem_resize_node_heap e pm)))%nat ->
                       used (rd (node_heap (_mem_resize_node_heap e pm)) i) = true))
          /\ (used (rd (node_heap (_mem_resize_node_heap e pm)) a) = true ->
              allocated (rd (node_heap (snd (mem_new_alloc e pm sz))) a) = true
              /\ alloc_record (rd (node_heap (snd (mem_new_alloc e pm sz))) a)
                 = mk_alloc sz
                     (mem (alloc_record (rd (node_heap (_mem_resize_node_heap e pm)) a))))).
Proof.
  intros Hpol Hn Hcap Hsorted Hk Hg Hfit.
  destruct (first_fitting_entry (gap_ix pm) sz k g Hg Hfit) as (j & gj & Hj & Hgj & Hfj & Hmin).
  exists j, gj.
  assert (Hsel : select_node e (_mem_resize_node_heap e pm) sz = gap_node gj).
  { unfold select_node.
    destruct (resize_node_heap_frame e pm) as (-> & -> & ->). rewrite Hpol.
    apply (best_fit_scan_first e (gap_ix pm) sz _ 0 j gj); [lia | exact Hgj | exact Hfj |].
    intros i gi Hi. apply Hmin. lia. }
  split; [exact Hj|]. split; [exact Hgj|]. split; [exact Hfj|].
  split; [exact Hmin|]. split; [exact Hsel|].
  split; [|split].
  - intros a Ha. apply mem_new_alloc_returns_selected in Ha. congruence.
  - intros k' g' Hk' Hg' Hfit'.
    destruct (Nat.lt_trichotomy j k') as [Hlt|[->|Hgt]].
    + apply (Hsorted j k' gj g'); assumption.
    + assert (g' = gj) as -> by congruence. right. split; [reflexivity | lia].
    + pose proof (Hmin k' g' Hgt Hg'). lia.
  - intros a Ha. apply mem_new_alloc_on_candidate; [lia | congruence].
Qed.

(** C2, witness: gaps of 30 and 40 bytes and a request of 35 bytes. *)
Lemma C2_witness :
  exists j gj,
    (j <= 1)%nat /\ gap_ix pool_two_gaps !! j = Some gj /\ 35 <= gap_size gj
    /\ (forall i gi, (i < j)%nat -> gap_ix pool_two_gaps !! i = Some gi -> gap_size gi < 35)
    /\ select_node env_zero (_mem_resize_node_heap env_zero pool_two_gaps) 35 = gap_node gj
    /\ (forall a, fst (mem_new_alloc env_zero pool_two_gaps 35) = Some a -> gap_node gj = Some a)
    /\ (forall k' g', (k' < 2)%nat -> gap_ix pool_two_gaps !! k' = Some g' -> 35 <= gap_size g' ->
          gap_le (node_heap pool_two_gaps) gj g')
    /\ (forall a, gap_node gj = Some a ->
          num_allocs (pool (snd (mem_new_alloc env_zero pool_two_gaps 35)))
          = wrap32 (num_allocs (pool pool_two_gaps) + 1)
          /\ alloc_size (pool (snd (mem_new_alloc env_zero pool_two_gaps 35)))
             = wrap64 (alloc_size (pool pool_two_gaps) + 35)
          /\ (fst (mem_new_alloc env_zero pool_two_gaps 35) = Some a
              \/ (fst (mem_new_alloc env_zero pool_two_gaps 35) = None
                  /\ wrap64 (size (alloc_record
                                     (rd (node_heap
                                            (_mem_resize_node_heap env_zero pool_two_gaps)) a))
                             - 35) <> 0
                  /\ forall i,
                       (i < Z.to_nat (total_nodes
                                        (_mem_resize_node_heap env_zero pool_two_gaps)))%nat ->
                       used (rd (node_heap (_mem_resize_node_heap env_zero pool_two_gaps)) i)
                       = true))
          /\ (used (rd (node_heap (_mem_resize_node_heap env_zero pool_two_gaps)) a) = true ->
              allocated (rd (node_heap (snd (mem_new_alloc env_zero pool_two_gaps 35))) a)
              = true
              /\ alloc_record (rd (node_heap (snd (mem_new_alloc env_zero pool_two_gaps 35))) a)
                 = mk_alloc 35
                     (mem (alloc_record
                             (rd (node_heap (_mem_resize_node_heap env_zero pool_two_gaps))
                                 a))))).
Proof.
  apply (C2_best_fit_smallest_gap env_zero pool_two_gaps 35 2 1 (mk_gap 40 (Some 2%nat))).
  - reflexivity.
  - reflexivity.
  - vm_compute. lia.
  - apply sorted_gaps_sound. reflexivity.
  - lia.
  - reflexivity.
  - simpl. lia.
Defined.

Lemma sort_step_length e h ix i : length (sort_step e h ix i) = length ix.
Proof.
  unfold sort_step.
  repeat match goal with |- context [if ?b then _ else _] => destruct b end;
    rewrite ?length_insert; reflexivity.
Qed.

Lemma sort_loop_length e h i ix : length (sort_loop e h i ix) = length ix.
Proof.
  revert ix. induction i as [|i IH]; intros ix; simpl; [reflexivity|].
  rewrite IH. apply sort_step_length.
Qed.

(** [_mem_add_to_gap_ix], with its status computed. *)
Lemma add_unfold e pm sz node :
  _mem_add_to_gap_ix e pm sz node =
  (ALLOC_OK,
   let pm1 := _mem_resize_gap_ix e pm in
   let pm2 := with_gap_ix
                (<[Z.to_nat (num_gaps (pool pm1)) := mk_gap sz node]> (gap_ix pm1)) pm1 in
   let pm3 := with_pool (set_num_gaps (wrap32 (num_gaps (pool pm2) + 1))) pm2 in
   with_gap_ix
     (sort_loop e (node_heap pm3) (Z.to_nat (num_gaps (pool pm3) - 1)) (gap_ix pm3)) pm3).
Proof. reflexivity. Qed.

(** ** The bubbling pass keeps the gap index sorted *)

Lemma sort_step_bubbling e h ix m i :
  (0 < i)%nat -> (i < m)%nat -> (m <= length ix)%nat ->
  bubbling h ix m i -> bubbling h (sort_step e h ix i) m (i - 1).
Proof.
  intros Hi Him Hm [Hs Ha].
  destruct (lookup_lt_is_Some_2 ix i) as [cur Hcur]; [lia|].
  destruct (lookup_lt_is_Some_2 ix (i - 1)) as [prv Hprv]; [lia|].
  unfold sort_step, ix_rd. rewrite Hcur, Hprv. cbn [from_option id].
  fold (gap_base h cur). fold (gap_base h prv).
  assert (Hswap : gap_le h cur prv -> gap_le h cur prv ->
            bubbling h (<[(i - 1)%nat := cur]> (<[i := prv]> ix)) m (i - 1)).
  { intros Hle _. split.
    - intros p q gp gq Hpq Hq Hp1 Hq1.
      rewrite !list_lookup_insert, !length_insert.
      repeat case_decide; try lia; intros Hgp Hgq.
      + (* p = i *) injection Hgp as <-. apply (Hs (i - 1)%nat q); try lia; assumption.
      + (* q = i *) injection Hgq as <-. apply (Hs p (i - 1)%nat); try lia; assumption.
      + apply (Hs p q); try lia; assumption.
    - intros q gi gq Hiq Hq.
      rewrite !list_lookup_insert, !length_insert.
      repeat case_decide; try lia; intros Hgi Hgq.
      + (* q = i *) injection Hgi as <-. injection Hgq as <-. exact Hle.
      + injection Hgi as <-. apply (Ha q); try lia; assumption. }
  assert (Hkeep : gap_le h prv cur -> bubbling h ix m (i - 1)).
  { intros Hle.
    assert (Hall : forall p q gp gq, (p < q)%nat -> (q < m)%nat ->
              ix !! p = Some gp -> ix !! q = Some gq -> gap_le h gp gq).
    { intros p q gp gq Hpq Hq Hgp Hgq.
      destruct (decide (p = i)) as [->|Hpi].
      - apply (Ha q); try lia; assumption.
      - destruct (decide (q = i)) as [->|Hqi]; [|apply (Hs p q); assumption].
        assert (gq = cur) as -> by congruence.
        destruct (decide (p = (i - 1)%nat)) as [->|Hpi1].
        + assert (gp = prv) as -> by congruence. exact Hle.
        + apply (gap_le_trans h gp prv cur); [|exact Hle].
          apply (Hs p (i - 1)%nat); try lia; assumption. }
    split.
    - intros p q gp gq Hpq Hq _ _. apply Hall; assumption.
    - intros q gi gq Hiq Hq. apply Hall; [lia | assumption]. }
  unfold gap_le in Hswap, Hkeep.
  destruct (gap_size cur <? gap_size prv) eqn:E1.
  { apply Z.ltb_lt in E1. apply Hswap; left; exact E1. }
  apply Z.ltb_ge in E1.
  destruct (gap_size cur =? gap_size prv) eqn:E2.
  - apply Z.eqb_eq in E2.
    destruct (gap_base h cur <? gap_base h prv) eqn:E3.
    + apply Z.ltb_lt in E3. apply Hswap; right; lia.
    + apply Z.ltb_ge in E3. apply Hkeep. right. lia.
  - apply Z.eqb_neq in E2. apply Hkeep. left. lia.
Qed.

Lemma sort_loop_bubbling e h i ix m :
  (i < m)%nat -> (m <= length ix)%nat ->
  bubbling h ix m i -> bubbling h (sort_loop e h i ix) m 0.
Proof.
  revert ix. induction i as [|i IH]; intros ix Him Hm Hb; simpl; [exact Hb|].
  apply IH; [lia | rewrite sort_step_length; exact Hm |].
  replace i with (S i - 1)%nat at 2 by lia.
  apply sort_step_bubbling; [lia | exact Him | exact Hm | exact Hb].
Qed.

(** [_mem_add_to_gap_ix] below the capacity keeps the entries in use
    sorted. *)
Lemma add_keeps_sorted e pm sz node (n : nat) :
  num_gaps (pool pm) = Z.of_nat n ->
  length (gap_ix pm) = Z.to_nat (gap_ix_capacity pm) ->
  (n < length (gap_ix pm))%nat -> gap_ix_capacity pm < 2 ^ 32 ->
  gap_sorted (node_heap pm) (gap_ix pm) n ->
  gap_sorted (node_heap pm) (gap_ix (snd (_mem_add_to_gap_ix e pm sz node))) (S n).
Proof.
  intros Hn Hlen Hlt Hcap Hsorted.
  rewrite add_unfold. cbn [snd]. cbv zeta.
  assert (Hb : 0 <= num_gaps (pool pm) < gap_ix_capacity pm) by (rewrite Hn; lia).
  rewrite (resize_gap_ix_below_capacity e pm Hb).
  simpl_pm. unfold wrap32. rewrite Hn. rewrite Z.mod_small by lia.
  replace (Z.to_nat (Z.of_nat n + 1 - 1)) with n by lia. rewrite Nat2Z.id.
  destruct (sort_loop_bubbling e (node_heap pm) n
              (<[n := mk_gap sz node]> (gap_ix pm)) (S n)) as [Hs Ha].
  - lia.
  - rewrite length_insert. lia.
  - split.
    + intros p q gp gq Hpq Hq Hp Hqn.
      rewrite !list_lookup_insert_ne by lia. apply Hsorted; lia.
    + intros q gi gq Hnq Hq. lia.
  - intros i j gi gj Hij Hj Hgi Hgj.
    destruct (decide (i = 0%nat)) as [->|Hi0].
    + apply (Ha j); try lia; assumption.
    + apply (Hs i j); try lia; assumption.
Qed.

(** [_mem_remove_from_gap_ix] keeps the entries in use sorted. *)
Lemma remove_keeps_sorted e pm sz node (n k : nat) g :
  length (gap_ix pm) = Z.to_nat (gap_ix_capacity pm) ->
  num_gaps (pool pm) = Z.of_nat n -> Z.of_nat n < 2 ^ 32 ->
  (n <= length (gap_ix pm))%nat ->
  (k < n)%nat -> gap_ix pm !! k = Some g -> gap_node g = node ->
  gap_sorted (node_heap pm) (gap_ix pm) n ->
  gap_sorted (node_heap pm) (gap_ix (snd (_mem_remove_from_gap_ix e pm sz node))) (n - 1).
Proof.
  intros Hlen Hn Hn32 Hle Hk Hg Hnode Hsorted.
  destruct (remove_live_entries e pm sz node n k g)
    as (pos & gp & pm' & Hrm & Hpos & _ & _ & _ & _ & Htake & _); try assumption.
  rewrite Hrm. cbn [snd].
  intros i j gi gj Hij Hj Hgi Hgj.
  assert (Hi' : take (n - 1) (gap_ix pm') !! i = Some gi)
    by (rewrite lookup_take_lt by lia; exact Hgi).
  assert (Hj' : take (n - 1) (gap_ix pm') !! j = Some gj)
    by (rewrite lookup_take_lt by lia; exact Hgj).
  rewrite Htake in Hi', Hj'.
  rewrite list_lookup_delete in Hi', Hj'.
  repeat case_decide;
    rewrite lookup_take_lt in Hi' by lia; rewrite lookup_take_lt in Hj' by lia;
    (eapply Hsorted; [| |exact Hi'|exact Hj']; lia).
Qed.

(** The check at rest gives the sort invariant on the entries in use. *)
Lemma at_rest_sorted pm :
  at_rest pm = true ->
  gap_sorted (node_heap pm) (gap_ix pm) (Z.to_nat (num_gaps (pool pm))).
Proof.
  intros Hrest. unfold at_rest in Hrest. cbv zeta in Hrest.
  repeat rewrite andb_true_iff in Hrest.
  destruct Hrest as [[[[[[[[_ H] _] _] _] _] _] _] _].
  apply sorted_gaps_sound, H.
Qed.

(** ** The head of the segment list *)


Lemma head_inv_deref h q : head_inv h -> next (deref h q) <> Some 0%nat.
Proof. intros (_ & _ & H). destruct q; [apply H | discriminate]. Qed.

Lemma head_inv_other h i f :
  head_inv h -> safe f -> i <> 0%nat -> head_inv (wr h i f).
Proof.
  intros (Hu & Hp & Hn) Hf Hi. unfold head_inv. rewrite !rd_wr.
  rewrite decide_False by tauto.
  split; [exact Hu|]. split; [exact Hp|].
  intros j. rewrite rd_wr. case_decide; [apply Hf|]; apply Hn.
Qed.

Lemma head_inv_keep h i f : head_inv h -> keeps_links f -> head_inv (wr h i f).
Proof.
  intros (Hu & Hp & Hn) Hf. unfold head_inv. rewrite !rd_wr.
  split; [|split].
  - case_decide; [|exact Hu]. destruct (Hf (rd h 0)) as (_ & _ & ->). exact Hu.
  - case_decide; [|exact Hp]. destruct (Hf (rd h 0)) as (_ & -> & _). exact Hp.
  - intros j. rewrite rd_wr. case_decide; [|apply Hn].
    destruct (Hf (rd h j)) as (-> & _). apply Hn.
Qed.

Lemma head_inv_set_next h i p :
  head_inv h -> p <> Some 0%nat -> head_inv (wr h i (set_next p)).
Proof.
  intros (Hu & Hp & Hn) Hne. unfold head_inv. rewrite !rd_wr.
  split; [|split].
  - case_decide; [simpl|]; exact Hu.
  - case_decide; [simpl|]; exact Hp.
  - intros j. rewrite rd_wr. case_decide; [simpl; exact Hne | apply Hn].
Qed.

Lemma head_inv_set_next_deref h i q :
  head_inv h -> head_inv (wr h i (set_next (next (deref h q)))).
Proof. intros H. apply head_inv_set_next; [exact H | apply head_inv_deref, H]. Qed.

Lemma head_inv_set_next_rd h i j :
  head_inv h -> head_inv (wr h i (set_next (next (rd h j)))).
Proof. apply (head_inv_set_next_deref h i (Some j)). Qed.

Lemma head_inv_set_prev_none h i : head_inv h -> head_inv (wr h i (set_prev None)).
Proof.
  intros (Hu & Hp & Hn). unfold head_inv. rewrite !rd_wr.
  split; [|split].
  - case_decide; [simpl|]; exact Hu.
  - case_decide; [reflexivity | exact Hp].
  - intros j. rewrite rd_wr. case_decide; [simpl|]; apply Hn.
Qed.

Lemma head_inv_wr_p_next h q f :
  head_inv h -> safe f -> head_inv (wr_p h (next (deref h q)) f).
Proof.
  intros H Hf. pose proof (head_inv_deref h q H) as Hne.
  destruct (next (deref h q)) as [i|]; [|exact H].
  apply head_inv_other; [exact H | exact Hf | congruence].
Qed.

Lemma head_inv_wr_p_next_rd h j f :
  head_inv h -> safe f -> head_inv (wr_p h (next (rd h j)) f).
Proof. apply (head_inv_wr_p_next h (Some j)). Qed.

Lemma safe_set_size z : safe (set_size z). Proof. intros []; simpl; auto. Qed.
Lemma safe_set_mem z : safe (set_mem z). Proof. intros []; simpl; auto. Qed.
Lemma safe_set_used b : safe (set_used b). Proof. intros []; simpl; auto. Qed.
Lemma safe_set_allocated b : safe (set_allocated b). Proof. intros []; simpl; auto. Qed.
Lemma safe_set_prev p : safe (set_prev p). Proof. intros []; simpl; auto. Qed.
Lemma safe_set_next p : p <> Some 0%nat -> safe (set_next p).
Proof. intros Hp []; simpl; auto. Qed.

Lemma keeps_set_size z : keeps_links (set_size z). Proof. intros []; simpl; auto. Qed.
Lemma keeps_set_mem z : keeps_links (set_mem z). Proof. intros []; simpl; auto. Qed.
Lemma keeps_set_allocated b : keeps_links (set_allocated b). Proof. intros []; simpl; auto. Qed.

Create HintDb head discriminated.
#[local] Hint Resolve safe_set_size safe_set_mem safe_set_used safe_set_allocated
  safe_set_prev safe_set_next keeps_set_size keeps_set_mem keeps_set_allocated : head.
#[local] Hint Resolve head_inv_keep head_inv_set_next_rd head_inv_set_next_deref
  head_inv_set_prev_none head_inv_wr_p_next head_inv_wr_p_next_rd : head.

Lemma head_inv_realloc fresh h n :
  head_inv h -> (0 < n)%nat -> (forall i, next (fresh i) <> Some 0%nat) ->
  head_inv (realloc fresh h n).
Proof.
  intros (Hu & Hp & Hn) Hpos Hfresh.
  assert (H0 : (0 < length h)%nat).
  { destruct h; [discriminate Hu | simpl; lia]. }
  assert (Hrd0 : rd (realloc fresh h n) 0 = rd h 0).
  { unfold rd, realloc. rewrite lookup_app_l by (rewrite length_take; lia).
    rewrite lookup_take_lt by lia. reflexivity. }
  unfold head_inv. rewrite Hrd0. split; [exact Hu|]. split; [exact Hp|].
  intros i. unfold rd, realloc.
  destruct (decide (i < length (take n h))%nat) as [Hi|Hi].
  - rewrite lookup_app_l by exact Hi. rewrite length_take in Hi.
    rewrite lookup_take_lt by lia. apply Hn.
  - rewrite lookup_app_r by lia.
    destruct (map fresh _ !! _) as [x|] eqn:E; [|discriminate].
    apply list_elem_of_lookup_2, list_elem_of_In, in_map_iff in E as (k & <- & _).
    apply Hfresh.
Qed.

Lemma head_inv_open base sz pol : head_inv (node_heap (pool_mgr_open base sz pol)).
Proof. split; [reflexivity|]. split; [reflexivity|].
  intros i. simpl. unfold rd.
  destruct (decide (i < 40)%nat).
  - do 40 (destruct i as [|i]; [discriminate|]). lia.
  - rewrite lookup_ge_None_2; [discriminate|]. simpl. lia.
Qed.

Lemma head_inv_absorb_next h d : head_inv h -> head_inv (absorb_next h d).
Proof.
  intros H. unfold absorb_next. cbv zeta.
  set (h1 := wr h d _).
  assert (H1 : head_inv h1) by (subst h1; auto with head).
  set (h2 := wr_p h1 (next (rd h1 d)) (set_used false)).
  assert (H2 : head_inv h2) by (subst h2; auto with head).
  set (h3 := wr_p h2 (next (rd h2 d)) (set_size 0)).
  assert (H3 : head_inv h3) by (subst h3; auto with head).
  set (h4 := wr_p h3 (next (rd h3 d)) (set_mem 0)).
  assert (H4 : head_inv h4) by (subst h4; auto with head).
  clearbody h4.
  destruct (next (deref h4 (next (rd h4 d)))) as [nn|] eqn:E.
  - assert (Hnn : nn <> 0%nat).
    { pose proof (head_inv_deref h4 (next (rd h4 d)) H4). congruence. }
    set (h5 := wr h4 nn (set_prev (Some d))).
    assert (H5 : head_inv h5) by (subst h5; apply head_inv_other; auto with head).
    auto with head.
  - set (h5 := wr_p h4 (next (rd h4 d)) (set_prev None)).
    assert (H5 : head_inv h5) by (subst h5; auto with head).
    apply head_inv_set_next; [exact H5 | discriminate].
Qed.

Lemma head_inv_merge_next e pm d :
  head_inv (node_heap pm) -> head_inv (node_heap (merge_next e pm d)).
Proof.
  intros H. unfold merge_next. simpl_pm.
  match goal with |- context [_mem_remove_from_gap_ix ?e ?p ?s ?n] =>
    destruct (outside_gap_ix_eq _ _ (remove_frame e p s n)) as (-> & _)
  end.
  apply head_inv_absorb_next, H.
Qed.

Lemma head_inv_merge_prev pm d p :
  head_inv (node_heap pm) -> d <> 0%nat -> head_inv (node_heap (merge_prev pm d p)).
Proof.
  intros H Hd. unfold merge_prev. simpl_pm.
  set (h1 := wr (node_heap pm) p _).
  assert (H1 : head_inv h1) by (subst h1; auto with head).
  set (h2 := wr h1 d (set_used false)).
  assert (H2 : head_inv h2) by (subst h2; apply head_inv_other; auto with head).
  set (h3 := wr h2 d (set_size 0)).
  assert (H3 : head_inv h3) by (subst h3; auto with head).
  set (h4 := wr h3 d (set_mem 0)).
  assert (H4 : head_inv h4) by (subst h4; auto with head).
  clearbody h4.
  set (h5 := match next (rd h4 d) with
             | Some _ => wr_p (wr h4 p (set_next (next (rd h4 d))))
                           (next (rd (wr h4 p (set_next (next (rd h4 d)))) d))
                           (set_prev (Some p))
             | None => wr h4 p (set_next None)
             end).
  assert (H5 : head_inv h5).
  { subst h5. destruct (next (rd h4 d)) eqn:E.
    - rewrite <- E. auto with head.
    - apply head_inv_set_next; [exact H4 | discriminate]. }
  clearbody h5.
  apply head_inv_set_prev_none. apply head_inv_set_next; [exact H5 | discriminate].
Qed.

Lemma head_inv_del e pm d :
  head_inv (node_heap pm) -> head_inv (node_heap (snd (mem_del_alloc e pm d))).
Proof.
  intros H. unfold mem_del_alloc.
  set (pm1 := with_pool _ (with_pool _ (with_node_heap _ pm))).
  assert (H1 : head_inv (node_heap pm1)) by (subst pm1; simpl; auto with head).
  clearbody pm1.
  set (pm2 := match next (rd (node_heap pm1) d) with
              | Some n => if allocated (rd (node_heap pm1) n) then pm1 else merge_next e pm1 d
              | None => pm1 end).
  assert (H2 : head_inv (node_heap pm2)).
  { subst pm2. destruct (next (rd (node_heap pm1) d)) as [n|]; [|exact H1].
    destruct (allocated _); [exact H1 | apply head_inv_merge_next, H1]. }
  clearbody pm2.
  assert (Hadd : forall pm' sz node, head_inv (node_heap pm') ->
            head_inv (node_heap (snd (_mem_add_to_gap_ix e pm' sz node)))).
  { intros pm' sz node H'.
    destruct (outside_gap_ix_eq _ _ (add_frame e pm' sz node)) as (-> & _). exact H'. }
  destruct (prev (rd (node_heap pm2) d)) as [p|] eqn:Ep; [|apply Hadd, H2].
  destruct (allocated (rd (node_heap pm2) p)); [apply Hadd, H2|].
  destruct (_mem_remove_from_gap_ix e pm2 _ (Some p)) as [st pm3] eqn:Hrm.
  pose proof (remove_frame e pm2 (size (alloc_record (rd (node_heap pm2) p))) (Some p)) as Hf.
  rewrite Hrm in Hf. simpl in Hf.
  destruct (outside_gap_ix_eq _ _ Hf) as (Hh & _).
  assert (Hd : d <> 0%nat).
  { intros ->. destruct H2 as (_ & Hp & _). congruence. }
  destruct (decide (st = ALLOC_FAIL)); [simpl; rewrite Hh; exact H2|].
  apply Hadd, head_inv_merge_prev; [rewrite Hh; exact H2 | exact Hd].
Qed.

Lemma head_inv_resize e pm :
  head_inv (node_heap pm) -> env_ok e -> 0 < total_nodes pm < 2 ^ 31 ->
  head_inv (node_heap (_mem_resize_node_heap e pm))
  /\ 0 < total_nodes (_mem_resize_node_heap e pm).
Proof.
  intros H He Ht. unfold _mem_resize_node_heap.
  destruct (exceeds_fill _ _ _); [|split; [exact H | lia]].
  simpl. unfold MEM_NODE_HEAP_EXPAND_FACTOR, wrap32.
  rewrite Z.mod_small by lia.
  split; [|lia]. apply head_inv_realloc; [exact H | lia | exact He].
Qed.

Lemma head_inv_split_gap h a u sz remaining :
  head_inv h -> u <> 0%nat -> head_inv (split_gap h a u sz remaining).
Proof.
  intros H0 Hu. unfold split_gap. cbv zeta.
  set (h1 := wr h u (set_size _)).
  assert (G1 : head_inv h1) by (subst h1; auto with head).
  set (h2 := wr h1 u (set_mem _)).
  assert (G2 : head_inv h2) by (subst h2; auto with head).
  set (h3 := wr h2 u (set_allocated false)).
  assert (G3 : head_inv h3) by (subst h3; auto with head).
  set (h4 := wr h3 u (set_used true)).
  assert (G4 : head_inv h4) by (subst h4; apply head_inv_other; auto with head).
  set (h5 := wr h4 u (set_prev (Some a))).
  assert (G5 : head_inv h5) by (subst h5; apply head_inv_other; auto with head).
  set (h6 := wr h5 u (set_next (next (rd h5 a)))).
  assert (G6 : head_inv h6) by (subst h6; auto with head).
  set (h7 := wr_p h6 (next (rd h6 a)) (set_prev (Some u))).
  assert (G7 : head_inv h7) by (subst h7; auto with head).
  apply head_inv_set_next; [exact G7 | congruence].
Qed.

Lemma head_inv_alloc e pm sz :
  head_inv (node_heap pm) -> env_ok e -> 0 < total_nodes pm < 2 ^ 31 ->
  head_inv (node_heap (snd (mem_new_alloc e pm sz)))
  /\ 0 < total_nodes (snd (mem_new_alloc e pm sz)).
Proof.
  intros H He Ht. unfold mem_new_alloc.
  destruct (num_gaps (pool pm) =? 0); [split; [exact H | simpl; lia]|].
  destruct (head_inv_resize e pm H He Ht) as [H1 Ht1].
  set (pm1 := _mem_resize_node_heap e pm) in *. clearbody pm1.
  destruct (select_node e pm1 sz) as [a|]; [|split; assumption].
  set (pm2 := with_pool _ (with_pool _ pm1)).
  change (rd (node_heap pm2) a) with (rd (node_heap pm1) a).
  pose proof (remove_frame e pm2 sz (Some a)) as Hf.
  destruct (outside_gap_ix_eq _ _ Hf) as (Hh & Htn & _).
  set (pm3 := snd (_mem_remove_from_gap_ix e pm2 sz (Some a))) in *. clearbody pm3.
  simpl in Hh, Htn. cbn [node_heap with_node_heap total_nodes].
  rewrite Hh, Htn.
  set (h0 := wr (wr (node_heap pm1) a (set_allocated true)) a (set_size sz)).
  assert (H0 : head_inv h0) by (subst h0; auto with head).
  clearbody h0.
  destruct (_ =? 0); [simpl; rewrite Htn; split; assumption|].
  destruct (find_unused h0 _ 0) as [u|] eqn:Eu; [|simpl; rewrite Htn; split; assumption].
  apply find_unused_sound in Eu as [Eu _].
  assert (Hu : u <> 0%nat).
  { intros ->. destruct H0 as (Hused & _). congruence. }
  cbn [fst snd].
  match goal with |- context [_mem_add_to_gap_ix ?e ?p ?s ?n] =>
    destruct (outside_gap_ix_eq _ _ (add_frame e p s n)) as (-> & -> & _)
  end.
  cbn [node_heap with_node_heap total_nodes with_used_nodes].
  split; [|rewrite Htn; exact Ht1].
  apply head_inv_split_gap; assumption.
Qed.

Lemma del_total_nodes e pm d :
  total_nodes (snd (mem_del_alloc e pm d)) = total_nodes pm.
Proof.
  unfold mem_del_alloc.
  set (pm1 := with_pool _ (with_pool _ (with_node_heap _ pm))).
  change (total_nodes pm) with (total_nodes pm1). clearbody pm1.
  set (pm2 := match next (rd (node_heap pm1) d) with
              | Some n => if allocated (rd (node_heap pm1) n) then pm1 else merge_next e pm1 d
              | None => pm1 end).
  assert (H2 : total_nodes pm2 = total_nodes pm1).
  { subst pm2. destruct (next (rd (node_heap pm1) d)) as [n|]; [|reflexivity].
    destruct (allocated _); [reflexivity|]. unfold merge_next. simpl_pm.
    match goal with |- context [_mem_remove_from_gap_ix ?e ?p ?s ?n] =>
      destruct (outside_gap_ix_eq _ _ (remove_frame e p s n)) as (_ & -> & _)
    end. reflexivity. }
  rewrite <- H2. clearbody pm2.
  assert (Hadd : forall pm' sz node,
            total_nodes (snd (_mem_add_to_gap_ix e pm' sz node)) = total_nodes pm').
  { intros pm' sz node.
    destruct (outside_gap_ix_eq _ _ (add_frame e pm' sz node)) as (_ & -> & _). reflexivity. }
  destruct (prev (rd (node_heap pm2) d)) as [p|]; [|apply Hadd].
  destruct (allocated (rd (node_heap pm2) p)); [apply Hadd|].
  destruct (_mem_remove_from_gap_ix e pm2 _ (Some p)) as [st pm3] eqn:Hrm.
  pose proof (remove_frame e pm2 (size (alloc_record (rd (node_heap pm2) p))) (Some p)) as Hf.
  rewrite Hrm in Hf. simpl in Hf.
  destruct (outside_gap_ix_eq _ _ Hf) as (_ & Ht & _).
  destruct (decide (st = ALLOC_FAIL)); [exact Ht|].
  rewrite Hadd. exact Ht.
Qed.

Lemma reachable_head_inv pm :
  reachable pm -> head_inv (node_heap pm) /\ 0 < total_nodes pm.
Proof.
  induction 1 as [base sz pol | e pm sz _ [IH IHt] He Hcap | e pm d _ [IH IHt]].
  - split; [apply head_inv_open | reflexivity].
  - apply head_inv_alloc; [exact IH | exact He | lia].
  - split; [apply head_inv_del, IH | rewrite del_total_nodes; exact IHt].
Qed.

(** With added records that satisfy [env_ok] and a capacity that does not
    overflow, [node_heap[0]] stays in use, without a predecessor, and is the
    successor of no record, whatever the sizes asked and the handles
    released. *)
Theorem first_record_is_head (pm : pool_mgr_t) :
  reachable pm ->
  used (rd (node_heap pm) 0) = true
  /\ prev (rd (node_heap pm) 0) = None
  /\ (forall i, next (rd (node_heap pm) i) <> Some 0%nat).
Proof. intros H. destruct (reachable_head_inv pm H) as [Hinv _]. exact Hinv. Qed.

Example first_record_is_head_after_release :
  let pm := snd (mem_del_alloc env_zero
                   (snd (mem_new_alloc env_zero (pool_mgr_open 1000 1000 BEST_FIT) 100)) 0) in
  used (rd (node_heap pm) 0) = true
  /\ prev (rd (node_heap pm) 0) = None
  /\ (forall i, next (rd (node_heap pm) i) <> Some 0%nat).
Proof.
  apply first_record_is_head.
  apply reach_del. apply reach_alloc.
  - apply reach_open.
  - intros i. discriminate.
  - reflexivity.
Qed.

(** C10, at the code: the fortieth allocation finds the arena full and
    doubles it with [realloc], which does not initialise the forty records
    it adds.  When such a record looks like a gap and holds the address of
    [node_heap[0]] in [next], first-fit hands it out, and the release of
    that handle merges [node_heap[0]] into it: [node_heap[0]] is marked
    unused and is no longer the head of the list, the head being
    [node_heap[40]], while [mem_inspect_pool] still starts at
    [node_heap[0]]. *)
Theorem C10_first_record_spliced_out_after_growth :
  run_valid env_stale (pool_mgr_open 1000 1000 FIRST_FIT) ops_arena_grown = true
  /\ fst (mem_new_alloc env_stale (pool_mgr_open 1000 1000 FIRST_FIT) 1) = Some 0%nat
  /\ total_nodes pool_arena_grown = 80
  /\ used (rd (node_heap pool_arena_grown) 0) = true
  /\ prev (rd (node_heap pool_arena_grown) 0) = None
  /\ exists pm' pm'',
       mem_new_alloc env_stale pool_arena_grown 100 = (Some 40%nat, pm')
       /\ mem_del_alloc env_stale pm' 40 = (ALLOC_OK, pm'')
       /\ used (rd (node_heap pm'') 0) = false
       /\ used (rd (node_heap pm'') 40) = true
       /\ prev (rd (node_heap pm'') 40) = None
       /\ next (rd (node_heap pm'') 40) = Some 1%nat
       /\ prev (rd (node_heap pm'') 1) = Some 40%nat
       /\ head (fst (mem_inspect_pool 80 pm'')) = Some (0, false).
Proof.
  split; [vm_compute; reflexivity|]. split; [vm_compute; reflexivity|].
  split; [vm_compute; reflexivity|]. split; [vm_compute; reflexivity|].
  split; [vm_compute; reflexivity|].
  eexists. eexists. split; [vm_compute; reflexivity|].
  split; [vm_compute; reflexivity|]. repeat split; vm_compute; reflexivity.
Qed.

(** ** mem_pool_close *)

Lemma clear_slot_first p s n i0 i :
  (i0 <= i < i0 + n)%nat -> s !! i = Some (Some p) ->
  (forall j, (i0 <= j < i)%nat -> s !! j <> Some (Some p)) ->
  clear_slot p s n i0 = <[i := None]> s.
Proof.
  revert i0. induction n as [|n IH]; intros i0 Hi Hs Hbefore; simpl; [lia|].
  destruct (decide (i = i0)) as [->|Hne].
  - rewrite Hs. simpl. rewrite decide_True by reflexivity. reflexivity.
  - rewrite decide_False.
    + apply IH; [lia | exact Hs | intros j Hj; apply Hbefore; lia].
    + pose proof (Hbefore i0 ltac:(lia)) as H0.
      destruct (s !! i0) as [[q|]|]; simpl; congruence.
Qed.

(** C6: [mem_pool_close] on an open pool reports [ALLOC_OK] exactly when the
    pool has no allocation and one gap; otherwise it reports
    [ALLOC_NOT_FREED] and changes nothing; when it succeeds the region, the
    arena, the gap index and the manager are freed, no other block is, and
    the slot of the store that held the manager is cleared. *)
Theorem C6_close_iff_all_freed (w : world) (p : nat) (pool_mgr : pool_mgr_t) :
  mgrs w !! p = Some pool_mgr ->
  exists st w',
    mem_pool_close w (Some p) = Some (st, w')
    /\ (st = ALLOC_OK <-> num_allocs (pool pool_mgr) = 0 /\ num_gaps (pool pool_mgr) = 1)
    /\ (st <> ALLOC_OK -> st = ALLOC_NOT_FREED /\ w' = w)
    /\ (st = ALLOC_OK ->
        mgrs w' = delete p (mgrs w)
        /\ (forall b, b ∈ live w' <->
                      b ∈ live w /\ b ∉ [Region p; NodeHeap p; GapIx p; Mgr p])
        /\ pool_store_size w' = pool_store_size w
        /\ pool_store_capacity w' = pool_store_capacity w
        /\ (pool_store w = None -> pool_store w' = None)
        /\ (forall s i, pool_store w = Some s ->
              (i < Z.to_nat (pool_store_capacity w))%nat ->
              s !! i = Some (Some p) ->
              (forall j, (j < i)%nat -> s !! j <> Some (Some p)) ->
              pool_store w' = Some (<[i := None]> s))).
Proof.
  intros Hp. unfold mem_pool_close. rewrite Hp.
  destruct (decide (num_gaps (pool pool_mgr) <> 1)) as [Hg|Hg].
  { exists ALLOC_NOT_FREED, w. split; [reflexivity|].
    split; [split; [discriminate | tauto]|]. split; [tauto | discriminate]. }
  destruct (decide (num_allocs (pool pool_mgr) <> 0)) as [Ha|Ha].
  { exists ALLOC_NOT_FREED, w. split; [reflexivity|].
    split; [split; [discriminate | tauto]|]. split; [tauto | discriminate]. }
  eexists _, _. split; [reflexivity|].
  split; [split; [lia | reflexivity]|]. split; [congruence|]. intros _.
  cbn [mgrs live pool_store pool_store_size pool_store_capacity free with_pool_store].
  split; [reflexivity|].
  split.
  { intros b. rewrite !list_elem_of_filter, !not_elem_of_cons, elem_of_nil. tauto. }
  split; [reflexivity|]. split; [reflexivity|].
  split; [intros ->; reflexivity|].
  intros s i Hs Hi Hsi Hbefore. rewrite Hs. simpl. f_equal.
  apply clear_slot_first; [lia | exact Hsi | intros j Hj; apply Hbefore; lia].
Qed.


(** C6, witness: a fresh pool, which has no allocation and one gap. *)
Lemma C6_witness :
  exists st w',
    mem_pool_close world_one_pool (Some 7%nat) = Some (st, w')
    /\ (st = ALLOC_OK <-> num_allocs (pool (pool_mgr_open 4096 1000 BEST_FIT)) = 0
                          /\ num_gaps (pool (pool_mgr_open 4096 1000 BEST_FIT)) = 1)
    /\ (st <> ALLOC_OK -> st = ALLOC_NOT_FREED /\ w' = world_one_pool)
    /\ (st = ALLOC_OK ->
        mgrs w' = delete 7%nat (mgrs world_one_pool)
        /\ (forall b, b ∈ live w' <->
                      b ∈ live world_one_pool
                      /\ b ∉ [Region 7; NodeHeap 7; GapIx 7; Mgr 7])
        /\ pool_store_size w' = pool_store_size world_one_pool
        /\ pool_store_capacity w' = pool_store_capacity world_one_pool
        /\ (pool_store world_one_pool = None -> pool_store w' = None)
        /\ (forall s i, pool_store world_one_pool = Some s ->
              (i < Z.to_nat (pool_store_capacity world_one_pool))%nat ->
              s !! i = Some (Some 7%nat) ->
              (forall j, (j < i)%nat -> s !! j <> Some (Some 7%nat)) ->
              pool_store w' = Some (<[i := None]> s))).
Proof.
  apply (C6_close_iff_all_freed world_one_pool 7 (pool_mgr_open 4096 1000 BEST_FIT)).
  vm_compute. reflexivity.
Defined.

(** ** The round trip on a gap of the list *)

Lemma heap_ext (h1 h2 : list node_t) :
  length h1 = length h2 -> (forall i, rd h1 i = rd h2 i) -> h1 = h2.
Proof.
  intros Hlen Hrd. apply list_eq. intros i.
  specialize (Hrd i). unfold rd in Hrd.
  destruct (h1 !! i) as [x|] eqn:E1, (h2 !! i) as [y|] eqn:E2; simpl in Hrd.
  - congruence.
  - apply lookup_lt_Some in E1. apply lookup_ge_None in E2. lia.
  - apply lookup_ge_None in E1. apply lookup_lt_Some in E2. lia.
  - reflexivity.
Qed.

Lemma walk_ext h h' fuel p :
  (forall i, In i (walk h fuel p) -> rd h' i = rd h i) ->
  walk h' fuel p = walk h fuel p.
Proof.
  revert p. induction fuel as [|f IH]; intros p H; [reflexivity|].
  destruct p as [i|]; [|reflexivity]. simpl in *.
  rewrite (H i) by (left; reflexivity).
  f_equal. apply IH. intros j Hj. apply H. right. exact Hj.
Qed.

Lemma segments_ext pm pm' :
  length (node_heap pm') = length (node_heap pm) ->
  (forall i, In i (segment_ids pm) -> rd (node_heap pm') i = rd (node_heap pm) i) ->
  segments pm' = segments pm.
Proof.
  intros Hlen H. unfold segments, segment_ids in *. rewrite Hlen.
  rewrite (walk_ext _ _ _ _ H).
  apply map_ext_in. intros i Hi. unfold segment_of. rewrite (H i Hi). reflexivity.
Qed.

(** A bubbling step keeps every entry among the first [m]. *)
Lemma sort_step_keeps e h ix i m g :
  (0 < i)%nat -> (i < m)%nat -> (m <= length ix)%nat ->
  (exists k, (k < m)%nat /\ ix !! k = Some g) ->
  exists k, (k < m)%nat /\ sort_step e h ix i !! k = Some g.
Proof.
  intros Hi Him Hm (k & Hk & Hg).
  assert (Hswap : exists k', (k' < m)%nat /\
            <[(i - 1)%nat := ix_rd e ix i]> (<[i := ix_rd e ix (i - 1)]> ix) !! k' = Some g).
  { unfold ix_rd.
    destruct (lookup_lt_is_Some_2 ix i) as [gi Hgi]; [lia|].
    destruct (lookup_lt_is_Some_2 ix (i - 1)) as [gp Hgp]; [lia|].
    rewrite Hgi, Hgp. simpl.
    destruct (decide (k = i)) as [->|]; [|destruct (decide (k = (i - 1)%nat)) as [->|]].
    - exists (i - 1)%nat. split; [lia|].
      rewrite list_lookup_insert_eq by (rewrite length_insert; lia). congruence.
    - exists i. split; [lia|].
      rewrite list_lookup_insert_ne by lia.
      rewrite list_lookup_insert_eq by lia. congruence.
    - exists k. split; [lia|]. rewrite !list_lookup_insert_ne by lia. exact Hg. }
  unfold sort_step.
  repeat match goal with |- context [if ?b then _ else _] => destruct b end;
    first [exact Hswap | exists k; split; assumption].
Qed.

Lemma sort_loop_keeps e h i ix m g :
  (i < m)%nat -> (m <= length ix)%nat ->
  (exists k, (k < m)%nat /\ ix !! k = Some g) ->
  exists k, (k < m)%nat /\ sort_loop e h i ix !! k = Some g.
Proof.
  revert ix. induction i as [|i IH]; intros ix Him Hm Hex; simpl; [exact Hex|].
  apply IH; [lia | rewrite sort_step_length; exact Hm |].
  apply sort_step_keeps; [lia | exact Him | exact Hm | exact Hex].
Qed.

(** What [_mem_add_to_gap_ix] does below the capacity: the count grows by
    one and the new entry is among the entries in use. *)
Lemma add_below_capacity e pm sz node (n : nat) :
  num_gaps (pool pm) = Z.of_nat n ->
  length (gap_ix pm) = Z.to_nat (gap_ix_capacity pm) ->
  (n < length (gap_ix pm))%nat -> gap_ix_capacity pm < 2 ^ 32 ->
  exists pm',
    _mem_add_to_gap_ix e pm sz node = (ALLOC_OK, pm')
    /\ outside_gap_ix pm' = outside_gap_ix pm
    /\ num_gaps (pool pm') = Z.of_nat (S n)
    /\ gap_ix_capacity pm' = gap_ix_capacity pm
    /\ length (gap_ix pm') = length (gap_ix pm)
    /\ exists k, (k < S n)%nat /\ gap_ix pm' !! k = Some (mk_gap sz node).
Proof.
  intros Hn Hlen Hlt Hcap.
  eexists. split; [apply add_unfold|].
  split. { pose proof (add_frame e pm sz node) as H. rewrite add_unfold in H. exact H. }
  assert (Hb : 0 <= num_gaps (pool pm) < gap_ix_capacity pm) by (rewrite Hn; lia).
  rewrite (resize_gap_ix_below_capacity e pm Hb).
  simpl_pm. unfold wrap32. rewrite Hn.
  rewrite Z.mod_small by lia.
  split; [lia|]. split; [reflexivity|].
  rewrite sort_loop_length, length_insert.
  split; [reflexivity|].
  replace (Z.to_nat (Z.of_nat n + 1 - 1)) with n by lia.
  apply sort_loop_keeps; [lia | rewrite length_insert; lia |].
  exists n. split; [lia|]. rewrite Nat2Z.id.
  apply list_lookup_insert_eq. exact Hlt.
Qed.

Lemma wrap32_succ_pred z : 0 <= z < 2 ^ 32 -> wrap32 (wrap32 (z + 1) - 1) = z.
Proof.
  intros Hz. unfold wrap32.
  destruct (Z.eq_dec z (2 ^ 32 - 1)) as [->|]; [reflexivity|].
  rewrite (Z.mod_small (z + 1)) by lia. replace (z + 1 - 1) with z by lia.
  apply Z.mod_small. lia.
Qed.

Lemma wrap64_add_sub z s : 0 <= z < 2 ^ 64 -> wrap64 (wrap64 (z + s) - s) = z.
Proof.
  intros Hz. unfold wrap64.
  rewrite Zminus_mod_idemp_l. replace (z + s - s) with z by lia.
  apply Z.mod_small. lia.
Qed.

Lemma node_eta (x : node_t) :
  mk_node (mk_alloc (size (alloc_record x)) (mem (alloc_record x)))
    (used x) (allocated x) (next x) (prev x) = x.
Proof. destruct x as [[] ? ? ? ?]. reflexivity. Qed.

(** The state after the removal of the candidate from the gap index. *)
Lemma round_trip_removal e pm sz a n :
  round_trip_ready pm sz a n ->
  let pm2 := with_pool (set_alloc_size (wrap64 (alloc_size (pool pm) + sz)))
               (with_pool (set_num_allocs (wrap32 (num_allocs (pool pm) + 1))) pm) in
  exists pm3 m,
    _mem_remove_from_gap_ix e pm2 sz (Some a) = (ALLOC_OK, pm3)
    /\ n = S m
    /\ outside_gap_ix pm3 = outside_gap_ix pm2
    /\ gap_ix_capacity pm3 = gap_ix_capacity pm
    /\ length (gap_ix pm3) = length (gap_ix pm)
    /\ num_gaps (pool pm3) = Z.of_nat m.
Proof.
  intros (_ & _ & Hlen & Hcap & Hn & Hle & _ & _ & _ & _ & _ & _ & Hex & _) pm2.
  apply Exists_exists in Hex as (g & Hin & Hg).
  apply list_elem_of_lookup in Hin as (k & Hk).
  apply lookup_take_Some in Hk as [Hk Hkn].
  destruct (remove_live_entries e pm2 sz (Some a) n k g)
    as (pos & gp & pm3 & Hrm & _ & _ & _ & _ & Hn3 & _ & Hl3);
    try assumption; [lia|].
  exists pm3, (n - 1)%nat.
  split; [exact Hrm|]. split; [lia|].
  pose proof (remove_frame e pm2 sz (Some a)) as Hf.
  pose proof (remove_trace_frame e pm2 sz (Some a)) as [_ Hc].
  fold (_mem_remove_from_gap_ix e pm2 sz (Some a)) in Hc.
  rewrite Hrm in Hf, Hc. simpl_pm in Hf. simpl_pm in Hc.
  split; [exact Hf|]. split; [exact Hc|]. split; [exact Hl3|]. lia.
Qed.

Lemma length_split_gap h a u sz remaining :
  length (split_gap h a u sz remaining) = length h.
Proof. unfold split_gap. cbv zeta. rewrite !length_wr, length_wr_p, !length_wr. reflexivity. Qed.

Lemma length_absorb_next h d : length (absorb_next h d) = length h.
Proof.
  unfold absorb_next. cbv zeta.
  destruct (next (deref _ _));
    rewrite ?length_wr, ?length_wr_p, ?length_wr, ?length_wr_p, ?length_wr; reflexivity.
Qed.

(** Evaluation of reads after writes, the indices being known to be equal
    or different. *)
Ltac rd_eval :=
  repeat match goal with
    | |- context [rd (wr ?h ?i ?f) ?j] =>
        first
          [ rewrite (rd_wr_ne h i f j) by congruence
          | rewrite (rd_wr_same h i f)
              by (rewrite ?length_wr, ?length_wr_p, ?length_wr; assumption) ]
    end.

(** The arena after the split, read record by record. *)
Lemma split_gap_rd h a u sz remaining i :
  (a < length h)%nat -> (u < length h)%nat -> u <> a ->
  next (rd h a) <> Some a -> next (rd h a) <> Some u ->
  (forall x, next (rd h a) = Some x -> (x < length h)%nat) ->
  rd (split_gap h a u sz remaining) i =
  if decide (i = a) then set_next (Some u) (rd h a)
  else if decide (i = u) then
    mk_node (mk_alloc remaining (mem (alloc_record (rd h a)) + sz))
      true false (next (rd h a)) (Some a)
  else if decide (next (rd h a) = Some i) then set_prev (Some u) (rd h i)
  else rd h i.
Proof.
  intros Ha Hu Hua Hna Hnu Hx. unfold split_gap. cbv zeta.
  assert (Hau : a <> u) by congruence.
  rd_eval.
  destruct (next (rd h a)) as [x|] eqn:Ex; cbn [wr_p].
  - specialize (Hx x eq_refl).
    assert (x <> a) by congruence. assert (x <> u) by congruence.
    destruct (decide (i = a)) as [->|Hia]; [rd_eval; reflexivity|].
    destruct (decide (i = u)) as [->|Hiu]; [rd_eval; reflexivity|].
    destruct (decide (Some x = Some i)) as [Hxi|Hxi].
    + injection Hxi as Hxi. subst x. rewrite decide_True by reflexivity. rd_eval. reflexivity.
    + assert (x <> i) by congruence. rewrite decide_False by exact Hxi. rd_eval. reflexivity.
  - destruct (decide (i = a)) as [->|Hia]; [rd_eval; reflexivity|].
    destruct (decide (i = u)) as [->|Hiu]; [rd_eval; reflexivity|].
    rewrite decide_False by discriminate. rd_eval. reflexivity.
Qed.

(** The arena after the successor [u] of [d] has been absorbed, read record
    by record away from [u]. *)
Lemma absorb_next_rd g d u i :
  (d < length g)%nat -> (u < length g)%nat -> u <> d ->
  next (rd g d) = Some u ->
  next (rd g u) <> Some d -> next (rd g u) <> Some u ->
  (forall x, next (rd g u) = Some x -> (x < length g)%nat) ->
  i <> u ->
  rd (absorb_next g d) i =
  if decide (i = d) then
    set_next (next (rd g u))
      (set_size (wrap64 (size (alloc_record (rd g d)) + size (alloc_record (rd g u))))
         (rd g d))
  else if decide (next (rd g u) = Some i) then set_prev (Some d) (rd g i)
  else rd g i.
Proof.
  intros Hd Hu Hud Hnext Hnd Hnu Hx Hiu. unfold absorb_next. cbv zeta.
  assert (Hdu : d <> u) by congruence.
  rewrite !Hnext. cbn [deref].
  set (h1 := wr g d _).
  assert (E1 : next (rd h1 d) = Some u) by (subst h1; rd_eval; exact Hnext).
  rewrite !E1. cbn [wr_p deref].
  set (h2 := wr h1 u (set_used false)).
  assert (E2 : next (rd h2 d) = Some u) by (subst h2; rd_eval; exact E1).
  rewrite !E2. cbn [wr_p deref].
  set (h3 := wr h2 u (set_size 0)).
  assert (E3 : next (rd h3 d) = Some u) by (subst h3; rd_eval; exact E2).
  rewrite !E3. cbn [wr_p deref].
  set (h4 := wr h3 u (set_mem 0)).
  assert (E4 : next (rd h4 d) = Some u) by (subst h4; rd_eval; exact E3).
  rewrite !E4. cbn [wr_p deref].
  assert (L4 : length h4 = length g) by (subst h4 h3 h2 h1; rewrite !length_wr; reflexivity).
  assert (E4u : next (rd h4 u) = next (rd g u)).
  { subst h4 h3 h2 h1. rd_eval. reflexivity. }
  rewrite E4u.
  destruct (next (rd g u)) as [x|] eqn:Ex.
  - specialize (Hx x eq_refl).
    assert (x <> d) by congruence. assert (x <> u) by congruence.
    set (h5 := wr h4 x (set_prev (Some d))).
    assert (E5 : next (rd h5 d) = Some u) by (subst h5; rd_eval; exact E4).
    rewrite E5. cbn [deref].
    assert (E5u : next (rd h5 u) = Some x) by (subst h5; rd_eval; exact E4u).
    rewrite E5u.
    subst h5 h4 h3 h2 h1.
    destruct (decide (i = d)) as [->|Hid]; [rd_eval; reflexivity|].
    destruct (decide (Some x = Some i)) as [Hxi|Hxi].
    + injection Hxi as Hxi. subst x. rewrite decide_True by reflexivity.
      rd_eval. reflexivity.
    + assert (x <> i) by congruence. rewrite decide_False by exact Hxi.
      rd_eval. reflexivity.
  - subst h4 h3 h2 h1.
    destruct (decide (i = d)) as [->|Hid]; [rd_eval; reflexivity|].
    rewrite decide_False by discriminate. rd_eval. reflexivity.
Qed.

Lemma alloc_on_ready e pm sz a n :
  round_trip_ready pm sz a n ->
  select_node e pm sz = Some a ->
  exists pm3 m,
    n = S m
    /\ node_heap pm3 = node_heap pm /\ total_nodes pm3 = total_nodes pm
    /\ num_allocs (pool pm3) = wrap32 (num_allocs (pool pm) + 1)
    /\ alloc_size (pool pm3) = wrap64 (alloc_size (pool pm) + sz)
    /\ gap_ix_capacity pm3 = gap_ix_capacity pm
    /\ length (gap_ix pm3) = length (gap_ix pm)
    /\ num_gaps (pool pm3) = Z.of_nat m
    /\ mem_new_alloc e pm sz =
       let hA := wr (wr (node_heap pm) a (set_allocated true)) a (set_size sz) in
       let remaining := size (alloc_record (rd (node_heap pm) a)) - sz in
       if remaining =? 0 then (Some a, with_node_heap hA pm3) else
       match find_unused hA (Z.to_nat (total_nodes pm)) 0 with
       | None => (None, with_node_heap hA pm3)
       | Some u =>
           (Some a,
            snd (_mem_add_to_gap_ix e
                   (with_used_nodes (wrap32 (used_nodes pm + 1))
                      (with_node_heap (split_gap hA a u sz remaining) pm3))
                   remaining (Some u)))
       end.
Proof.
  intros Hready Hsel.
  pose proof Hready as (Hng & Htot & Hlen & Hcap & Hn & Hle & Hna & Has & Hua & Haa
                        & Hsz & Hsz64 & Hex & Hnext & Hprev & Hused).
  destruct (round_trip_removal e pm sz a n Hready) as (pm3 & m & Hrm & -> & Hf3 & Hc3 & Hl3 & Hn3).
  destruct (outside_gap_ix_eq _ _ Hf3) as (Hh3 & Ht3 & Hu3 & Hp3 & Has3 & Hna3 & Hm3 & Hts3).
  simpl_pm in Hh3. simpl_pm in Ht3. simpl_pm in Hu3. simpl_pm in Has3. simpl_pm in Hna3.
  exists pm3, m.
  repeat (split; [assumption || reflexivity|]).
  unfold mem_new_alloc.
  rewrite (resize_node_heap_below_capacity e pm Hng).
  destruct (num_gaps (pool pm) =? 0) eqn:E; [apply Z.eqb_eq in E; lia|]. clear E.
  rewrite Hsel.
  set (pm2 := with_pool _ (with_pool _ pm)) in *.
  change (rd (node_heap pm2) a) with (rd (node_heap pm) a).
  rewrite Hrm. simpl_pm.
  rewrite Hh3, Ht3, Hu3.
  unfold wrap64 at 1. rewrite (Z.mod_small (_ - sz)) by lia.
  cbv zeta.
  destruct (_ =? 0); [reflexivity|].
  destruct (find_unused _ _ _); [|reflexivity].
  unfold wrap64 at 1 2. rewrite (Z.mod_small (_ - sz)) by lia.
  reflexivity.
Qed.

(** The arena across the split of the gap [a] and the release of [a]: the
    release finds the residual [u] after [a], and absorbing it restores
    every record but [u]. *)
Lemma round_trip_heap h a u sz :
  (a < length h)%nat -> (u < length h)%nat ->
  used (rd h a) = true -> used (rd h u) = false ->
  allocated (rd h a) = false ->
  0 <= sz <= size (alloc_record (rd h a)) ->
  size (alloc_record (rd h a)) < 2 ^ 64 ->
  match next (rd h a) with
  | Some x => used (rd h x) = true /\ allocated (rd h x) = true
              /\ prev (rd h x) = Some a
  | None => True
  end ->
  let hA := wr (wr h a (set_allocated true)) a (set_size sz) in
  let hS := split_gap hA a u sz (size (alloc_record (rd h a)) - sz) in
  let g1 := wr hS a (set_allocated false) in
  length g1 = length h
  /\ next (rd g1 a) = Some u
  /\ allocated (rd g1 u) = false
  /\ size (alloc_record (rd g1 a)) = sz
  /\ size (alloc_record (rd g1 u)) = size (alloc_record (rd h a)) - sz
  /\ length (absorb_next g1 a) = length h
  /\ forall i, i <> u -> rd (absorb_next g1 a) i = rd h i.
Proof.
  intros Ha Hu Hua Huu Haa Hsz Hsz64 Hnext hA hS g1.
  assert (Hne : u <> a) by (intros ->; congruence).
  assert (Hne' : a <> u) by congruence.
  assert (LA : length hA = length h) by (subst hA; rewrite !length_wr; reflexivity).
  assert (RA : rd hA a = set_size sz (set_allocated true (rd h a))).
  { subst hA. rd_eval. reflexivity. }
  assert (RAo : forall i, i <> a -> rd hA i = rd h i).
  { intros i Hi. subst hA. rd_eval. reflexivity. }
  assert (NA : next (rd hA a) = next (rd h a)) by (rewrite RA; reflexivity).
  assert (Xa : next (rd h a) <> Some a).
  { intros E. rewrite E in Hnext. destruct Hnext as (_ & H & _). congruence. }
  assert (Xu : next (rd h a) <> Some u).
  { intros E. rewrite E in Hnext. destruct Hnext as (H & _). congruence. }
  assert (Xl : forall x, next (rd h a) = Some x -> (x < length h)%nat).
  { intros x E. rewrite E in Hnext. destruct Hnext as (H & _).
    eapply used_in_arena, H. }
  assert (RS : forall i, rd hS i =
            if decide (i = a) then set_next (Some u) (rd hA a)
            else if decide (i = u) then
              mk_node (mk_alloc (size (alloc_record (rd h a)) - sz)
                         (mem (alloc_record (rd hA a)) + sz))
                true false (next (rd hA a)) (Some a)
            else if decide (next (rd hA a) = Some i) then set_prev (Some u) (rd hA i)
            else rd hA i).
  { intros i. subst hS. apply split_gap_rd; rewrite ?LA, ?NA; assumption. }
  assert (LS : length hS = length h).
  { subst hS. rewrite length_split_gap. exact LA. }
  assert (L1 : length g1 = length h) by (subst g1; rewrite length_wr; exact LS).
  assert (R1a : rd g1 a = set_allocated false (set_next (Some u) (rd hA a))).
  { subst g1. rewrite rd_wr_same by (rewrite LS; exact Ha).
    rewrite RS. rewrite decide_True by reflexivity. reflexivity. }
  assert (R1o : forall i, i <> a -> rd g1 i = rd hS i).
  { intros i Hi. subst g1. rewrite rd_wr_ne by congruence. reflexivity. }
  assert (R1u : rd g1 u = mk_node (mk_alloc (size (alloc_record (rd h a)) - sz)
                                     (mem (alloc_record (rd hA a)) + sz))
                            true false (next (rd h a)) (Some a)).
  { rewrite R1o by exact Hne. rewrite RS.
    rewrite decide_False by exact Hne. rewrite decide_True by reflexivity.
    rewrite NA. reflexivity. }
  split; [exact L1|].
  split; [rewrite R1a; reflexivity|].
  split; [rewrite R1u; reflexivity|].
  split; [rewrite R1a, RA; reflexivity|].
  split; [rewrite R1u; reflexivity|].
  split; [rewrite length_absorb_next; exact L1|].
  intros i Hiu.
  rewrite (absorb_next_rd g1 a u i); rewrite ?L1; try assumption.
  - rewrite R1u. cbn [next alloc_record size].
    destruct (decide (i = a)) as [->|Hia].
    + rewrite R1a, RA.
      unfold set_next, set_size, set_allocated.
      cbn [alloc_record size mem used allocated next prev].
      replace (sz + (size (alloc_record (rd h a)) - sz)) with (size (alloc_record (rd h a)))
        by lia.
      unfold wrap64. rewrite Z.mod_small by lia.
      rewrite <- Haa. apply node_eta.
    + rewrite R1o by exact Hia. rewrite RS.
      rewrite (decide_False (P := i = a)) by exact Hia.
      rewrite (decide_False (P := i = u)) by exact Hiu.
      rewrite NA.
      destruct (decide (next (rd h a) = Some i)) as [E|E].
      * rewrite RAo by exact Hia. rewrite E in Hnext. destruct Hnext as (_ & _ & Hp).
        unfold set_prev. cbn [alloc_record used allocated next prev].
        rewrite <- Hp. destruct (rd h i). reflexivity.
      * apply RAo, Hia.
  - rewrite R1a. reflexivity.
  - rewrite R1u. exact Xa.
  - rewrite R1u. exact Xu.
  - rewrite R1u. exact Xl.
Qed.

(** The release, once the two merges are known not to apply or to have been
    done: it ends with the insertion into the gap index. *)
Lemma release_ends_with_add e pm pmD szz node (m : nat) :
  node_heap pmD = node_heap pm \/
    (length (node_heap pmD) = length (node_heap pm)
     /\ forall i, In i (segment_ids pm) -> rd (node_heap pmD) i = rd (node_heap pm) i) ->
  num_allocs (pool pmD) = num_allocs (pool pm) ->
  alloc_size (pool pmD) = alloc_size (pool pm) ->
  num_gaps (pool pm) = Z.of_nat (S m) ->
  num_gaps (pool pmD) = Z.of_nat m ->
  length (gap_ix pmD) = Z.to_nat (gap_ix_capacity pmD) ->
  (m < length (gap_ix pmD))%nat -> gap_ix_capacity pmD < 2 ^ 32 ->
  exists pm2,
    _mem_add_to_gap_ix e pmD szz node = (ALLOC_OK, pm2)
    /\ segments pm2 = segments pm
    /\ counters pm2 = counters pm.
Proof.
  intros Hh Hna Has Hn HnD Hlen Hm Hcap.
  destruct (add_below_capacity e pmD szz node m HnD Hlen Hm Hcap)
    as (pm2 & Hadd & Hf & Hn2 & _).
  exists pm2. split; [exact Hadd|].
  destruct (outside_gap_ix_eq _ _ Hf) as (Hh2 & _ & _ & _ & Has2 & Hna2 & _).
  split.
  - destruct Hh as [Hh|[Hl Hh]].
    + unfold segments, segment_ids. rewrite Hh2, Hh. reflexivity.
    + apply segments_ext; rewrite Hh2; assumption.
  - unfold counters. rewrite Hna2, Has2, Hn2, Hna, Has, Hn. reflexivity.
Qed.

(** The round trip when the candidate is a gap of the list: the allocation
    followed by the release of its handle restores the segments and the
    counters. *)
Theorem round_trip_on_a_gap e pm sz a n :
  round_trip_ready pm sz a n ->
  select_node e pm sz = Some a ->
  fst (mem_new_alloc e pm sz) <> None ->
  exists pm1 pm2,
    mem_new_alloc e pm sz = (Some a, pm1)
    /\ mem_del_alloc e pm1 a = (ALLOC_OK, pm2)
    /\ segments pm2 = segments pm
    /\ counters pm2 = counters pm.
Proof.
  intros Hready Hsel Hsucc.
  destruct (alloc_on_ready e pm sz a n Hready Hsel)
    as (pm3 & m & -> & Hh3 & Ht3 & Hna3 & Has3 & Hc3 & Hl3 & Hn3 & Halloc).
  cbv zeta in Halloc.
  destruct Hready as (Hng & Htot & Hlen & Hcap & Hn & Hle & Hna & Has & Hua & Haa
                      & Hsz & Hsz64 & Hex & Hnext & Hprev & Hused).
  cbv zeta in *.
  pose proof (used_in_arena _ _ Hua) as Ha.
  set (h := node_heap pm) in *.
  set (hA := wr (wr h a (set_allocated true)) a (set_size sz)) in *.
  assert (LA : length hA = length h) by (subst hA; rewrite !length_wr; reflexivity).
  destruct (size (alloc_record (rd h a)) - sz =? 0) eqn:Erem.
  - (* the candidate has the requested size *)
    apply Z.eqb_eq in Erem.
    exists (with_node_heap hA pm3).
    enough (exists pm2,
              mem_del_alloc e (with_node_heap hA pm3) a = (ALLOC_OK, pm2)
              /\ segments pm2 = segments pm /\ counters pm2 = counters pm)
      as (pm2 & H1 & H2 & H3) by (exists pm2; repeat split; assumption).
    assert (Hback : wr hA a (set_allocated false) = h).
    { apply heap_ext; [rewrite length_wr; exact LA|]. intros i. subst hA.
      destruct (decide (i = a)) as [->|Hia]; rd_eval; [|reflexivity].
      unfold set_allocated, set_size. cbn [alloc_record size mem used allocated next prev].
      replace sz with (size (alloc_record (rd h a))) by lia.
      rewrite <- Haa. apply node_eta. }
    unfold mem_del_alloc.
    set (pmD := with_pool _ (with_pool _ (with_node_heap _ (with_node_heap hA pm3)))).
    assert (HD : node_heap pmD = h
                 /\ num_allocs (pool pmD) = num_allocs (pool pm)
                 /\ alloc_size (pool pmD) = alloc_size (pool pm)
                 /\ num_gaps (pool pmD) = Z.of_nat m
                 /\ gap_ix_capacity pmD = gap_ix_capacity pm
                 /\ gap_ix pmD = gap_ix pm3).
    { subst pmD. simpl_pm. rewrite Hback, Hna3, Has3.
      split; [reflexivity|]. split; [apply wrap32_succ_pred, Hna|].
      split; [|repeat split; assumption].
      replace (size (alloc_record (rd h a))) with sz by lia.
      apply wrap64_add_sub, Has. }
    destruct HD as (HhD & HnaD & HasD & HnD & HcD & HgD). clearbody pmD.
    rewrite HhD.
    set (pmN := match next (rd h a) with
                | Some n0 => if allocated (rd h n0) then pmD else merge_next e pmD a
                | None => pmD end).
    assert (EN : pmN = pmD).
    { subst pmN. destruct (next (rd h a)); [destruct Hnext as (_ & -> & _)|]; reflexivity. }
    clearbody pmN. subst pmN. rewrite HhD.
    assert (EP : forall X,
              match prev (rd h a) with
              | Some p =>
                  if allocated (rd h p)
                  then _mem_add_to_gap_ix e pmD (size (alloc_record (rd h a))) (Some a)
                  else X p
              | None => _mem_add_to_gap_ix e pmD (size (alloc_record (rd h a))) (Some a)
              end = _mem_add_to_gap_ix e pmD (size (alloc_record (rd h a))) (Some a)).
    { intros X. destruct (prev (rd h a)); [destruct Hprev as (_ & ->)|]; reflexivity. }
    rewrite (EP (fun p => _)).
    apply (release_ends_with_add e pm pmD _ _ m); try assumption.
    + left. exact HhD.
    + rewrite HgD, HcD, Hl3. exact Hlen.
    + rewrite HgD, Hl3. lia.
    + rewrite HcD. exact Hcap.
  - (* a residual gap is split off *)
    apply Z.eqb_neq in Erem.
    destruct (find_unused hA (Z.to_nat (total_nodes pm)) 0) as [u|] eqn:Eu;
      [|rewrite Halloc in Hsucc; exfalso; apply Hsucc; reflexivity].
    apply find_unused_sound in Eu as [Euu Eul].
    assert (Hne : u <> a).
    { intros ->. subst hA. revert Euu. rd_eval. cbn. congruence. }
    assert (Huu : used (rd h u) = false).
    { subst hA. revert Euu. rd_eval. tauto. }
    assert (Hu : (u < length h)%nat) by (subst h; lia).
    set (remaining := size (alloc_record (rd h a)) - sz) in *.
    set (hS := split_gap hA a u sz remaining) in *.
    destruct (round_trip_heap h a u sz Ha Hu Hua Huu Haa Hsz Hsz64 Hnext)
      as (L1 & N1 & A1 & S1a & S1u & LF & RF).
    fold hA remaining hS in L1, N1, A1, S1a, S1u, LF, RF.
    set (g1 := wr hS a (set_allocated false)) in *.
    set (pmS := with_used_nodes _ (with_node_heap hS pm3)) in *.
    destruct (add_below_capacity e pmS remaining (Some u) m)
      as (pm1 & Hadd & Hf1 & Hn1 & Hc1 & Hl1 & k & Hk & Hgk).
    { exact Hn3. }
    { subst pmS. simpl_pm. rewrite Hc3, Hl3. exact Hlen. }
    { subst pmS. simpl_pm. rewrite Hl3. lia. }
    { subst pmS. simpl_pm. rewrite Hc3. exact Hcap. }
    destruct (outside_gap_ix_eq _ _ Hf1) as (Hh1 & _ & _ & _ & Has1 & Hna1 & _).
    subst pmS. simpl_pm in Hh1. simpl_pm in Has1. simpl_pm in Hna1.
    simpl_pm in Hc1. simpl_pm in Hl1.
    rewrite Hadd in Halloc. cbn [snd] in Halloc.
    exists pm1.
    enough (exists pm2,
              mem_del_alloc e pm1 a = (ALLOC_OK, pm2)
              /\ segments pm2 = segments pm /\ counters pm2 = counters pm)
      as (pm2 & H1 & H2 & H3) by (exists pm2; repeat split; assumption).
    unfold mem_del_alloc.
    set (pmD := with_pool _ (with_pool _ (with_node_heap _ pm1))).
    assert (HD : node_heap pmD = g1
                 /\ num_allocs (pool pmD) = num_allocs (pool pm)
                 /\ alloc_size (pool pmD) = alloc_size (pool pm)
                 /\ num_gaps (pool pmD) = Z.of_nat (S m)
                 /\ gap_ix_capacity pmD = gap_ix_capacity pm
                 /\ gap_ix pmD = gap_ix pm1).
    { subst pmD. simpl_pm. rewrite Hh1, Hna1, Has1, Hna3, Has3.
      split; [reflexivity|]. split; [apply wrap32_succ_pred, Hna|].
      split; [|repeat split; congruence].
      fold g1. rewrite S1a. apply wrap64_add_sub, Has. }
    destruct HD as (HhD & HnaD & HasD & HnD & HcD & HgD). clearbody pmD.
    rewrite HhD.
    set (pmN := match next (rd g1 a) with
                | Some n0 => if allocated (rd g1 n0) then pmD else merge_next e pmD a
                | None => pmD end).
    assert (EN : pmN = merge_next e pmD a).
    { subst pmN. rewrite N1, A1. reflexivity. }
    clearbody pmN. subst pmN.
    (* the merge of the residual *)
    assert (HM : node_heap (merge_next e pmD a) = absorb_next g1 a
                 /\ num_allocs (pool (merge_next e pmD a)) = num_allocs (pool pm)
                 /\ alloc_size (pool (merge_next e pmD a)) = alloc_size (pool pm)
                 /\ num_gaps (pool (merge_next e pmD a)) = Z.of_nat m
                 /\ gap_ix_capacity (merge_next e pmD a) = gap_ix_capacity pm
                 /\ length (gap_ix (merge_next e pmD a)) = length (gap_ix pm)).
    { unfold merge_next. cbv zeta. rewrite HhD, N1. cbn [deref].
      destruct (remove_live_entries e pmD (size (alloc_record (rd g1 u))) (Some u)
                  (S m) k (mk_gap remaining (Some u)))
        as (pos & gp & pmR & Hrm & _ & _ & _ & _ & HnR & _ & HlR).
      { rewrite HgD, HcD, Hl1, Hl3. exact Hlen. }
      { exact HnD. }
      { lia. }
      { rewrite HgD, Hl1, Hl3. exact Hle. }
      { exact Hk. }
      { rewrite HgD. exact Hgk. }
      { reflexivity. }
      pose proof (remove_frame e pmD (size (alloc_record (rd g1 u))) (Some u)) as HfR.
      pose proof (remove_trace_frame e pmD (size (alloc_record (rd g1 u))) (Some u)) as [_ HcR].
      fold (_mem_remove_from_gap_ix e pmD (size (alloc_record (rd g1 u))) (Some u)) in HcR.
      rewrite Hrm in HfR, HcR |- *. simpl_pm in HfR. simpl_pm in HcR. simpl_pm.
      destruct (outside_gap_ix_eq _ _ HfR) as (HhR & _ & _ & _ & HasR & HnaR & _).
      rewrite HhR, HhD, HnaR, HasR, HnR, HcR, HlR, HgD, Hl1, Hl3.
      repeat split; try assumption. lia. }
    destruct HM as (HhM & HnaM & HasM & HnM & HcM & HlM).
    set (pmM := merge_next e pmD a) in *. clearbody pmM.
    rewrite HhM.
    assert (RFa : rd (absorb_next g1 a) a = rd h a) by (apply RF; congruence).
    rewrite RFa.
    assert (EP : forall X,
              match prev (rd h a) with
              | Some p =>
                  if allocated (rd (absorb_next g1 a) p)
                  then _mem_add_to_gap_ix e pmM (size (alloc_record (rd h a))) (Some a)
                  else X p
              | None => _mem_add_to_gap_ix e pmM (size (alloc_record (rd h a))) (Some a)
              end = _mem_add_to_gap_ix e pmM (size (alloc_record (rd h a))) (Some a)).
    { intros X. destruct (prev (rd h a)) as [p|]; [|reflexivity].
      destruct Hprev as (Hpu & Hpa).
      rewrite RF by (intros ->; congruence). rewrite Hpa. reflexivity. }
    rewrite (EP (fun p => _)).
    apply (release_ends_with_add e pm pmM _ _ m); try assumption.
    + right. rewrite HhM. split; [exact LF|].
      intros i Hi. apply RF. intros ->.
      rewrite Forall_forall in Hused.
      specialize (Hused u (proj2 (list_elem_of_In _ _) Hi)). congruence.
    + rewrite HlM, HcM. exact Hlen.
    + rewrite HlM. lia.
    + rewrite HcM. exact Hcap.
Qed.

(** In a list whose links agree and that has no two adjacent gaps, the
    neighbours of a gap are allocated records, and the successor points
    back. *)
Lemma gap_neighbours h before l a :
  links_ok h before l = true ->
  adjacent_gaps (map (segment_of h) l) = false ->
  Forall (fun i => used (rd h i) = true) l ->
  In a l -> allocated (rd h a) = false ->
  (head l = Some a ->
   match before with
   | Some b => used (rd h b) = true /\ allocated (rd h b) = true
   | None => True
   end) ->
  match next (rd h a) with
  | Some x => used (rd h x) = true /\ allocated (rd h x) = true /\ prev (rd h x) = Some a
  | None => True
  end
  /\ match prev (rd h a) with
     | Some p => used (rd h p) = true /\ allocated (rd h p) = true
     | None => True
     end.
Proof.
  revert before. induction l as [|i t IH]; intros before Hl Hadj Hused Hin Hgap Hbefore;
    [destruct Hin|].
  simpl in Hl. apply andb_prop in Hl as [Hl Hlt]. apply andb_prop in Hl as [Hp Hn].
  apply bool_decide_eq_true in Hp.
  apply Forall_cons in Hused as [Hui Hut].
  destruct (decide (a = i)) as [->|Hne].
  - split.
    + destruct t as [|j t'].
      * apply bool_decide_eq_true in Hn. rewrite Hn. exact I.
      * apply bool_decide_eq_true in Hn. rewrite Hn.
        apply Forall_cons in Hut as [Huj _].
        simpl in Hadj. apply orb_false_elim in Hadj as [Hadj _].
        unfold segment_of in Hadj. simpl in Hadj. rewrite Hgap in Hadj. simpl in Hadj.
        apply negb_false_iff in Hadj.
        simpl in Hlt. apply andb_prop in Hlt as [Hlt _]. apply andb_prop in Hlt as [Hpj _].
        apply bool_decide_eq_true in Hpj.
        repeat split; assumption.
    + rewrite Hp. apply Hbefore. reflexivity.
  - destruct Hin as [->|Hin]; [contradiction|].
    destruct t as [|j t']; [destruct Hin|].
    apply (IH (Some i)); try assumption.
    + simpl in Hadj. apply orb_false_elim in Hadj as [_ Hadj]. exact Hadj.
    + intros [= <-]. split; [exact Hui|].
      simpl in Hadj. apply orb_false_elim in Hadj as [Hadj _].
      unfold segment_of in Hadj. simpl in Hadj. rewrite Hgap in Hadj.
      rewrite andb_true_r in Hadj. apply negb_false_iff in Hadj. exact Hadj.
Qed.

(** A pool at rest, with room in the arena and counters in range, is ready
    for the round trip on any of its gaps. *)
Lemma at_rest_ready pm sz a :
  at_rest pm = true ->
  used_nodes pm < total_nodes pm ->
  gap_ix_capacity pm < 2 ^ 32 ->
  num_allocs (pool pm) < 2 ^ 32 ->
  0 <= alloc_size (pool pm) < 2 ^ 64 ->
  In a (segment_ids pm) -> allocated (rd (node_heap pm) a) = false ->
  0 <= sz <= size (alloc_record (rd (node_heap pm) a)) ->
  size (alloc_record (rd (node_heap pm) a)) < 2 ^ 64 ->
  round_trip_ready pm sz a (Z.to_nat (num_gaps (pool pm))).
Proof.
  intros Hrest Hroom Hcap Hna Has Hin Hgap Hsz Hsz64.
  unfold at_rest in Hrest. cbv zeta in Hrest.
  repeat rewrite andb_true_iff in Hrest.
  destruct Hrest as [[[[[[[[[[[[[[H1 H1b] H1c] H2] H3] H4] H4b] H4c] H5] H5b] H5c] H6] Ht] Hu] Hc].
  apply negb_true_iff in H3.
  apply bool_decide_eq_true in H1b, H4.
  apply Z.eqb_eq in H5, H5b, H5c, H6, Ht, Hu, Hc.
  assert (Hused : Forall (fun i => used (rd (node_heap pm) i) = true) (segment_ids pm)).
  { apply Forall_forall. intros i Hi. rewrite forallb_forall in H1.
    apply H1. apply list_elem_of_In, Hi. }
  destruct (gap_neighbours (node_heap pm) None (segment_ids pm) a H1c H3 Hused Hin Hgap)
    as [Hnext Hprev]; [intros _; exact I|].
  assert (Hga : a ∈ filter (fun i => allocated (rd (node_heap pm) i) = false) (segment_ids pm)).
  { apply list_elem_of_filter. split; [exact Hgap | apply list_elem_of_In, Hin]. }
  unfold round_trip_ready. cbv zeta.
  rewrite Forall_forall in Hused.
  repeat match goal with |- _ /\ _ => split end; try assumption; try lia.
  - rewrite length_take in H4. lia.
  - apply Hused, list_elem_of_In, Hin.
  - rewrite forallb_forall in H4b.
    specialize (H4b a (proj1 (list_elem_of_In _ _) Hga)).
    apply bool_decide_eq_true in H4b.
    apply Exists_exists. exists (mk_gap (size (alloc_record (rd (node_heap pm) a))) (Some a)).
    split; [|reflexivity].
    assert (Hm : mk_gap (size (alloc_record (rd (node_heap pm) a))) (Some a)
                 ∈ filter (fun g => gap_node g = Some a)
                     (take (Z.to_nat (num_gaps (pool pm))) (gap_ix pm))).
    { rewrite H4b. apply list_elem_of_here. }
    apply list_elem_of_filter in Hm as [_ Hm]. exact Hm.
  - apply Forall_forall. exact Hused.
Qed.

(** The round trip from a pool at rest: when the arena has room, the counters
    are in range and the candidate is a gap of the list that can hold the
    request, the allocation followed by the release of its handle restores
    the segments and the counters. *)
Theorem round_trip_at_rest e pm sz a :
  at_rest pm = true ->
  used_nodes pm < total_nodes pm ->
  gap_ix_capacity pm < 2 ^ 32 ->
  num_allocs (pool pm) < 2 ^ 32 ->
  0 <= alloc_size (pool pm) < 2 ^ 64 ->
  select_node e pm sz = Some a ->
  In a (segment_ids pm) -> allocated (rd (node_heap pm) a) = false ->
  0 <= sz <= size (alloc_record (rd (node_heap pm) a)) ->
  size (alloc_record (rd (node_heap pm) a)) < 2 ^ 64 ->
  fst (mem_new_alloc e pm sz) <> None ->
  exists pm1 pm2,
    mem_new_alloc e pm sz = (Some a, pm1)
    /\ mem_del_alloc e pm1 a = (ALLOC_OK, pm2)
    /\ segments pm2 = segments pm
    /\ counters pm2 = counters pm.
Proof.
  intros Hrest Hroom Hcap Hna Has Hsel Hin Hgap Hsz Hsz64 Hsucc.
  apply (round_trip_on_a_gap e pm sz a (Z.to_nat (num_gaps (pool pm))));
    [|exact Hsel | exact Hsucc].
  apply at_rest_ready; assumption.
Qed.

(** The round trip of the fifth scenario: 35 bytes out of the gap of 40. *)
Example round_trip_two_gaps :
  exists pm1 pm2,
    mem_new_alloc env_zero pool_two_gaps 35 = (Some 2%nat, pm1)
    /\ mem_del_alloc env_zero pm1 2 = (ALLOC_OK, pm2)
    /\ segments pm2 = segments pool_two_gaps
    /\ counters pm2 = counters pool_two_gaps.
Proof.
  apply (round_trip_at_rest env_zero pool_two_gaps 35 2);
    try (vm_compute; first [reflexivity | lia | congruence | (intros; discriminate)
                            | (repeat split; congruence) | tauto]).
Qed.

(** ** The invariants after the first-fit scan ends on an allocated record *)

(** C3, at the code: after a legitimate run the pool is at rest; a request of
    480 bytes, which no gap can hold, is answered with the allocated record
    [node_heap[39]], and the allocation completes with two adjacent gaps in
    the segment list; so does the release of that handle. *)
Theorem C3_adjacent_gaps_after_allocate :
  run_valid env_zero (pool_mgr_open 1000 1000 FIRST_FIT) ops_last_record_allocated = true
  /\ at_rest pool_last_record_allocated = true
  /\ exists pm',
       mem_new_alloc env_zero pool_last_record_allocated 480 = (Some 39%nat, pm')
       /\ adjacent_gaps (segments pm') = true
       /\ drop 36 (segments pm')
          = [(1038, 1, true); (1039, 480, true); (1519, 20, false); (1539, 461, false)]
       /\ exists pm'',
            mem_del_alloc env_zero pm' 39 = (ALLOC_OK, pm'')
            /\ adjacent_gaps (segments pm'') = true.
Proof.
  split; [vm_compute; reflexivity|]. split; [vm_compute; reflexivity|].
  eexists. split; [vm_compute; reflexivity|].
  split; [vm_compute; reflexivity|]. split; [vm_compute; reflexivity|].
  eexists. split; [vm_compute; reflexivity|]. vm_compute; reflexivity.
Qed.

(** C4, at the code: from the same pool at rest, the allocation of 480 bytes
    returns a handle and the immediate release of that handle leaves a
    segment list and counters different from those before. *)
Theorem C4_round_trip_broken_at_last_record :
  at_rest pool_last_record_allocated = true
  /\ first_fit_by_address pool_last_record_allocated 480 = None
  /\ exists pm' pm'',
       mem_new_alloc env_zero pool_last_record_allocated 480 = (Some 39%nat, pm')
       /\ mem_del_alloc env_zero pm' 39 = (ALLOC_OK, pm'')
       /\ segments pm'' <> segments pool_last_record_allocated
       /\ counters pool_last_record_allocated = (37, 2, 536)
       /\ counters pm'' = (37, 3, 536).
Proof.
  split; [vm_compute; reflexivity|]. split; [vm_compute; reflexivity|].
  eexists. eexists. split; [vm_compute; reflexivity|].
  split; [vm_compute; reflexivity|].
  split; [vm_compute; discriminate|]. split; vm_compute; reflexivity.
Qed.

(** * Further properties *)

(** A check that holds of a list holds of each of its elements. *)
Lemma forallb_lookup {A} (f : A -> bool) (l : list A) (i : nat) (x : A) :
  forallb f l = true -> l !! i = Some x -> f x = true.
Proof.
  intros Hall Hx. rewrite forallb_forall in Hall.
  apply Hall, list_elem_of_In, (list_elem_of_lookup_2 _ i), Hx.
Qed.

(** ** [realloc] *)

Lemma length_realloc {A} (fresh : nat -> A) (l : list A) (n : nat) :
  length (realloc fresh l n) = n.
Proof.
  unfold realloc. rewrite length_app, length_take, length_map, length_seq. lia.
Qed.

Lemma lookup_realloc_old {A} (fresh : nat -> A) (l : list A) (n i : nat) :
  (i < length l)%nat -> (i < n)%nat -> realloc fresh l n !! i = l !! i.
Proof.
  intros Hi Hn. unfold realloc.
  rewrite lookup_app_l by (rewrite length_take; lia).
  apply lookup_take_lt. exact Hn.
Qed.

Lemma lookup_realloc_new {A} (fresh : nat -> A) (l : list A) (n i : nat) :
  (length l <= i < n)%nat -> realloc fresh l n !! i = Some (fresh i).
Proof.
  intros Hi. unfold realloc.
  rewrite take_ge by lia.
  rewrite lookup_app_r by lia.
  rewrite list_lookup_fmap.
  rewrite lookup_seq_lt by lia. simpl. f_equal. f_equal. lia.
Qed.

Lemma take_realloc {A} (fresh : nat -> A) (l : list A) (n m : nat) :
  (m <= length l)%nat -> (m <= n)%nat -> take m (realloc fresh l n) = take m l.
Proof.
  intros Hm Hn. unfold realloc.
  rewrite take_app_le by (rewrite length_take; lia).
  rewrite take_take. f_equal. lia.
Qed.

(** ** The gap index: removal *)

Lemma find_pos_none e ix node n i :
  find_pos e ix node n i = None <->
  forall k, (i <= k < i + n)%nat -> gap_node (ix_rd e ix k) <> node.
Proof.
  revert i. induction n as [|n IH]; intros i; simpl.
  - split; [intros _ k Hk; lia | reflexivity].
  - destruct (decide _) as [Heq|Hne].
    + split; [discriminate|]. intros H. exfalso. apply (H i); [lia | exact Heq].
    + rewrite IH. split.
      * intros H k Hk. destruct (decide (k = i)) as [->|]; [exact Hne | apply H; lia].
      * intros H k Hk. apply H. lia.
Qed.

(** X1: [_mem_remove_from_gap_ix] returns [ALLOC_FAIL] exactly when no cell
    of the gap index, over its whole capacity, holds the address of the
    node, and it then leaves the pool manager as it was. *)
Theorem X1_remove_fails_iff_absent (e : env) (pm : pool_mgr_t) (sz : Z) (node : node_pt) :
  length (gap_ix pm) = Z.to_nat (gap_ix_capacity pm) ->
  (fst (_mem_remove_from_gap_ix e pm sz node) = ALLOC_FAIL
   <-> forall i g, gap_ix pm !! i = Some g -> gap_node g <> node)
  /\ (fst (_mem_remove_from_gap_ix e pm sz node) = ALLOC_FAIL
      -> snd (_mem_remove_from_gap_ix e pm sz node) = pm).
Proof.
  intros Hlen.
  unfold _mem_remove_from_gap_ix, _mem_remove_from_gap_ix_trace.
  destruct (find_pos _ _ _ _ _) as [pos|] eqn:E.
  - destruct (shift_down _ _ _ _) as [ix tr]. cbn [fst snd].
    split; [|discriminate]. split; [discriminate|].
    intros H. exfalso.
    pose proof (find_pos_bound _ _ _ _ _ _ E) as Hb.
    pose proof (find_pos_hit _ _ _ _ _ _ E) as Hh.
    destruct (lookup_lt_is_Some_2 (gap_ix pm) pos) as [g Hg]; [lia|].
    unfold ix_rd in Hh. rewrite Hg in Hh. exact (H pos g Hg Hh).
  - cbn [fst snd]. split; [|reflexivity]. split; [|reflexivity].
    intros _ i g Hg. apply find_pos_none with (k := i) in E.
    + unfold ix_rd in E. rewrite Hg in E. exact E.
    + apply lookup_lt_Some in Hg. lia.
Qed.

(** X1, witness: the record [node_heap[5]] has no entry in the gap index of
    a pool that has just been opened. *)
Lemma X1_witness :
  (fst (_mem_remove_from_gap_ix env_zero (pool_mgr_open 1000 1000 FIRST_FIT) 0 (Some 5%nat))
     = ALLOC_FAIL
   <-> forall i g, gap_ix (pool_mgr_open 1000 1000 FIRST_FIT) !! i = Some g
                   -> gap_node g <> Some 5%nat)
  /\ (fst (_mem_remove_from_gap_ix env_zero (pool_mgr_open 1000 1000 FIRST_FIT) 0 (Some 5%nat))
        = ALLOC_FAIL
      -> snd (_mem_remove_from_gap_ix env_zero (pool_mgr_open 1000 1000 FIRST_FIT) 0 (Some 5%nat))
         = pool_mgr_open 1000 1000 FIRST_FIT).
Proof.
  apply (X1_remove_fails_iff_absent env_zero (pool_mgr_open 1000 1000 FIRST_FIT) 0 (Some 5%nat)).
  reflexivity.
Defined.

(** X2: when one of the [n] entries in use references the node,
    [_mem_remove_from_gap_ix] deletes the first entry that references it:
    the other entries in use keep their order, the count drops by one, the
    cell vacated at the end of the entries in use is zeroed, the rest of the
    pool manager is left alone, and entries that were sorted stay sorted. *)
Theorem X2_remove_keeps_order (e : env) (pm : pool_mgr_t) (sz : Z) (node : node_pt)
    (n k : nat) (g : gap_t) :
  length (gap_ix pm) = Z.to_nat (gap_ix_capacity pm) ->
  num_gaps (pool pm) = Z.of_nat n -> Z.of_nat n < 2 ^ 32 ->
  (n <= length (gap_ix pm))%nat ->
  (k < n)%nat -> gap_ix pm !! k = Some g -> gap_node g = node ->
  exists pos pm',
    _mem_remove_from_gap_ix e pm sz node = (ALLOC_OK, pm')
    /\ (pos <= k)%nat
    /\ gap_node <$> gap_ix pm !! pos = Some node
    /\ (forall i gi, (i < pos)%nat -> gap_ix pm !! i = Some gi -> gap_node gi <> node)
    /\ num_gaps (pool pm') = Z.of_nat n - 1
    /\ take (n - 1) (gap_ix pm') = delete pos (take n (gap_ix pm))
    /\ gap_ix pm' !! (n - 1)%nat = Some gap_zero
    /\ length (gap_ix pm') = length (gap_ix pm)
    /\ gap_ix_capacity pm' = gap_ix_capacity pm
    /\ outside_gap_ix pm' = outside_gap_ix pm
    /\ (gap_sorted (node_heap pm) (gap_ix pm) n
        -> gap_sorted (node_heap pm') (gap_ix pm') (n - 1)).
Proof.
  intros Hlen Hn Hn32 Hle Hk Hg Hnode.
  destruct (remove_live_entries e pm sz node n k g)
    as (pos & gp & pm' & Hrm & Hpos & Hgp & Hgpn & Hfirst & Hng & Htake & Hlen');
    try assumption.
  exists pos, pm'.
  pose proof (remove_frame e pm sz node) as Hframe.
  pose proof (remove_trace_frame e pm sz node) as [_ Hcap].
  pose proof (remove_keeps_sorted e pm sz node n k g Hlen Hn Hn32 Hle Hk Hg Hnode) as Hsorted.
  fold (_mem_remove_from_gap_ix e pm sz node) in Hcap.
  rewrite Hrm in Hframe, Hcap, Hsorted. cbn [snd] in Hframe, Hcap, Hsorted.
  split; [exact Hrm|]. split; [exact Hpos|].
  split; [rewrite Hgp; simpl; f_equal; exact Hgpn|].
  split; [exact Hfirst|]. split; [exact Hng|]. split; [exact Htake|].
  split.
  { revert Hrm. unfold _mem_remove_from_gap_ix, _mem_remove_from_gap_ix_trace.
    destruct (find_pos _ _ _ _ _); [|discriminate].
    pose proof (shift_down_length e (gap_ix pm) (Z.to_nat (gap_ix_capacity pm) - n0) n0) as Hsl.
    destruct (shift_down _ _ _ _) as [ix tr]. cbn [fst snd] in *.
    intros [= <-]. simpl_pm.
    assert (Hw : wrap32 (num_gaps (pool pm) - 1) = Z.of_nat n - 1).
    { unfold wrap32. rewrite Hn. apply Z.mod_small. lia. }
    rewrite Hw. replace (Z.to_nat (Z.of_nat n - 1)) with (n - 1)%nat by lia.
    apply list_lookup_insert_eq. lia. }
  split; [exact Hlen'|]. split; [exact Hcap|]. split; [exact Hframe|].
  intros Hs. apply outside_gap_ix_eq in Hframe as (-> & _). apply Hsorted, Hs.
Qed.

(** X2, witness: the gap of 30 bytes leaves the index of the pool with two
    gaps. *)
Lemma X2_witness :
  exists pos pm',
    _mem_remove_from_gap_ix env_zero pool_two_gaps 30 (Some 0%nat) = (ALLOC_OK, pm')
    /\ (pos <= 0)%nat
    /\ gap_node <$> gap_ix pool_two_gaps !! pos = Some (Some 0%nat)
    /\ (forall i gi, (i < pos)%nat -> gap_ix pool_two_gaps !! i = Some gi
                     -> gap_node gi <> Some 0%nat)
    /\ num_gaps (pool pm') = Z.of_nat 2 - 1
    /\ take (2 - 1) (gap_ix pm') = delete pos (take 2 (gap_ix pool_two_gaps))
    /\ gap_ix pm' !! (2 - 1)%nat = Some gap_zero
    /\ length (gap_ix pm') = length (gap_ix pool_two_gaps)
    /\ gap_ix_capacity pm' = gap_ix_capacity pool_two_gaps
    /\ outside_gap_ix pm' = outside_gap_ix pool_two_gaps
    /\ (gap_sorted (node_heap pool_two_gaps) (gap_ix pool_two_gaps) 2
        -> gap_sorted (node_heap pm') (gap_ix pm') (2 - 1)).
Proof.
  apply (X2_remove_keeps_order env_zero pool_two_gaps 30 (Some 0%nat) 2 0 (mk_gap 30 (Some 0%nat))).
  - reflexivity.
  - reflexivity.
  - reflexivity.
  - vm_compute. lia.
  - lia.
  - reflexivity.
  - reflexivity.
Defined.

(** ** The gap index: insertion *)

(** The swap of two neighbouring cells permutes the list. *)
Lemma swap_neighbours_perm {A} (l : list A) (i : nat) (c p : A) :
  l !! S i = Some c -> l !! i = Some p ->
  <[i := c]> (<[S i := p]> l) ≡ₚ l.
Proof.
  intros Hc Hp.
  assert (exists l1 l2, l = l1 ++ p :: c :: l2 /\ length l1 = i) as (l1 & l2 & -> & <-).
  { exists (take i l), (drop (S (S i)) l). split.
    - rewrite <- (drop_S l c (S i) Hc). apply eq_sym, take_drop_middle, Hp.
    - rewrite length_take. apply lookup_lt_Some in Hp. lia. }
  replace (S (length l1)) with (length l1 + 1)%nat by lia.
  rewrite insert_app_r. simpl.
  replace (length l1) with (length l1 + 0)%nat at 1 by lia.
  rewrite insert_app_r. simpl.
  apply Permutation_app_head. apply perm_swap.
Qed.

(** A bubbling step permutes the first [m] entries. *)
Lemma sort_step_perm e h ix i m :
  (0 < i)%nat -> (i < m)%nat -> (m <= length ix)%nat ->
  take m (sort_step e h ix i) ≡ₚ take m ix.
Proof.
  intros Hi Him Hm.
  destruct (lookup_lt_is_Some_2 ix i) as [cur Hcur]; [lia|].
  destruct (lookup_lt_is_Some_2 ix (i - 1)) as [prv Hprv]; [lia|].
  assert (Hswap : take m (<[(i - 1)%nat := ix_rd e ix i]> (<[i := ix_rd e ix (i - 1)]> ix))
                  ≡ₚ take m ix).
  { unfold ix_rd. rewrite Hcur, Hprv. simpl.
    rewrite !take_insert_lt by lia.
    replace i with (S (i - 1)) at 2 by lia.
    apply swap_neighbours_perm.
    - replace (S (i - 1)) with i by lia. rewrite lookup_take_lt by lia. exact Hcur.
    - rewrite lookup_take_lt by lia. exact Hprv. }
  unfold sort_step.
  repeat match goal with |- context [if ?b then _ else _] => destruct b end;
    first [exact Hswap | reflexivity].
Qed.

Lemma sort_loop_perm e h i ix m :
  (i < m)%nat -> (m <= length ix)%nat ->
  take m (sort_loop e h i ix) ≡ₚ take m ix.
Proof.
  revert ix. induction i as [|i IH]; intros ix Him Hm; simpl; [reflexivity|].
  rewrite IH by (rewrite ?sort_step_length; lia).
  apply sort_step_perm; lia.
Qed.

(** The growth check of the gap index leaves room for one more entry and
    keeps the entries in use. *)
Lemma resize_gap_ix_room e pm (n : nat) :
  num_gaps (pool pm) = Z.of_nat n ->
  length (gap_ix pm) = Z.to_nat (gap_ix_capacity pm) ->
  (n <= length (gap_ix pm))%nat -> 0 < gap_ix_capacity pm < 2 ^ 31 ->
  pool (_mem_resize_gap_ix e pm) = pool pm
  /\ node_heap (_mem_resize_gap_ix e pm) = node_heap pm
  /\ length (gap_ix (_mem_resize_gap_ix e pm))
     = Z.to_nat (gap_ix_capacity (_mem_resize_gap_ix e pm))
  /\ (n < length (gap_ix (_mem_resize_gap_ix e pm)))%nat
  /\ take n (gap_ix (_mem_resize_gap_ix e pm)) = take n (gap_ix pm)
  /\ gap_ix_capacity (_mem_resize_gap_ix e pm)
     = (if Z.of_nat n <? gap_ix_capacity pm then gap_ix_capacity pm
        else 2 * gap_ix_capacity pm)
  /\ _mem_resize_gap_ix e (_mem_resize_gap_ix e pm) = _mem_resize_gap_ix e pm.
Proof.
  intros Hn Hlen Hle Hcap.
  destruct (Z.ltb_spec (Z.of_nat n) (gap_ix_capacity pm)) as [Hlt|Hge].
  - rewrite (resize_gap_ix_below_capacity e pm) by lia.
    rewrite (resize_gap_ix_below_capacity e pm) by lia.
    repeat split; try assumption; lia.
  - assert (Hfull : Z.of_nat n = gap_ix_capacity pm) by lia.
    assert (E : exceeds_fill MEM_GAP_IX_FILL_FACTOR (num_gaps (pool pm)) (gap_ix_capacity pm)
                = true).
    { apply exceeds_fill_three_quarters; lia. }
    assert (Hw : wrap32 (MEM_GAP_IX_EXPAND_FACTOR * gap_ix_capacity pm)
                 = 2 * gap_ix_capacity pm).
    { unfold wrap32, MEM_GAP_IX_EXPAND_FACTOR. apply Z.mod_small. lia. }
    assert (Hpm : _mem_resize_gap_ix e pm
                  = with_gap_ix_capacity (2 * gap_ix_capacity pm)
                      (with_gap_ix
                         (realloc (fresh_gaps e) (gap_ix pm)
                            (Z.to_nat (2 * gap_ix_capacity pm))) pm)).
    { unfold _mem_resize_gap_ix. rewrite E. cbv zeta. rewrite Hw. reflexivity. }
    rewrite Hpm. simpl_pm.
    rewrite length_realloc.
    split; [reflexivity|]. split; [reflexivity|]. split; [reflexivity|].
    split; [lia|].
    split; [apply take_realloc; lia|].
    split; [reflexivity|].
    apply resize_gap_ix_below_capacity. simpl_pm. lia.
Qed.

(** [_mem_add_to_gap_ix] after the growth check is [_mem_add_to_gap_ix]. *)
Lemma add_after_resize e pm sz node :
  _mem_resize_gap_ix e (_mem_resize_gap_ix e pm) = _mem_resize_gap_ix e pm ->
  _mem_add_to_gap_ix e (_mem_resize_gap_ix e pm) sz node = _mem_add_to_gap_ix e pm sz node.
Proof. intros H. rewrite !add_unfold. cbv zeta. rewrite H. reflexivity. Qed.

Lemma gap_sorted_take h ix ix' n :
  take n ix' = take n ix -> gap_sorted h ix n -> gap_sorted h ix' n.
Proof.
  intros Ht Hs i j gi gj Hij Hj Hgi Hgj.
  apply (Hs i j); try assumption.
  - rewrite <- (lookup_take_lt ix n i) by lia. rewrite <- Ht.
    rewrite lookup_take_lt by lia. exact Hgi.
  - rewrite <- (lookup_take_lt ix n j) by lia. rewrite <- Ht.
    rewrite lookup_take_lt by lia. exact Hgj.
Qed.

(** X3: [_mem_add_to_gap_ix] on an index with [n] entries in use, full or
    not, returns [ALLOC_OK]; the write of the new entry is inside the array
    (the capacity doubles first when the index is full); afterwards the
    entries in use are the old ones and the new one, in some order, and the
    rest of the pool manager is left alone. *)
Theorem X3_add_keeps_entries (e : env) (pm : pool_mgr_t) (sz : Z) (node : node_pt) (n : nat) :
  num_gaps (pool pm) = Z.of_nat n ->
  length (gap_ix pm) = Z.to_nat (gap_ix_capacity pm) ->
  (n <= length (gap_ix pm))%nat -> 0 < gap_ix_capacity pm < 2 ^ 31 ->
  exists pm',
    _mem_add_to_gap_ix e pm sz node = (ALLOC_OK, pm')
    /\ num_gaps (pool pm') = Z.of_nat (S n)
    /\ gap_ix_capacity pm'
       = (if Z.of_nat n <? gap_ix_capacity pm then gap_ix_capacity pm
          else 2 * gap_ix_capacity pm)
    /\ length (gap_ix pm') = Z.to_nat (gap_ix_capacity pm')
    /\ (S n <= length (gap_ix pm'))%nat
    /\ take (S n) (gap_ix pm') ≡ₚ take n (gap_ix pm) ++ [mk_gap sz node]
    /\ outside_gap_ix pm' = outside_gap_ix pm.
Proof.
  intros Hn Hlen Hle Hcap.
  destruct (resize_gap_ix_room e pm n Hn Hlen Hle Hcap)
    as (Hpool & Hheap & Hlen0 & Hlt0 & Htake0 & Hcap0 & Hidem).
  set (pm0 := _mem_resize_gap_ix e pm) in *.
  assert (Hn0 : num_gaps (pool pm0) = Z.of_nat n) by (rewrite Hpool; exact Hn).
  assert (Hc0 : gap_ix_capacity pm0 < 2 ^ 32).
  { rewrite Hcap0. destruct (_ <? _); lia. }
  destruct (add_below_capacity e pm0 sz node n Hn0 Hlen0 Hlt0 Hc0)
    as (pm' & Hadd & Hout & Hng & Hcap' & Hlen' & _).
  pose proof (add_after_resize e pm sz node Hidem) as Har.
  change (_mem_add_to_gap_ix e pm0 sz node = _mem_add_to_gap_ix e pm sz node) in Har.
  rewrite Har in Hadd.
  exists pm'. split; [exact Hadd|]. split; [exact Hng|].
  split; [rewrite Hcap'; exact Hcap0|].
  split; [rewrite Hlen', Hcap'; exact Hlen0|].
  split; [lia|].
  split.
  - assert (Hix : gap_ix pm' = sort_loop e (node_heap pm0) n
                                 (<[n := mk_gap sz node]> (gap_ix pm0))).
    { rewrite add_unfold in Hadd. injection Hadd as <-. cbv zeta.
      fold pm0. simpl_pm.
      unfold wrap32. rewrite Hn0. rewrite Z.mod_small by lia.
      replace (Z.to_nat (Z.of_nat n + 1 - 1)) with n by lia. rewrite Nat2Z.id.
      reflexivity. }
    rewrite Hix.
    rewrite sort_loop_perm by (rewrite ?length_insert; lia).
    rewrite (take_S_r _ n (mk_gap sz node)) by (apply list_lookup_insert_eq; exact Hlt0).
    rewrite take_insert_ge by lia. rewrite Htake0. reflexivity.
  - rewrite Hout. apply resize_gap_ix_frame.
Qed.

(** X3, witness: a third entry for the pool with two gaps. *)
Lemma X3_witness :
  exists pm',
    _mem_add_to_gap_ix env_zero pool_two_gaps 35 (Some 5%nat) = (ALLOC_OK, pm')
    /\ num_gaps (pool pm') = Z.of_nat 3
    /\ gap_ix_capacity pm'
       = (if Z.of_nat 2 <? gap_ix_capacity pool_two_gaps then gap_ix_capacity pool_two_gaps
          else 2 * gap_ix_capacity pool_two_gaps)
    /\ length (gap_ix pm') = Z.to_nat (gap_ix_capacity pm')
    /\ (3 <= length (gap_ix pm'))%nat
    /\ take 3 (gap_ix pm') ≡ₚ take 2 (gap_ix pool_two_gaps) ++ [mk_gap 35 (Some 5%nat)]
    /\ outside_gap_ix pm' = outside_gap_ix pool_two_gaps.
Proof.
  apply (X3_add_keeps_entries env_zero pool_two_gaps 35 (Some 5%nat) 2).
  - reflexivity.
  - reflexivity.
  - vm_compute. lia.
  - vm_compute. split; reflexivity.
Defined.

(** X4: the single bubbling pass of [_mem_sort_gap_ix] is an insertion:
    when the [n] entries in use were sorted by size, then by base address,
    the [n + 1] entries in use after [_mem_add_to_gap_ix] are sorted, the
    index being full or not. *)
Theorem X4_add_keeps_sorted (e : env) (pm : pool_mgr_t) (sz : Z) (node : node_pt) (n : nat) :
  num_gaps (pool pm) = Z.of_nat n ->
  length (gap_ix pm) = Z.to_nat (gap_ix_capacity pm) ->
  (n <= length (gap_ix pm))%nat -> 0 < gap_ix_capacity pm < 2 ^ 31 ->
  gap_sorted (node_heap pm) (gap_ix pm) n ->
  gap_sorted (node_heap (snd (_mem_add_to_gap_ix e pm sz node)))
    (gap_ix (snd (_mem_add_to_gap_ix e pm sz node))) (S n).
Proof.
  intros Hn Hlen Hle Hcap Hsorted.
  destruct (resize_gap_ix_room e pm n Hn Hlen Hle Hcap)
    as (Hpool & Hheap & Hlen0 & Hlt0 & Htake0 & Hcap0 & Hidem).
  pose proof (add_frame e pm sz node) as Hframe.
  apply outside_gap_ix_eq in Hframe as (-> & _).
  rewrite <- (add_after_resize e pm sz node Hidem).
  rewrite <- Hheap.
  apply add_keeps_sorted.
  - rewrite Hpool. exact Hn.
  - exact Hlen0.
  - exact Hlt0.
  - rewrite Hcap0. destruct (_ <? _); lia.
  - rewrite Hheap. apply (gap_sorted_take _ (gap_ix pm)); assumption.
Qed.

(** X4, witness: an entry of 35 bytes goes between those of 30 and of 40. *)
Lemma X4_witness :
  gap_sorted (node_heap (snd (_mem_add_to_gap_ix env_zero pool_two_gaps 35 (Some 5%nat))))
    (gap_ix (snd (_mem_add_to_gap_ix env_zero pool_two_gaps 35 (Some 5%nat)))) 3.
Proof.
  apply (X4_add_keeps_sorted env_zero pool_two_gaps 35 (Some 5%nat) 2).
  - reflexivity.
  - reflexivity.
  - vm_compute. lia.
  - vm_compute. split; reflexivity.
  - apply at_rest_sorted. vm_compute. reflexivity.
Defined.

(** ** The growth of the arena *)

(** X5: the growth check of the arena compares the quotient of two
    [unsigned] with the fill factor, so it doubles [total_nodes] exactly
    when [used_nodes] has reached [total_nodes], and below that it leaves
    the pool manager as it is; the counters and the gap index are not
    touched either way. *)
Theorem X5_arena_grows_when_full (e : env) (pm : pool_mgr_t) :
  0 < total_nodes pm < 2 ^ 31 -> 0 <= used_nodes pm ->
  total_nodes (_mem_resize_node_heap e pm)
  = (if used_nodes pm <? total_nodes pm then total_nodes pm else 2 * total_nodes pm)
  /\ length (node_heap (_mem_resize_node_heap e pm))
     = (if used_nodes pm <? total_nodes pm then length (node_heap pm)
        else Z.to_nat (2 * total_nodes pm))
  /\ (used_nodes pm < total_nodes pm -> _mem_resize_node_heap e pm = pm)
  /\ used_nodes (_mem_resize_node_heap e pm) = used_nodes pm
  /\ pool (_mem_resize_node_heap e pm) = pool pm
  /\ gap_ix (_mem_resize_node_heap e pm) = gap_ix pm
  /\ gap_ix_capacity (_mem_resize_node_heap e pm) = gap_ix_capacity pm.
Proof.
  intros Hcap Hused.
  destruct (Z.ltb_spec (used_nodes pm) (total_nodes pm)) as [Hlt|Hfull].
  - rewrite resize_node_heap_below_capacity by lia. repeat split.
  - assert (E : exceeds_fill MEM_NODE_HEAP_FILL_FACTOR (used_nodes pm) (total_nodes pm) = true).
    { apply exceeds_fill_three_quarters; lia. }
    assert (Hw : wrap32 (MEM_NODE_HEAP_EXPAND_FACTOR * total_nodes pm) = 2 * total_nodes pm).
    { unfold wrap32, MEM_NODE_HEAP_EXPAND_FACTOR. apply Z.mod_small. lia. }
    unfold _mem_resize_node_heap. rewrite E. cbv zeta. rewrite Hw. simpl_pm.
    split; [reflexivity|]. split; [apply length_realloc|].
    split; [intros; lia|]. repeat split.
Qed.

(** X5, witness: the arena of forty records, all of them in use. *)
Lemma X5_witness :
  total_nodes (_mem_resize_node_heap env_zero pool_arena_full)
  = (if used_nodes pool_arena_full <? total_nodes pool_arena_full
     then total_nodes pool_arena_full else 2 * total_nodes pool_arena_full)
  /\ length (node_heap (_mem_resize_node_heap env_zero pool_arena_full))
     = (if used_nodes pool_arena_full <? total_nodes pool_arena_full
        then length (node_heap pool_arena_full)
        else Z.to_nat (2 * total_nodes pool_arena_full))
  /\ (used_nodes pool_arena_full < total_nodes pool_arena_full
      -> _mem_resize_node_heap env_zero pool_arena_full = pool_arena_full)
  /\ used_nodes (_mem_resize_node_heap env_zero pool_arena_full) = used_nodes pool_arena_full
  /\ pool (_mem_resize_node_heap env_zero pool_arena_full) = pool pool_arena_full
  /\ gap_ix (_mem_resize_node_heap env_zero pool_arena_full) = gap_ix pool_arena_full
  /\ gap_ix_capacity (_mem_resize_node_heap env_zero pool_arena_full)
     = gap_ix_capacity pool_arena_full.
Proof.
  apply (X5_arena_grows_when_full env_zero pool_arena_full).
  - vm_compute. split; reflexivity.
  - vm_compute. discriminate.
Defined.

(** ** A request that no gap can hold *)

Lemma first_fit_scan_no_fit h sz n i a0 :
  (forall k, (i <= k < i + n)%nat -> fits sz (rd h k) = false) ->
  first_fit_scan h sz n i a0 = match n with O => a0 | S n' => Some (i + n')%nat end.
Proof.
  revert i a0. induction n as [|n IH]; intros i a0 Hno; [reflexivity|].
  simpl. pose proof (Hno i ltac:(lia)) as Hi. unfold fits in Hi. rewrite Hi.
  rewrite IH by (intros k Hk; apply Hno; lia).
  destruct n; f_equal; lia.
Qed.

(** X6: under FIRST_FIT, when no record of the arena is a used gap that can
    hold the request, the scan ends on the last record of the arena and the
    check that follows looks at the size of that record only: the request
    is refused, with the pool left as the growth check left it, when the
    last record is smaller than the request, and the last record is chosen
    otherwise. *)
Theorem X6_first_fit_without_fit (e : env) (pm : pool_mgr_t) (sz : Z) :
  policy (pool pm) = FIRST_FIT ->
  num_gaps (pool pm) <> 0 ->
  0 < total_nodes (_mem_resize_node_heap e pm) ->
  (forall k, (k < Z.to_nat (total_nodes (_mem_resize_node_heap e pm)))%nat ->
     fits sz (rd (node_heap (_mem_resize_node_heap e pm)) k) = false) ->
  select_node e (_mem_resize_node_heap e pm) sz
  = (if size (alloc_record
               (rd (node_heap (_mem_resize_node_heap e pm))
                   (Z.to_nat (total_nodes (_mem_resize_node_heap e pm)) - 1))) <? sz
     then None
     else Some (Z.to_nat (total_nodes (_mem_resize_node_heap e pm)) - 1)%nat)
  /\ (size (alloc_record
              (rd (node_heap (_mem_resize_node_heap e pm))
                  (Z.to_nat (total_nodes (_mem_resize_node_heap e pm)) - 1))) < sz
      -> mem_new_alloc e pm sz = (None, _mem_resize_node_heap e pm)).
Proof.
  intros Hpol Hgaps Htotal Hno.
  set (pm0 := _mem_resize_node_heap e pm) in *.
  assert (Hpol0 : policy (pool pm0) = FIRST_FIT).
  { unfold pm0. destruct (resize_node_heap_frame e pm) as (-> & _). exact Hpol. }
  assert (Hsel : select_node e pm0 sz
                 = (if size (alloc_record (rd (node_heap pm0)
                                              (Z.to_nat (total_nodes pm0) - 1))) <? sz
                    then None else Some (Z.to_nat (total_nodes pm0) - 1)%nat)).
  { unfold select_node. rewrite Hpol0.
    rewrite first_fit_scan_no_fit by (intros k Hk; apply Hno; lia).
    destruct (Z.to_nat (total_nodes pm0)) as [|n'] eqn:En; [lia|].
    cbn [deref]. replace (S n' - 1)%nat with (0 + n')%nat by lia. reflexivity. }
  split; [exact Hsel|].
  intros Hsmall. unfold mem_new_alloc.
  destruct (num_gaps (pool pm) =? 0) eqn:E0; [apply Z.eqb_eq in E0; contradiction|].
  cbv zeta. fold pm0. rewrite Hsel.
  destruct (_ <? sz) eqn:E; [reflexivity | apply Z.ltb_ge in E; lia].
Qed.

(** X6, witness: a request for 2000 bytes to a pool of 1000 bytes that has
    just been opened. *)
Lemma X6_witness :
  select_node env_zero (_mem_resize_node_heap env_zero (pool_mgr_open 1000 1000 FIRST_FIT)) 2000
  = (if size (alloc_record
               (rd (node_heap (_mem_resize_node_heap env_zero (pool_mgr_open 1000 1000 FIRST_FIT)))
                   (Z.to_nat (total_nodes
                      (_mem_resize_node_heap env_zero (pool_mgr_open 1000 1000 FIRST_FIT))) - 1)))
        <? 2000
     then None
     else Some (Z.to_nat (total_nodes
                  (_mem_resize_node_heap env_zero (pool_mgr_open 1000 1000 FIRST_FIT))) - 1)%nat)
  /\ (size (alloc_record
              (rd (node_heap (_mem_resize_node_heap env_zero (pool_mgr_open 1000 1000 FIRST_FIT)))
                  (Z.to_nat (total_nodes
                     (_mem_resize_node_heap env_zero (pool_mgr_open 1000 1000 FIRST_FIT))) - 1)))
      < 2000
      -> mem_new_alloc env_zero (pool_mgr_open 1000 1000 FIRST_FIT) 2000
         = (None, _mem_resize_node_heap env_zero (pool_mgr_open 1000 1000 FIRST_FIT))).
Proof.
  apply (X6_first_fit_without_fit env_zero (pool_mgr_open 1000 1000 FIRST_FIT) 2000).
  - reflexivity.
  - vm_compute. discriminate.
  - vm_compute. reflexivity.
  - intros k Hk.
    assert (Hall : forallb (fun a => negb (fits 2000 a))
                     (node_heap (_mem_resize_node_heap env_zero
                                   (pool_mgr_open 1000 1000 FIRST_FIT))) = true)
      by (vm_compute; reflexivity).
    unfold rd.
    destruct (node_heap (_mem_resize_node_heap env_zero (pool_mgr_open 1000 1000 FIRST_FIT))
                !! k) as [x|] eqn:Ex; [|reflexivity].
    apply negb_true_iff. exact (forallb_lookup _ _ _ _ Hall Ex).
Defined.

Lemma best_fit_scan_no_fit e ix sz n j :
  (forall k, (j <= k < j + n)%nat -> gap_size (ix_rd e ix k) < sz) ->
  best_fit_scan e ix sz n j = None.
Proof.
  revert j. induction n as [|n IH]; intros j Hno; [reflexivity|].
  simpl. pose proof (Hno j ltac:(lia)) as Hj.
  destruct (sz <=? _) eqn:E; [apply Z.leb_le in E; lia|].
  apply IH. intros k Hk. apply Hno. lia.
Qed.

(** X7: under BEST_FIT, when every cell of the gap index is smaller than the
    request, [mem_new_alloc] returns [NULL] and changes nothing but what the
    growth check of the arena changes. *)
Theorem X7_best_fit_without_fit (e : env) (pm : pool_mgr_t) (sz : Z) :
  policy (pool pm) = BEST_FIT ->
  length (gap_ix pm) = Z.to_nat (gap_ix_capacity pm) ->
  (forall i g, gap_ix pm !! i = Some g -> gap_size g < sz) ->
  mem_new_alloc e pm sz
  = (None, if num_gaps (pool pm) =? 0 then pm else _mem_resize_node_heap e pm).
Proof.
  intros Hpol Hlen Hno. unfold mem_new_alloc.
  destruct (num_gaps (pool pm) =? 0); [reflexivity|]. cbv zeta.
  destruct (resize_node_heap_frame e pm) as (Hp & Hg & Hc).
  assert (Hsel : select_node e (_mem_resize_node_heap e pm) sz = None).
  { unfold select_node. rewrite Hp, Hg, Hc, Hpol.
    apply best_fit_scan_no_fit. intros k Hk.
    destruct (lookup_lt_is_Some_2 (gap_ix pm) k) as [g Hgk]; [lia|].
    unfold ix_rd. rewrite Hgk. simpl. exact (Hno k g Hgk). }
  rewrite Hsel. reflexivity.
Qed.

(** X7, witness: 50 bytes asked of the pool whose gaps are of 30 and 40
    bytes. *)
Lemma X7_witness :
  mem_new_alloc env_zero pool_two_gaps 50
  = (None, if num_gaps (pool pool_two_gaps) =? 0 then pool_two_gaps
           else _mem_resize_node_heap env_zero pool_two_gaps).
Proof.
  apply (X7_best_fit_without_fit env_zero pool_two_gaps 50).
  - vm_compute. reflexivity.
  - vm_compute. reflexivity.
  - intros i g Hg.
    assert (Hall : forallb (fun g => gap_size g <? 50) (gap_ix pool_two_gaps) = true)
      by (vm_compute; reflexivity).
    apply Z.ltb_lt. exact (forallb_lookup _ _ _ _ Hall Hg).
Defined.

(** ** The pool store *)

Lemma slot_in_use_false s n i :
  slot_in_use s n i = false <->
  forall k, (i <= k < i + n)%nat -> mjoin (s !! k) = None.
Proof.
  revert i. induction n as [|n IH]; intros i; simpl.
  - split; [intros _ k Hk; lia | reflexivity].
  - destruct (decide _) as [Heq|Hne].
    + rewrite IH. split.
      * intros H k Hk. destruct (decide (k = i)) as [->|]; [exact Heq | apply H; lia].
      * intros H k Hk. apply H. lia.
    + split; [discriminate|]. intros H. exfalso. apply Hne, H. lia.
Qed.

Lemma slot_in_use_true s n i :
  slot_in_use s n i = true ->
  exists k p, (i <= k < i + n)%nat /\ s !! k = Some (Some p).
Proof.
  revert i. induction n as [|n IH]; intros i; simpl; [discriminate|].
  destruct (decide _) as [Heq|Hne].
  - intros H. destruct (IH _ H) as (k & p & Hk & Hp). exists k, p. split; [lia | exact Hp].
  - intros _. destruct (s !! i) as [[p|]|] eqn:E; simpl in Hne; try contradiction.
    exists i, p. split; [lia | exact E].
Qed.

(** X9: [mem_free] returns [ALLOC_OK] exactly when the store is allocated
    and each of its first [pool_store_size] slots is [NULL]; it then gives
    the store back and resets the three static variables.  Before
    [mem_init] it returns [ALLOC_CALLED_AGAIN], with a pool still
    registered [ALLOC_FAIL], and in both cases it changes nothing. *)
Theorem X9_free_needs_every_pool_closed (w : world) :
  (fst (mem_free w) = ALLOC_OK
   <-> exists s, pool_store w = Some s
                 /\ forall i, (i < Z.to_nat (pool_store_size w))%nat -> mjoin (s !! i) = None)
  /\ (fst (mem_free w) = ALLOC_OK -> snd (mem_free w) = mk_world None 0 0 (mgrs w) (live w))
  /\ (fst (mem_free w) = ALLOC_CALLED_AGAIN <-> pool_store w = None)
  /\ (fst (mem_free w) = ALLOC_FAIL
      <-> exists s i p, pool_store w = Some s
                        /\ (i < Z.to_nat (pool_store_size w))%nat /\ s !! i = Some (Some p))
  /\ (fst (mem_free w) <> ALLOC_OK -> snd (mem_free w) = w).
Proof.
  unfold mem_free. destruct (pool_store w) as [s|] eqn:Es.
  - destruct (slot_in_use s (Z.to_nat (pool_store_size w)) 0) eqn:E; cbn [fst snd].
    + destruct (slot_in_use_true _ _ _ E) as (i & p & Hi & Hp).
      split. { split; [discriminate|]. intros (s' & [= <-] & Hall).
               specialize (Hall i ltac:(lia)). rewrite Hp in Hall. discriminate. }
      split; [discriminate|]. split; [split; discriminate|].
      split; [|reflexivity].
      split; [|reflexivity]. intros _. exists s, i, p. repeat split; [lia | exact Hp].
    + pose proof (proj1 (slot_in_use_false _ _ _) E) as Hall.
      split. { split; [|reflexivity]. intros _. exists s. split; [reflexivity|].
               intros i Hi. apply Hall. lia. }
      split; [reflexivity|]. split; [split; discriminate|].
      split; [|intros H; contradiction].
      split; [discriminate|]. intros (s' & i & p & [= <-] & Hi & Hp).
      specialize (Hall i ltac:(lia)). rewrite Hp in Hall. discriminate.
  - cbn [fst snd].
    split. { split; [discriminate|]. intros (s & Hs & _). discriminate. }
    split; [discriminate|]. split; [split; reflexivity|].
    split; [|reflexivity].
    split; [discriminate|]. intros (s & i & p & Hs & _). discriminate.
Qed.

Lemma filter_other_block (b : block) (l : list block) :
  b ∉ l -> filter (fun b' => b' ≠ b) l = l.
Proof.
  intros Hb. induction l as [|x l IH]; [reflexivity|].
  apply not_elem_of_cons in Hb as [Hx Hl].
  rewrite filter_cons_True by congruence. f_equal. apply IH, Hl.
Qed.

Lemma free_other b w : b ∉ live w -> free b w = w.
Proof. intros Hb. destruct w. unfold free. simpl in *. f_equal. apply filter_other_block, Hb. Qed.

(** The growth check of the store leaves room for one more slot. *)
Lemma resize_pool_store_room fresh w s :
  pool_store w = Some s ->
  length s = Z.to_nat (pool_store_capacity w) ->
  0 <= pool_store_size w <= pool_store_capacity w ->
  0 < pool_store_capacity w < 2 ^ 31 ->
  exists s',
    pool_store (_mem_resize_pool_store fresh w) = Some s'
    /\ pool_store_capacity (_mem_resize_pool_store fresh w)
       = (if pool_store_size w <? pool_store_capacity w then pool_store_capacity w
          else 2 * pool_store_capacity w)
    /\ length s' = Z.to_nat (pool_store_capacity (_mem_resize_pool_store fresh w))
    /\ pool_store_size (_mem_resize_pool_store fresh w) = pool_store_size w
    /\ pool_store_size w < pool_store_capacity (_mem_resize_pool_store fresh w)
    /\ (forall i, (i < length s)%nat -> s' !! i = s !! i)
    /\ mgrs (_mem_resize_pool_store fresh w) = mgrs w
    /\ live (_mem_resize_pool_store fresh w) = live w.
Proof.
  intros Hs Hlen Hsize Hcap. unfold _mem_resize_pool_store.
  destruct (Z.ltb_spec (pool_store_size w) (pool_store_capacity w)) as [Hlt|Hfull].
  - destruct (exceeds_fill _ _ _) eqn:E.
    { apply exceeds_fill_three_quarters in E; lia. }
    exists s. repeat split; try assumption; lia.
  - assert (E : exceeds_fill MEM_POOL_STORE_FILL_FACTOR (pool_store_size w)
                  (pool_store_capacity w) = true).
    { apply exceeds_fill_three_quarters; lia. }
    rewrite E. cbv zeta.
    assert (Hw : wrap32 (MEM_POOL_STORE_EXPAND_FACTOR * pool_store_capacity w)
                 = 2 * pool_store_capacity w).
    { unfold wrap32, MEM_POOL_STORE_EXPAND_FACTOR. apply Z.mod_small. lia. }
    rewrite Hw, Hs. cbn [pool_store pool_store_capacity pool_store_size mgrs live fmap option_fmap option_map].
    eexists. split; [reflexivity|].
    split; [reflexivity|]. split; [apply length_realloc|].
    split; [reflexivity|]. split; [lia|].
    split; [intros i Hi; apply lookup_realloc_old; lia|].
    split; reflexivity.
Qed.

(** The registration of a pool by [mem_pool_open]. *)
Lemma open_registers (fresh : nat -> option nat) (p : nat) (base : Z)
    (w : world) (sz : Z) (pol : alloc_policy) (s : list (option nat)) :
  pool_store w = Some s ->
  length s = Z.to_nat (pool_store_capacity w) ->
  0 <= pool_store_size w <= pool_store_capacity w ->
  0 < pool_store_capacity w < 2 ^ 31 ->
  base <> 0 ->
  exists s' w',
    mem_pool_open fresh (Some p) base w sz pol = (Some p, w')
    /\ pool_store w' = Some s'
    /\ pool_store_capacity w'
       = (if pool_store_size w <? pool_store_capacity w then pool_store_capacity w
          else 2 * pool_store_capacity w)
    /\ length s' = Z.to_nat (pool_store_capacity w')
    /\ pool_store_size w' = pool_store_size w + 1
    /\ pool_store_size w' <= pool_store_capacity w'
    /\ s' !! Z.to_nat (pool_store_size w) = Some (Some p)
    /\ (forall i, (i < Z.to_nat (pool_store_size w))%nat -> s' !! i = s !! i)
    /\ mgrs w' = <[p := pool_mgr_open base sz pol]> (mgrs w)
    /\ live w' = blocks_of p ++ live w.
Proof.
  intros Hs Hlen Hsize Hcap Hbase.
  destruct (resize_pool_store_room fresh w s Hs Hlen Hsize Hcap)
    as (s0 & Hs0 & Hcap0 & Hlen0 & Hsize0 & Hroom & Hold & Hm0 & Hl0).
  unfold mem_pool_open. rewrite Hs.
  set (w0 := _mem_resize_pool_store fresh w) in *.
  destruct (base =? 0) eqn:E; [apply Z.eqb_eq in E; contradiction|].
  rewrite Hs0, Hsize0, Hm0, Hl0. cbn [fmap option_fmap option_map].
  eexists. eexists. split; [reflexivity|].
  cbn [pool_store pool_store_capacity pool_store_size mgrs live].
  split; [reflexivity|]. split; [exact Hcap0|].
  split; [rewrite length_insert; exact Hlen0|].
  assert (Hw : wrap32 (pool_store_size w + 1) = pool_store_size w + 1).
  { unfold wrap32. apply Z.mod_small. lia. }
  rewrite Hw. split; [reflexivity|]. split; [lia|].
  split; [apply list_lookup_insert_eq; lia|].
  split; [|split; reflexivity].
  intros i Hi. rewrite list_lookup_insert_ne by lia. apply Hold. lia.
Qed.

(** X10: with the store allocated and its size within its capacity, a
    [mem_pool_open] whose allocations succeed returns the address of the
    new pool manager and writes it in the slot [pool_store_size], which lies
    inside the array: a store that is full is doubled first.  The slots
    written before keep their content, the size grows by one, and the new
    pool manager is the one of a pool with a single gap. *)
Theorem X10_open_registers_in_bounds (fresh : nat -> option nat) (p : nat) (base : Z)
    (w : world) (sz : Z) (pol : alloc_policy) (s : list (option nat)) :
  pool_store w = Some s ->
  length s = Z.to_nat (pool_store_capacity w) ->
  0 <= pool_store_size w <= pool_store_capacity w ->
  0 < pool_store_capacity w < 2 ^ 31 ->
  base <> 0 ->
  exists s' w',
    mem_pool_open fresh (Some p) base w sz pol = (Some p, w')
    /\ pool_store w' = Some s'
    /\ pool_store_capacity w'
       = (if pool_store_size w <? pool_store_capacity w then pool_store_capacity w
          else 2 * pool_store_capacity w)
    /\ length s' = Z.to_nat (pool_store_capacity w')
    /\ pool_store_size w' = pool_store_size w + 1
    /\ pool_store_size w' <= pool_store_capacity w'
    /\ s' !! Z.to_nat (pool_store_size w) = Some (Some p)
    /\ (forall i, (i < Z.to_nat (pool_store_size w))%nat -> s' !! i = s !! i)
    /\ mgrs w' = <[p := pool_mgr_open base sz pol]> (mgrs w)
    /\ live w' = blocks_of p ++ live w.
Proof. apply open_registers. Qed.

(** X10, witness: the first pool after [mem_init]. *)
Lemma X10_witness :
  exists s' w',
    mem_pool_open (fun _ => None) (Some 7%nat) 4096 (snd (mem_init world_closed)) 1000 BEST_FIT
    = (Some 7%nat, w')
    /\ pool_store w' = Some s'
    /\ pool_store_capacity w'
       = (if pool_store_size (snd (mem_init world_closed))
             <? pool_store_capacity (snd (mem_init world_closed))
          then pool_store_capacity (snd (mem_init world_closed))
          else 2 * pool_store_capacity (snd (mem_init world_closed)))
    /\ length s' = Z.to_nat (pool_store_capacity w')
    /\ pool_store_size w' = pool_store_size (snd (mem_init world_closed)) + 1
    /\ pool_store_size w' <= pool_store_capacity w'
    /\ s' !! Z.to_nat (pool_store_size (snd (mem_init world_closed))) = Some (Some 7%nat)
    /\ (forall i, (i < Z.to_nat (pool_store_size (snd (mem_init world_closed))))%nat ->
          s' !! i = replicate 20 None !! i)
    /\ mgrs w' = <[7%nat := pool_mgr_open 4096 1000 BEST_FIT]> (mgrs (snd (mem_init world_closed)))
    /\ live w' = blocks_of 7 ++ live (snd (mem_init world_closed)).
Proof.
  apply (X10_open_registers_in_bounds (fun _ => None) 7 4096 (snd (mem_init world_closed))
           1000 BEST_FIT (replicate 20 None)).
  - reflexivity.
  - reflexivity.
  - vm_compute. split; discriminate.
  - vm_compute. split; reflexivity.
  - discriminate.
Defined.

(** X11: from a world without a store, [mem_init], a [mem_pool_open] whose
    allocations succeed, [mem_pool_close] of the handle it returned and
    [mem_free] all succeed, and they leave the pool managers and the blocks
    that were there before, the store given back and the static variables
    reset; the blocks of the new pool manager are freed. *)
Theorem X11_open_close_free (fresh : nat -> option nat) (p : nat) (base : Z)
    (w : world) (sz : Z) (pol : alloc_policy) :
  pool_store w = None -> base <> 0 -> mgrs w !! p = None ->
  (forall b, b ∈ blocks_of p -> b ∉ live w) ->
  exists w1 w2 w3,
    mem_init w = (ALLOC_OK, w1)
    /\ mem_pool_open fresh (Some p) base w1 sz pol = (Some p, w2)
    /\ mem_pool_close w2 (Some p) = Some (ALLOC_OK, w3)
    /\ (forall b, b ∈ blocks_of p -> b ∉ live w3)
    /\ mem_free w3 = (ALLOC_OK, mk_world None 0 0 (mgrs w) (live w)).
Proof.
  intros Hs Hbase Hp Hfresh.
  unfold mem_init. rewrite Hs.
  set (w1 := mk_world (Some (replicate (Z.to_nat MEM_POOL_STORE_INIT_CAPACITY) None)) 0
               MEM_POOL_STORE_INIT_CAPACITY (mgrs w) (live w)).
  destruct (open_registers fresh p base w1 sz pol
              (replicate (Z.to_nat MEM_POOL_STORE_INIT_CAPACITY) None))
    as (s2 & w2 & Hopen & Hs2 & Hcap2 & Hlen2 & Hsize2 & _ & Hslot & _ & Hm2 & Hl2);
    [reflexivity | reflexivity | (vm_compute; split; discriminate)
     | (vm_compute; split; reflexivity) | exact Hbase |].
  exists w1, w2. eexists. split; [reflexivity|]. split; [exact Hopen|].
  assert (Hs2' : s2 = <[0%nat := Some p]> (replicate 20 None)).
  { revert Hopen. unfold mem_pool_open. cbn [pool_store w1].
    destruct (base =? 0) eqn:E; [apply Z.eqb_eq in E; contradiction|].
    intros [= <-]. cbn [pool_store] in Hs2. injection Hs2 as <-. reflexivity. }
  change (pool_store_size w1) with 0 in Hsize2. change (pool_store_capacity w1) with 20 in Hcap2.
  change (mgrs w1) with (mgrs w) in Hm2. change (live w1) with (live w) in Hl2.
  simpl in Hcap2, Hsize2.
  assert (Hlk : mgrs w2 !! p = Some (pool_mgr_open base sz pol)).
  { rewrite Hm2. apply lookup_insert_eq. }
  unfold mem_pool_close. rewrite Hlk.
  rewrite decide_False by (intros H; apply H; reflexivity).
  rewrite decide_False by (intros H; apply H; reflexivity).
  split; [reflexivity|].
  destruct w2 as [ps2 sz2 cap2 m2 l2].
  cbn [pool_store pool_store_size pool_store_capacity mgrs live] in *.
  subst ps2 sz2 cap2 m2 l2.
  assert (Hlive : filter (fun b' => b' ≠ Mgr p)
                    (filter (fun b' => b' ≠ GapIx p)
                       (filter (fun b' => b' ≠ NodeHeap p)
                          (filter (fun b' => b' ≠ Region p) (blocks_of p ++ live w))))
                  = live w).
  { unfold blocks_of. simpl app.
    rewrite (filter_cons_True _ (Mgr p)) by discriminate.
    rewrite (filter_cons_False _ (Region p)) by (intros H; apply H; reflexivity).
    rewrite (filter_cons_True _ (NodeHeap p)) by discriminate.
    rewrite (filter_cons_True _ (GapIx p)) by discriminate.
    rewrite (filter_other_block (Region p)) by (apply Hfresh; unfold blocks_of; set_solver).
    rewrite (filter_cons_True _ (Mgr p)) by discriminate.
    rewrite (filter_cons_False _ (NodeHeap p)) by (intros H; apply H; reflexivity).
    rewrite (filter_cons_True _ (GapIx p)) by discriminate.
    rewrite (filter_other_block (NodeHeap p)) by (apply Hfresh; unfold blocks_of; set_solver).
    rewrite (filter_cons_True _ (Mgr p)) by discriminate.
    rewrite (filter_cons_False _ (GapIx p)) by (intros H; apply H; reflexivity).
    rewrite (filter_other_block (GapIx p)) by (apply Hfresh; unfold blocks_of; set_solver).
    rewrite (filter_cons_False _ (Mgr p)) by (intros H; apply H; reflexivity).
    apply filter_other_block. apply Hfresh. unfold blocks_of. set_solver. }
  unfold free, with_pool_store.
  cbn [pool_store pool_store_size pool_store_capacity mgrs live fmap option_fmap option_map].
  rewrite Hlive.
  split; [exact Hfresh|].
  unfold mem_free. cbn [pool_store pool_store_size pool_store_capacity mgrs live].
  rewrite Hs2'.
  change (Z.to_nat 20) with 20%nat. cbn [clear_slot].
  rewrite decide_True by reflexivity.
  change (Z.to_nat (0 + 1)) with 1%nat. cbn [slot_in_use].
  rewrite decide_True by reflexivity.
  rewrite delete_insert_eq, delete_id by exact Hp.
  reflexivity.
Qed.

(** X11, witness: one pool whose manager is at address 7. *)
Lemma X11_witness :
  exists w1 w2 w3,
    mem_init world_closed = (ALLOC_OK, w1)
    /\ mem_pool_open (fun _ => None) (Some 7%nat) 4096 w1 1000 BEST_FIT = (Some 7%nat, w2)
    /\ mem_pool_close w2 (Some 7%nat) = Some (ALLOC_OK, w3)
    /\ (forall b, b ∈ blocks_of 7 -> b ∉ live w3)
    /\ mem_free w3 = (ALLOC_OK, mk_world None 0 0 (mgrs world_closed) (live world_closed)).
Proof.
  apply (X11_open_close_free (fun _ => None) 7 4096 world_closed 1000 BEST_FIT).
  - reflexivity.
  - discriminate.
  - reflexivity.
  - intros b _. apply not_elem_of_nil.
Defined.

(** ** A pool that has just been opened *)

(** X12: the pool manager that [mem_pool_open] builds for a region of
    positive size satisfies the invariants at rest, and [mem_inspect_pool]
    reports one segment, a gap of the size of the region, and the count
    one. *)
Theorem X12_open_pool_at_rest (base sz : Z) (pol : alloc_policy) (fuel : nat) :
  0 < sz ->
  at_rest (pool_mgr_open base sz pol) = true
  /\ segments (pool_mgr_open base sz pol) = [(base, sz, false)]
  /\ counters (pool_mgr_open base sz pol) = (0, 1, 0)
  /\ mem_inspect_pool (S fuel) (pool_mgr_open base sz pol) = ([(sz, false)], 1).
Proof.
  intros Hsz.
  split; [|split; [reflexivity|split; [reflexivity|]]].
  - unfold at_rest. cbv zeta.
    change (segment_ids (pool_mgr_open base sz pol)) with [0%nat].
    change (segments (pool_mgr_open base sz pol)) with [(base, sz, false)].
    change (node_heap (pool_mgr_open base sz pol))
      with (mk_node (mk_alloc sz base) true false None None :: replicate 39 node_zero).
    change (gap_ix (pool_mgr_open base sz pol))
      with (mk_gap sz (Some 0%nat) :: replicate 39 gap_zero).
    cbn [pool pool_mgr_open num_gaps num_allocs alloc_size total_size pool_mem total_nodes
         used_nodes gap_ix_capacity].
    change (Z.to_nat 1) with 1%nat.
    repeat (apply andb_true_intro; split);
      try reflexivity; try (apply bool_decide_eq_true_2; reflexivity); simpl.
    + apply Z.eqb_refl.
    + apply Z.ltb_lt, Hsz.
    + apply Z.eqb_refl.
    + apply Z.eqb_eq. lia.
  - unfold mem_inspect_pool. cbn [walk].
    change (next (rd (node_heap (pool_mgr_open base sz pol)) 0)) with (@None nat).
    destruct fuel; reflexivity.
Qed.

(** X12, witness: a region of 1000 bytes. *)
Lemma X12_witness :
  at_rest (pool_mgr_open 4096 1000 BEST_FIT) = true
  /\ segments (pool_mgr_open 4096 1000 BEST_FIT) = [(4096, 1000, false)]
  /\ counters (pool_mgr_open 4096 1000 BEST_FIT) = (0, 1, 0)
  /\ mem_inspect_pool (S 0) (pool_mgr_open 4096 1000 BEST_FIT) = ([(1000, false)], 1).
Proof. apply (X12_open_pool_at_rest 4096 1000 BEST_FIT 0). reflexivity. Defined.

(** ** The round trip *)

(** X8: from a pool at rest with room in the arena and counters in range,
    when the candidate is a gap of the list that can hold the request, the
    allocation followed at once by the release of the handle returns
    [ALLOC_OK] and restores the segments and the three counters. *)
Theorem X8_round_trip_on_a_gap (e : env) (pm : pool_mgr_t) (sz : Z) (a : nat) :
  at_rest pm = true ->
  used_nodes pm < total_nodes pm ->
  gap_ix_capacity pm < 2 ^ 32 ->
  num_allocs (pool pm) < 2 ^ 32 ->
  0 <= alloc_size (pool pm) < 2 ^ 64 ->
  select_node e pm sz = Some a ->
  In a (segment_ids pm) -> allocated (rd (node_heap pm) a) = false ->
  0 <= sz <= size (alloc_record (rd (node_heap pm) a)) ->
  size (alloc_record (rd (node_heap pm) a)) < 2 ^ 64 ->
  fst (mem_new_alloc e pm sz) <> None ->
  exists pm1 pm2,
    mem_new_alloc e pm sz = (Some a, pm1)
    /\ mem_del_alloc e pm1 a = (ALLOC_OK, pm2)
    /\ segments pm2 = segments pm
    /\ counters pm2 = counters pm.
Proof. apply round_trip_at_rest. Qed.

(** X8, witness: 40 bytes out of the gap of 40 bytes of the pool with two
    gaps, the request that takes the whole gap. *)
Lemma X8_witness :
  exists pm1 pm2,
    mem_new_alloc env_zero pool_two_gaps 40 = (Some 2%nat, pm1)
    /\ mem_del_alloc env_zero pm1 2 = (ALLOC_OK, pm2)
    /\ segments pm2 = segments pool_two_gaps
    /\ counters pm2 = counters pool_two_gaps.
Proof.
  apply (X8_round_trip_on_a_gap env_zero pool_two_gaps 40 2);
    try (vm_compute; first [reflexivity | lia | congruence | (intros; discriminate)
                            | (repeat split; congruence) | tauto]).
Defined.

(** ** The records an operation leaves alone *)

Lemma record_of_set_next p n : record_of (set_next p n) = record_of n.
Proof. destruct n; reflexivity. Qed.
Lemma record_of_set_prev p n : record_of (set_prev p n) = record_of n.
Proof. destruct n; reflexivity. Qed.

(** Writes to other records and writes to the links keep [record_of]. *)
Ltac keep_record :=
  repeat first
    [ rewrite rd_wr_ne by congruence
    | rewrite (field_rd_wr record_of) by (intros []; reflexivity)
    | rewrite (field_rd_wr_p record_of) by (intros []; reflexivity) ].

Lemma absorb_next_record h d n j :
  next (rd h d) = Some n -> j <> d -> j <> n ->
  record_of (rd (absorb_next h d) j) = record_of (rd h j).
Proof.
  intros Hn Hjd Hjn. unfold absorb_next. cbv zeta.
  repeat first [ rewrite (field_rd_wr next) by (intros []; reflexivity)
               | rewrite (field_rd_wr_p next) by (intros []; reflexivity) ].
  rewrite !Hn. cbn [wr_p deref].
  repeat first [ rewrite (field_rd_wr next) by (intros []; reflexivity)
               | rewrite (field_rd_wr_p next) by (intros []; reflexivity) ].
  destruct (next (rd h n)) as [nn|]; cbn [wr_p]; keep_record; reflexivity.
Qed.

Lemma merge_next_record e pm d n j :
  next (rd (node_heap pm) d) = Some n -> j <> d -> j <> n ->
  record_of (rd (node_heap (merge_next e pm d)) j) = record_of (rd (node_heap pm) j).
Proof.
  intros Hn Hjd Hjn. unfold merge_next. simpl_pm.
  match goal with |- context [_mem_remove_from_gap_ix ?e ?p ?s ?n] =>
    destruct (outside_gap_ix_eq _ _ (remove_frame e p s n)) as (-> & _)
  end.
  apply (absorb_next_record _ _ n); assumption.
Qed.

Lemma merge_prev_record pm d p j :
  j <> d -> j <> p ->
  record_of (rd (node_heap (merge_prev pm d p)) j) = record_of (rd (node_heap pm) j).
Proof.
  intros Hjd Hjp. unfold merge_prev. simpl_pm.
  destruct (next (rd _ _)); keep_record; reflexivity.
Qed.

Lemma record_of_allocated n n' : record_of n' = record_of n -> allocated n' = allocated n.
Proof. unfold record_of. congruence. Qed.

(** The record behind the handle is left not allocated. *)
Lemma del_clears_allocated e pm d :
  allocated (rd (node_heap (snd (mem_del_alloc e pm d))) d) = false.
Proof.
  unfold mem_del_alloc.
  set (pm1 := with_pool _ (with_pool _ (with_node_heap _ pm))).
  assert (Ha : allocated (rd (node_heap pm1) d) = false).
  { subst pm1. simpl_pm. rewrite rd_wr. case_decide as Hd; [reflexivity|].
    unfold rd. rewrite lookup_ge_None_2; [reflexivity|]. lia. }
  clearbody pm1.
  set (pm2 := match next (rd (node_heap pm1) d) with
              | Some n => if allocated (rd (node_heap pm1) n) then pm1 else merge_next e pm1 d
              | None => pm1 end).
  assert (Ha2 : allocated (rd (node_heap pm2) d) = false).
  { subst pm2. destruct (next (rd (node_heap pm1) d)) as [n|]; [|exact Ha].
    destruct (allocated (rd (node_heap pm1) n)); [exact Ha|].
    rewrite merge_next_allocated. exact Ha. }
  clearbody pm2.
  assert (Hadd : forall pm' sz node,
            node_heap (snd (_mem_add_to_gap_ix e pm' sz node)) = node_heap pm').
  { intros pm' sz node.
    destruct (outside_gap_ix_eq _ _ (add_frame e pm' sz node)) as (-> & _). reflexivity. }
  destruct (prev (rd (node_heap pm2) d)) as [p|]; [|rewrite Hadd; exact Ha2].
  destruct (allocated (rd (node_heap pm2) p)); [rewrite Hadd; exact Ha2|].
  destruct (_mem_remove_from_gap_ix e pm2 _ (Some p)) as [st pm3] eqn:Hrm.
  pose proof (remove_frame e pm2 (size (alloc_record (rd (node_heap pm2) p))) (Some p)) as Hf.
  rewrite Hrm in Hf. simpl in Hf.
  destruct (outside_gap_ix_eq _ _ Hf) as (Hh & _).
  destruct (decide (st = ALLOC_FAIL)); [simpl; rewrite Hh; exact Ha2|].
  rewrite Hadd, merge_prev_allocated, Hh. exact Ha2.
Qed.

(** X13: [mem_del_alloc] of a handle leaves every other allocated record as
    it is: its base address, its size and its flags are those it had, with
    any handle and in any state of the pool; the record behind the handle
    is left not allocated. *)
Theorem X13_release_keeps_other_allocations (e : env) (pm : pool_mgr_t) (d j : nat) :
  j <> d -> allocated (rd (node_heap pm) j) = true ->
  record_of (rd (node_heap (snd (mem_del_alloc e pm d))) j) = record_of (rd (node_heap pm) j)
  /\ allocated (rd (node_heap (snd (mem_del_alloc e pm d))) d) = false.
Proof.
  intros Hjd Hj. split; [|apply del_clears_allocated]. unfold mem_del_alloc.
  set (pm1 := with_pool _ (with_pool _ (with_node_heap _ pm))).
  assert (H1 : record_of (rd (node_heap pm1) j) = record_of (rd (node_heap pm) j)).
  { subst pm1. simpl_pm. keep_record. reflexivity. }
  clearbody pm1.
  set (pm2 := match next (rd (node_heap pm1) d) with
              | Some n => if allocated (rd (node_heap pm1) n) then pm1 else merge_next e pm1 d
              | None => pm1 end).
  assert (H2 : record_of (rd (node_heap pm2) j) = record_of (rd (node_heap pm) j)).
  { subst pm2. destruct (next (rd (node_heap pm1) d)) as [n|] eqn:En; [|exact H1].
    destruct (allocated (rd (node_heap pm1) n)) eqn:Ea; [exact H1|].
    rewrite <- H1. apply (merge_next_record _ _ _ n); [exact En | exact Hjd |].
    intros ->. apply record_of_allocated in H1. congruence. }
  clearbody pm2.
  assert (Hadd : forall pm' sz node,
            node_heap (snd (_mem_add_to_gap_ix e pm' sz node)) = node_heap pm').
  { intros pm' sz node.
    destruct (outside_gap_ix_eq _ _ (add_frame e pm' sz node)) as (-> & _). reflexivity. }
  destruct (prev (rd (node_heap pm2) d)) as [p|] eqn:Ep; [|rewrite Hadd; exact H2].
  destruct (allocated (rd (node_heap pm2) p)) eqn:Ea; [rewrite Hadd; exact H2|].
  destruct (_mem_remove_from_gap_ix e pm2 _ (Some p)) as [st pm3] eqn:Hrm.
  pose proof (remove_frame e pm2 (size (alloc_record (rd (node_heap pm2) p))) (Some p)) as Hf.
  rewrite Hrm in Hf. simpl in Hf.
  destruct (outside_gap_ix_eq _ _ Hf) as (Hh & _).
  destruct (decide (st = ALLOC_FAIL)); [simpl; rewrite Hh; exact H2|].
  rewrite Hadd. rewrite <- H2.
  rewrite merge_prev_record; [rewrite Hh; reflexivity | exact Hjd |].
  intros ->. apply record_of_allocated in H2. congruence.
Qed.

(** X13, witness: the release of the handle [node_heap[2]] in the pool
    whose arena order differs from the address order. *)
Lemma X13_witness :
  record_of (rd (node_heap (snd (mem_del_alloc env_zero pool_arena_order 2))) 0)
  = record_of (rd (node_heap pool_arena_order) 0)
  /\ allocated (rd (node_heap (snd (mem_del_alloc env_zero pool_arena_order 2))) 2) = false.
Proof.
  apply (X13_release_keeps_other_allocations env_zero pool_arena_order 2 0).
  - discriminate.
  - vm_compute. reflexivity.
Defined.

Lemma split_gap_record h a u sz remaining j :
  j <> a -> j <> u ->
  record_of (rd (split_gap h a u sz remaining) j) = record_of (rd h j).
Proof. intros Hja Hju. unfold split_gap. cbv zeta. keep_record. reflexivity. Qed.

(** X14: while the arena has a record left, [mem_new_alloc] leaves every
    record in use other than its candidate as it is: base address, size
    and flags are those it had.  The candidate, when it is a record in use,
    ends up allocated with the requested size at the base address it
    had. *)
Theorem X14_allocation_keeps_other_records (e : env) (pm : pool_mgr_t) (sz : Z) (j : nat) :
  0 <= used_nodes pm < total_nodes pm ->
  used (rd (node_heap pm) j) = true ->
  select_node e pm sz <> Some j ->
  record_of (rd (node_heap (snd (mem_new_alloc e pm sz))) j) = record_of (rd (node_heap pm) j)
  /\ (forall a, num_gaps (pool pm) <> 0 -> select_node e pm sz = Some a ->
        used (rd (node_heap pm) a) = true ->
        allocated (rd (node_heap (snd (mem_new_alloc e pm sz))) a) = true
        /\ alloc_record (rd (node_heap (snd (mem_new_alloc e pm sz))) a)
           = mk_alloc sz (mem (alloc_record (rd (node_heap pm) a)))).
Proof.
  intros Hroom Hused Hsel. split.
  2:{ intros a Hgaps Ha Hua.
      pose proof (mem_new_alloc_on_candidate e pm sz a Hgaps) as H.
      rewrite (resize_node_heap_below_capacity e pm Hroom) in H.
      destruct (H Ha) as (_ & _ & _ & Hrec). exact (Hrec Hua). }
  unfold mem_new_alloc.
  destruct (num_gaps (pool pm) =? 0); [reflexivity|].
  rewrite (resize_node_heap_below_capacity e pm Hroom).
  destruct (select_node e pm sz) as [a|]; [|reflexivity].
  assert (Hja : j <> a) by congruence.
  set (pm2 := with_pool _ (with_pool _ pm)).
  change (rd (node_heap pm2) a) with (rd (node_heap pm) a).
  pose proof (remove_frame e pm2 sz (Some a)) as Hf.
  destruct (outside_gap_ix_eq _ _ Hf) as (Hh & Htn & _).
  set (pm3 := snd (_mem_remove_from_gap_ix e pm2 sz (Some a))) in *. clearbody pm3.
  simpl in Hh, Htn. simpl_pm. rewrite Hh, Htn.
  set (hA := wr (wr (node_heap pm) a (set_allocated true)) a (set_size sz)).
  assert (HA : rd hA j = rd (node_heap pm) j) by (subst hA; keep_record; reflexivity).
  destruct (_ =? 0); [simpl_pm; rewrite HA; reflexivity|].
  destruct (find_unused hA _ 0) as [u|] eqn:Eu; [|simpl_pm; rewrite HA; reflexivity].
  apply find_unused_sound in Eu as [Eu _].
  assert (Hju : j <> u) by (intros ->; rewrite HA in Eu; congruence).
  cbn [fst snd].
  match goal with |- context [_mem_add_to_gap_ix ?e ?p ?s ?n] =>
    destruct (outside_gap_ix_eq _ _ (add_frame e p s n)) as (-> & _)
  end.
  simpl_pm. rewrite split_gap_record by assumption. rewrite HA. reflexivity.
Qed.

(** X14, witness: the allocation of 35 bytes in the pool with two gaps
    leaves the allocated record [node_heap[1]] alone. *)
Lemma X14_witness :
  record_of (rd (node_heap (snd (mem_new_alloc env_zero pool_two_gaps 35))) 1)
  = record_of (rd (node_heap pool_two_gaps) 1)
  /\ (forall a, num_gaps (pool pool_two_gaps) <> 0 ->
        select_node env_zero pool_two_gaps 35 = Some a ->
        used (rd (node_heap pool_two_gaps) a) = true ->
        allocated (rd (node_heap (snd (mem_new_alloc env_zero pool_two_gaps 35))) a) = true
        /\ alloc_record (rd (node_heap (snd (mem_new_alloc env_zero pool_two_gaps 35))) a)
           = mk_alloc 35 (mem (alloc_record (rd (node_heap pool_two_gaps) a)))).
Proof.
  apply (X14_allocation_keeps_other_records env_zero pool_two_gaps 35 1).
  - vm_compute. split; [discriminate | reflexivity].
  - vm_compute. reflexivity.
  - vm_compute. discriminate.
Defined.

(** ** The first record while the arena is not reallocated *)

Lemma head_inv_alloc_in_place e pm sz :
  0 <= used_nodes pm < total_nodes pm ->
  head_inv (node_heap pm) ->
  head_inv (node_heap (snd (mem_new_alloc e pm sz))).
Proof.
  intros Hroom H. unfold mem_new_alloc.
  destruct (num_gaps (pool pm) =? 0); [exact H|].
  rewrite (resize_node_heap_below_capacity e pm Hroom).
  destruct (select_node e pm sz) as [a|]; [|exact H].
  set (pm2 := with_pool _ (with_pool _ pm)).
  change (rd (node_heap pm2) a) with (rd (node_heap pm) a).
  pose proof (remove_frame e pm2 sz (Some a)) as Hf.
  destruct (outside_gap_ix_eq _ _ Hf) as (Hh & Htn & _).
  set (pm3 := snd (_mem_remove_from_gap_ix e pm2 sz (Some a))) in *. clearbody pm3.
  simpl in Hh, Htn. simpl_pm. rewrite Hh, Htn.
  set (h0 := wr (wr (node_heap pm) a (set_allocated true)) a (set_size sz)).
  assert (H0 : head_inv h0) by (subst h0; auto with head).
  clearbody h0.
  destruct (_ =? 0); [exact H0|].
  destruct (find_unused h0 _ 0) as [u|] eqn:Eu; [|exact H0].
  apply find_unused_sound in Eu as [Eu _].
  assert (Hu : u <> 0%nat).
  { intros ->. destruct H0 as (Hused & _). congruence. }
  cbn [fst snd].
  match goal with |- context [_mem_add_to_gap_ix ?e ?p ?s ?n] =>
    destruct (outside_gap_ix_eq _ _ (add_frame e p s n)) as (-> & _)
  end.
  simpl_pm. apply head_inv_split_gap; assumption.
Qed.

Lemma alloc_arena_in_place e pm sz :
  0 <= used_nodes pm < total_nodes pm ->
  total_nodes (snd (mem_new_alloc e pm sz)) = total_nodes pm
  /\ length (node_heap (snd (mem_new_alloc e pm sz))) = length (node_heap pm).
Proof.
  intros Hroom. unfold mem_new_alloc.
  destruct (num_gaps (pool pm) =? 0); [split; reflexivity|].
  rewrite (resize_node_heap_below_capacity e pm Hroom).
  destruct (select_node e pm sz) as [a|]; [|split; reflexivity].
  set (pm2 := with_pool _ (with_pool _ pm)).
  change (rd (node_heap pm2) a) with (rd (node_heap pm) a).
  pose proof (remove_frame e pm2 sz (Some a)) as Hf.
  destruct (outside_gap_ix_eq _ _ Hf) as (Hh & Htn & _).
  set (pm3 := snd (_mem_remove_from_gap_ix e pm2 sz (Some a))) in *. clearbody pm3.
  simpl in Hh, Htn. simpl_pm. rewrite Hh, Htn.
  destruct (_ =? 0); [simpl_pm; rewrite !length_wr; split; [exact Htn | reflexivity]|].
  destruct (find_unused _ _ 0) as [u|];
    [|simpl_pm; rewrite !length_wr; split; [exact Htn | reflexivity]].
  cbn [fst snd].
  match goal with |- context [_mem_add_to_gap_ix ?e ?p ?s ?n] =>
    destruct (outside_gap_ix_eq _ _ (add_frame e p s n)) as (-> & -> & _)
  end.
  simpl_pm. rewrite length_split_gap, !length_wr. split; [exact Htn | reflexivity].
Qed.

Lemma length_merge_prev pm d p :
  length (node_heap (merge_prev pm d p)) = length (node_heap pm).
Proof.
  unfold merge_prev. simpl_pm.
  destruct (next (rd _ _)); rewrite ?length_wr, ?length_wr_p, ?length_wr; reflexivity.
Qed.

Lemma del_arena_length e pm d :
  length (node_heap (snd (mem_del_alloc e pm d))) = length (node_heap pm).
Proof.
  unfold mem_del_alloc.
  set (pm1 := with_pool _ (with_pool _ (with_node_heap _ pm))).
  assert (H1 : length (node_heap pm1) = length (node_heap pm))
    by (subst pm1; simpl_pm; apply length_wr).
  rewrite <- H1. clearbody pm1.
  set (pm2 := match next (rd (node_heap pm1) d) with
              | Some n => if allocated (rd (node_heap pm1) n) then pm1 else merge_next e pm1 d
              | None => pm1 end).
  assert (H2 : length (node_heap pm2) = length (node_heap pm1)).
  { subst pm2. destruct (next (rd (node_heap pm1) d)) as [n|]; [|reflexivity].
    destruct (allocated _); [reflexivity|]. unfold merge_next. simpl_pm.
    match goal with |- context [_mem_remove_from_gap_ix ?e ?p ?s ?n] =>
      destruct (outside_gap_ix_eq _ _ (remove_frame e p s n)) as (-> & _)
    end. apply length_absorb_next. }
  rewrite <- H2. clearbody pm2.
  assert (Hadd : forall pm' sz node,
            node_heap (snd (_mem_add_to_gap_ix e pm' sz node)) = node_heap pm').
  { intros pm' sz node.
    destruct (outside_gap_ix_eq _ _ (add_frame e pm' sz node)) as (-> & _). reflexivity. }
  destruct (prev (rd (node_heap pm2) d)) as [p|]; [|rewrite Hadd; reflexivity].
  destruct (allocated (rd (node_heap pm2) p)); [rewrite Hadd; reflexivity|].
  destruct (_mem_remove_from_gap_ix e pm2 _ (Some p)) as [st pm3] eqn:Hrm.
  pose proof (remove_frame e pm2 (size (alloc_record (rd (node_heap pm2) p))) (Some p)) as Hf.
  rewrite Hrm in Hf. simpl in Hf.
  destruct (outside_gap_ix_eq _ _ Hf) as (Hh & _).
  destruct (decide (st = ALLOC_FAIL)); [simpl; rewrite Hh; reflexivity|].
  rewrite Hadd, length_merge_prev, Hh. reflexivity.
Qed.

(** X15: as long as no [mem_new_alloc] finds the arena full, the arena keeps
    its forty records and [node_heap[0]] stays the head of the list: it is
    in use, has no predecessor and is the successor of no record, whatever
    the sizes asked, the handles released and the content of the memory the
    program does not determine. *)
Theorem X15_first_record_stays_head (pm : pool_mgr_t) :
  fixed_arena pm ->
  total_nodes pm = MEM_NODE_HEAP_INIT_CAPACITY
  /\ length (node_heap pm) = Z.to_nat MEM_NODE_HEAP_INIT_CAPACITY
  /\ used (rd (node_heap pm) 0) = true
  /\ prev (rd (node_heap pm) 0) = None
  /\ (forall i, next (rd (node_heap pm) i) <> Some 0%nat).
Proof.
  induction 1 as [base sz pol | e pm sz _ (IHt & IHl & IH) Hroom | e pm d _ (IHt & IHl & IH)].
  - split; [reflexivity|]. split; [reflexivity|]. apply head_inv_open.
  - destruct (alloc_arena_in_place e pm sz Hroom) as [-> ->].
    split; [exact IHt|]. split; [exact IHl|].
    apply head_inv_alloc_in_place; assumption.
  - rewrite del_total_nodes, del_arena_length.
    split; [exact IHt|]. split; [exact IHl|]. apply head_inv_del, IH.
Qed.

(** X15, witness: a pool after one allocation and its release. *)
Lemma X15_witness :
  total_nodes (snd (mem_del_alloc env_zero
                      (snd (mem_new_alloc env_zero (pool_mgr_open 1000 1000 BEST_FIT) 100)) 0))
  = MEM_NODE_HEAP_INIT_CAPACITY
  /\ length (node_heap (snd (mem_del_alloc env_zero
               (snd (mem_new_alloc env_zero (pool_mgr_open 1000 1000 BEST_FIT) 100)) 0)))
     = Z.to_nat MEM_NODE_HEAP_INIT_CAPACITY
  /\ used (rd (node_heap (snd (mem_del_alloc env_zero
               (snd (mem_new_alloc env_zero (pool_mgr_open 1000 1000 BEST_FIT) 100)) 0))) 0)
     = true
  /\ prev (rd (node_heap (snd (mem_del_alloc env_zero
               (snd (mem_new_alloc env_zero (pool_mgr_open 1000 1000 BEST_FIT) 100)) 0))) 0)
     = None
  /\ (forall i, next (rd (node_heap (snd (mem_del_alloc env_zero
               (snd (mem_new_alloc env_zero (pool_mgr_open 1000 1000 BEST_FIT) 100)) 0))) i)
                <> Some 0%nat).
Proof.
  apply (X15_first_record_stays_head
           (snd (mem_del_alloc env_zero
                   (snd (mem_new_alloc env_zero (pool_mgr_open 1000 1000 BEST_FIT) 100)) 0))).
  apply fixed_del. apply fixed_alloc.
  - apply fixed_open.
  - vm_compute. split; [discriminate | reflexivity].
Defined.

(** ** The segment list, record by record *)

Lemma heap_inv_ascending exc lo hi h i x :
  heap_inv exc lo hi h -> used (rd h i) = true -> next (rd h i) = Some x ->
  base_of h i < base_of h x.
Proof.
  intros (_ & Hn & _ & _ & Hs & _) Hu Hx.
  destruct (Hn i x Hu Hx) as (_ & _ & ->). destruct (Hs i Hu). lia.
Qed.

Lemma heap_inv_no_loop exc lo hi h i :
  heap_inv exc lo hi h -> used (rd h i) = true -> next (rd h i) <> Some i.
Proof. intros H Hu Hx. pose proof (heap_inv_ascending _ _ _ _ _ _ H Hu Hx). lia. Qed.

(** No two neighbours of the walk are gaps. *)
Lemma heap_inv_no_adjacent_gaps lo hi h fuel i :
  heap_inv None lo hi h -> used (rd h i) = true ->
  adjacent_gaps (map (segment_of h) (walk h fuel (Some i))) = false.
Proof.
  intros H. revert i. induction fuel as [|fuel IH]; intros i Hu; [reflexivity|].
  cbn [walk map].
  destruct (next (rd h i)) as [x|] eqn:Ex; [|destruct fuel; reflexivity].
  pose proof H as (_ & Hn & _ & _ & _ & Hg).
  destruct (Hn i x Hu Ex) as (Hux & _).
  specialize (IH x Hux).
  destruct fuel as [|fuel]; [reflexivity|].
  cbn [walk map] in IH |- *. cbn [adjacent_gaps].
  cbn [adjacent_gaps] in IH. rewrite IH. rewrite orb_false_r.
  unfold segment_of. cbn [snd].
  destruct (allocated (rd h i)) eqn:Ei; [reflexivity|].
  rewrite (Hg i x Hu Ei Ex) by discriminate. reflexivity.
Qed.

(** The walk goes by ascending base addresses, each segment starting where
    the one before ends. *)
Lemma heap_inv_contiguous lo hi h fuel i :
  heap_inv None lo hi h -> used (rd h i) = true ->
  forall k s s',
    map (segment_of h) (walk h fuel (Some i)) !! k = Some s ->
    map (segment_of h) (walk h fuel (Some i)) !! S k = Some s' ->
    fst (fst s') = fst (fst s) + snd (fst s) /\ 0 < snd (fst s).
Proof.
  intros H. revert i. induction fuel as [|fuel IH]; intros i Hu k s s'; [discriminate|].
  cbn [walk map].
  destruct (next (rd h i)) as [x|] eqn:Ex.
  2:{ destruct fuel; destruct k; discriminate. }
  pose proof H as (_ & Hn & _ & _ & Hs & _).
  destruct (Hn i x Hu Ex) as (Hux & _ & Hb).
  destruct k as [|k].
  - cbn [lookup list_lookup]. intros [= <-].
    destruct fuel as [|fuel]; [discriminate|].
    cbn [walk map lookup list_lookup]. intros [= <-].
    unfold segment_of. cbn [fst snd]. fold (base_of h x) (base_of h i) (size_of h i).
    split; [exact Hb | apply Hs, Hu].
  - cbn [lookup list_lookup]. apply IH, Hux.
Qed.

(** The candidate takes the whole of its gap. *)
Lemma heap_inv_alloc_whole lo hi h a :
  heap_inv None lo hi h -> used (rd h a) = true ->
  heap_inv None lo hi (wr (wr h a (set_allocated true)) a (set_size (size_of h a))).
Proof.
  intros (Hh & Hn & He & Hp & Hs & Hg) Ha.
  pose proof (used_in_arena _ _ Ha) as Hlen.
  set (hf := wr (wr h a (set_allocated true)) a (set_size (size_of h a))).
  assert (Hrd : forall i, rd hf i = if decide (i = a) then set_allocated true (rd h a)
                                   else rd h i).
  { intros i. subst hf. destruct (decide (i = a)) as [->|Hia].
    - rewrite !rd_wr_same by (rewrite ?length_wr; exact Hlen).
      unfold size_of. destruct (rd h a) as [[? ?] ? ? ? ?]. reflexivity.
    - rewrite !rd_wr_ne by congruence. reflexivity. }
  clearbody hf.
  assert (Hview : forall i, used (rd hf i) = used (rd h i) /\ next (rd hf i) = next (rd h i)
                            /\ prev (rd hf i) = prev (rd h i)
                            /\ base_of hf i = base_of h i /\ size_of hf i = size_of h i).
  { intros i. unfold base_of, size_of. rewrite Hrd.
    destruct (decide (i = a)) as [->|]; [destruct (rd h a)|]; repeat split. }
  unfold heap_inv.
  split. { destruct (Hview 0%nat) as (-> & _ & -> & -> & _). exact Hh. }
  split. { intros i x Hu Hx.
           destruct (Hview i) as (Hui & Hni & _ & Hbi & Hsi).
           destruct (Hview x) as (Hux & _ & Hpx & Hbx & _).
           rewrite Hui in Hu. rewrite Hni in Hx. rewrite Hux, Hpx, Hbx, Hbi, Hsi.
           exact (Hn i x Hu Hx). }
  split. { intros i Hu Hx. destruct (Hview i) as (Hui & Hni & _ & Hbi & Hsi).
           rewrite Hui in Hu. rewrite Hni in Hx. rewrite Hbi, Hsi. exact (He i Hu Hx). }
  split. { intros x p Hu Hx.
           destruct (Hview x) as (Hux & _ & Hpx & _).
           destruct (Hview p) as (Hup & Hnp & _).
           rewrite Hux in Hu. rewrite Hpx in Hx. rewrite Hup, Hnp. exact (Hp x p Hu Hx). }
  split. { intros i Hu. destruct (Hview i) as (Hui & _ & _ & Hbi & Hsi).
           rewrite Hui in Hu. rewrite Hbi, Hsi. exact (Hs i Hu). }
  intros i x Hu Hgi Hx _ _.
  destruct (Hview i) as (Hui & Hni & _).
  rewrite Hui in Hu. rewrite Hni in Hx.
  rewrite Hrd in Hgi. rewrite Hrd.
  destruct (decide (x = a)) as [->|Hxa]; [destruct (rd h a); reflexivity|].
  destruct (decide (i = a)) as [->|Hia]; [destruct (rd h a); discriminate|].
  apply (Hg i x Hu Hgi Hx); discriminate.
Qed.

(** The records of the arena after the candidate [a] has been cut to [sz]
    bytes and the record [u] made the gap that follows it. *)
Lemma alloc_split_rd h a u sz i :
  (a < length h)%nat -> (u < length h)%nat -> u <> a ->
  next (rd h a) <> Some a -> next (rd h a) <> Some u ->
  (forall x, next (rd h a) = Some x -> (x < length h)%nat) ->
  rd (split_gap (wr (wr h a (set_allocated true)) a (set_size sz)) a u sz
        (size_of h a - sz)) i
  = if decide (i = a) then
      mk_node (mk_alloc sz (base_of h a)) (used (rd h a)) true (Some u) (prev (rd h a))
    else if decide (i = u) then
      mk_node (mk_alloc (size_of h a - sz) (base_of h a + sz)) true false
        (next (rd h a)) (Some a)
    else if decide (next (rd h a) = Some i) then set_prev (Some u) (rd h i)
    else rd h i.
Proof.
  intros Ha Hu Hua Hna Hnu Hx.
  set (hA := wr (wr h a (set_allocated true)) a (set_size sz)).
  assert (HAa : rd hA a = set_size sz (set_allocated true (rd h a))).
  { subst hA. rewrite !rd_wr_same by (rewrite ?length_wr; exact Ha). reflexivity. }
  assert (HAo : forall j, j <> a -> rd hA j = rd h j).
  { intros j Hj. subst hA. rewrite !rd_wr_ne by congruence. reflexivity. }
  assert (HAn : next (rd hA a) = next (rd h a)).
  { rewrite HAa. destruct (rd h a). reflexivity. }
  rewrite split_gap_rd;
    [| subst hA; rewrite !length_wr; assumption | subst hA; rewrite !length_wr; assumption
     | assumption | rewrite HAn; assumption | rewrite HAn; assumption
     | rewrite HAn; subst hA; rewrite !length_wr; assumption ].
  rewrite HAn.
  destruct (decide (i = a)) as [->|Hia].
  - rewrite HAa. unfold base_of. destruct (rd h a) as [[? ?] ? ? ? ?]. reflexivity.
  - destruct (decide (i = u)) as [->|Hiu].
    + rewrite HAa. unfold base_of. destruct (rd h a) as [[? ?] ? ? ? ?]. reflexivity.
    + rewrite (HAo i Hia). reflexivity.
Qed.

(** The candidate is cut and the rest of its gap goes to an unused record. *)
Lemma heap_inv_alloc_split lo hi h a u sz :
  heap_inv None lo hi h ->
  used (rd h a) = true -> allocated (rd h a) = false ->
  used (rd h u) = false -> (u < length h)%nat ->
  0 < sz < size_of h a ->
  heap_inv None lo hi
    (split_gap (wr (wr h a (set_allocated true)) a (set_size sz)) a u sz (size_of h a - sz)).
Proof.
  intros Hinv Ha Hga Hu Hul Hsz.
  pose proof Hinv as (Hh & Hn & He & Hp & Hs & Hg).
  pose proof (used_in_arena _ _ Ha) as Hal.
  assert (Hua : u <> a) by (intros ->; congruence).
  assert (Hna : next (rd h a) <> Some a) by (apply (heap_inv_no_loop _ _ _ _ _ Hinv Ha)).
  assert (Hnu : next (rd h a) <> Some u).
  { intros Hx. destruct (Hn a u Ha Hx) as (Hux & _). congruence. }
  assert (Hnl : forall x, next (rd h a) = Some x -> (x < length h)%nat).
  { intros x Hx. destruct (Hn a x Ha Hx) as (Hux & _). apply used_in_arena, Hux. }
  set (hf := split_gap _ a u sz _).
  assert (Hrd : forall i, rd hf i
            = if decide (i = a) then
                mk_node (mk_alloc sz (base_of h a)) (used (rd h a)) true (Some u) (prev (rd h a))
              else if decide (i = u) then
                mk_node (mk_alloc (size_of h a - sz) (base_of h a + sz)) true false
                  (next (rd h a)) (Some a)
              else if decide (next (rd h a) = Some i) then set_prev (Some u) (rd h i)
              else rd h i).
  { intros i. subst hf. apply alloc_split_rd; assumption. }
  clearbody hf.
  assert (Hfa : rd hf a = mk_node (mk_alloc sz (base_of h a)) true true (Some u) (prev (rd h a))).
  { rewrite Hrd, decide_True by reflexivity. rewrite Ha. reflexivity. }
  assert (Hfu : rd hf u = mk_node (mk_alloc (size_of h a - sz) (base_of h a + sz)) true false
                            (next (rd h a)) (Some a)).
  { rewrite Hrd, decide_False by exact Hua. rewrite decide_True by reflexivity. reflexivity. }
  assert (Hfo : forall i, i <> a -> i <> u ->
            used (rd hf i) = used (rd h i) /\ allocated (rd hf i) = allocated (rd h i)
            /\ next (rd hf i) = next (rd h i)
            /\ mem (alloc_record (rd hf i)) = mem (alloc_record (rd h i))
            /\ size (alloc_record (rd hf i)) = size (alloc_record (rd h i))
            /\ prev (rd hf i) = if decide (next (rd h a) = Some i) then Some u
                                else prev (rd h i)).
  { intros i Hia Hiu. rewrite Hrd, decide_False by exact Hia. rewrite decide_False by exact Hiu.
    destruct (decide _); [destruct (rd h i)|]; repeat split. }
  clear Hrd.
  destruct (Hs a Ha) as (Hsa & Hlo & Hhi).
  unfold base_of, size_of in *.
  (* the only predecessor of the successor of [a] is [a] *)
  assert (Hpred : forall i x, used (rd h i) = true -> next (rd h i) = Some x ->
                    next (rd h a) = Some x -> i = a).
  { intros i x Hui Hx Hax.
    destruct (Hn i x Hui Hx) as (_ & Hpi & _). destruct (Hn a x Ha Hax) as (_ & Hpa & _).
    congruence. }
  assert (H0a : forall x, next (rd h a) = Some x -> x <> 0%nat).
  { intros x Hx ->. destruct (Hn a 0%nat Ha Hx) as (_ & Hpa & _).
    destruct Hh as (_ & ? & _). congruence. }
  assert (H0u : 0%nat <> u) by (intros <-; destruct Hh as (? & _); congruence).
  unfold heap_inv, base_of, size_of.
  split.
  { destruct (decide (0%nat = a)) as [<-|H0].
    - rewrite Hfa. simpl. destruct Hh as (? & ? & ?). auto.
    - destruct (Hfo 0%nat H0 H0u) as (-> & _ & _ & -> & _ & ->).
      rewrite decide_False by (intros Hx; exact (H0a _ Hx eq_refl)). exact Hh. }
  split.
  { intros i x.
    destruct (decide (i = a)) as [->|Hia].
    - rewrite Hfa. simpl. intros _ [= <-]. rewrite Hfu. simpl. auto.
    - destruct (decide (i = u)) as [->|Hiu].
      + rewrite Hfu. simpl. intros _ Hx.
        destruct (Hn a x Ha Hx) as (Hux & Hpx & Hbx).
        assert (Hxa : x <> a) by (intros ->; contradiction).
        assert (Hxu : x <> u) by (intros ->; contradiction).
        destruct (Hfo x Hxa Hxu) as (-> & _ & _ & -> & _ & ->).
        rewrite decide_True by exact Hx.
        split; [exact Hux|]. split; [reflexivity|]. lia.
      + destruct (Hfo i Hia Hiu) as (-> & _ & -> & -> & -> & _).
        intros Hui Hx.
        destruct (Hn i x Hui Hx) as (Hux & Hpx & Hbx).
        destruct (decide (x = a)) as [->|Hxa].
        * rewrite Hfa. simpl. auto.
        * assert (Hxu : x <> u) by (intros ->; congruence).
          destruct (Hfo x Hxa Hxu) as (-> & _ & _ & -> & _ & ->).
          rewrite decide_False by (intros Hax; apply Hia, (Hpred i x Hui Hx Hax)).
          auto. }
  split.
  { intros i.
    destruct (decide (i = a)) as [->|Hia]; [rewrite Hfa; simpl; discriminate|].
    destruct (decide (i = u)) as [->|Hiu].
    - rewrite Hfu. simpl. intros _ Hx. pose proof (He a Ha Hx). lia.
    - destruct (Hfo i Hia Hiu) as (-> & _ & -> & -> & -> & _). apply He. }
  split.
  { intros x p.
    destruct (decide (x = a)) as [->|Hxa].
    - rewrite Hfa. simpl. intros _ Hpa.
      destruct (Hp a p Ha Hpa) as (Hup & Hnp).
      assert (Hpa' : p <> a) by (intros ->; contradiction).
      assert (Hpu : p <> u) by (intros ->; congruence).
      destruct (Hfo p Hpa' Hpu) as (-> & _ & -> & _). auto.
    - destruct (decide (x = u)) as [->|Hxu].
      + rewrite Hfu. simpl. intros _ [= <-]. rewrite Hfa. simpl. auto.
      + destruct (Hfo x Hxa Hxu) as (-> & _ & _ & _ & _ & ->).
        destruct (decide (next (rd h a) = Some x)) as [Hax|Hax].
        * intros _ [= <-]. rewrite Hfu. simpl. auto.
        * intros Hux Hpx.
          destruct (Hp x p Hux Hpx) as (Hup & Hnp).
          assert (Hpa' : p <> a) by (intros ->; congruence).
          assert (Hpu : p <> u) by (intros ->; congruence).
          destruct (Hfo p Hpa' Hpu) as (-> & _ & -> & _). auto. }
  split.
  { intros i.
    destruct (decide (i = a)) as [->|Hia]; [rewrite Hfa; simpl; intros _; lia|].
    destruct (decide (i = u)) as [->|Hiu]; [rewrite Hfu; simpl; intros _; lia|].
    destruct (Hfo i Hia Hiu) as (-> & _ & _ & -> & -> & _). apply Hs. }
  intros i x.
  destruct (decide (i = a)) as [->|Hia]; [rewrite Hfa; simpl; discriminate|].
  destruct (decide (i = u)) as [->|Hiu].
  - rewrite Hfu. simpl. intros _ _ Hx _ _.
    assert (Hgx : allocated (rd h x) = true) by (apply (Hg a x Ha Hga Hx); discriminate).
    destruct (Hn a x Ha Hx) as (Hux & _).
    assert (Hxa : x <> a) by (intros ->; contradiction).
    assert (Hxu : x <> u) by (intros ->; congruence).
    destruct (Hfo x Hxa Hxu) as (_ & -> & _). exact Hgx.
  - destruct (Hfo i Hia Hiu) as (-> & -> & -> & _).
    intros Hui Hgi Hx _ _.
    destruct (decide (x = a)) as [->|Hxa]; [rewrite Hfa; reflexivity|].
    destruct (Hn i x Hui Hx) as (Hux & _).
    assert (Hxu : x <> u) by (intros ->; congruence).
    destruct (Hfo x Hxa Hxu) as (_ & -> & _).
    apply (Hg i x Hui Hgi Hx); discriminate.
Qed.

(** The record absorbed by its predecessor is marked unused. *)
Lemma absorb_next_absorbed g d u :
  (d < length g)%nat -> (u < length g)%nat -> u <> d ->
  next (rd g d) = Some u ->
  next (rd g u) <> Some d -> next (rd g u) <> Some u ->
  used (rd (absorb_next g d) u) = false.
Proof.
  intros Hd Hu Hud Hnext Hnd Hnu. unfold absorb_next. cbv zeta.
  assert (Hdu : d <> u) by congruence.
  rewrite !Hnext. cbn [deref].
  set (h1 := wr g d _).
  assert (E1 : next (rd h1 d) = Some u) by (subst h1; rd_eval; exact Hnext).
  rewrite !E1. cbn [wr_p deref].
  set (h2 := wr h1 u (set_used false)).
  assert (E2 : next (rd h2 d) = Some u) by (subst h2; rd_eval; exact E1).
  rewrite !E2. cbn [wr_p deref].
  set (h3 := wr h2 u (set_size 0)).
  assert (E3 : next (rd h3 d) = Some u) by (subst h3; rd_eval; exact E2).
  rewrite !E3. cbn [wr_p deref].
  set (h4 := wr h3 u (set_mem 0)).
  assert (E4 : next (rd h4 d) = Some u) by (subst h4; rd_eval; exact E3).
  rewrite !E4. cbn [wr_p deref].
  assert (U4 : used (rd h4 u) = false).
  { subst h4 h3 h2 h1. rd_eval. destruct (rd g u). reflexivity. }
  assert (E4u : next (rd h4 u) = next (rd g u)).
  { subst h4 h3 h2 h1. rd_eval. destruct (rd g u). reflexivity. }
  rewrite E4u.
  destruct (next (rd g u)) as [x|] eqn:Ex.
  - assert (x <> d) by congruence. assert (x <> u) by congruence.
    set (h5 := wr h4 x (set_prev (Some d))).
    assert (E5 : next (rd h5 d) = Some u) by (subst h5; rd_eval; exact E4).
    rewrite E5. cbn [deref].
    rewrite (rd_wr_ne _ d) by congruence. subst h5. rewrite (rd_wr_ne _ x) by congruence.
    exact U4.
  - cbn [wr_p].
    rewrite (rd_wr_ne _ d) by congruence.
    rewrite field_rd_wr by (intros []; reflexivity). exact U4.
Qed.

(** The arena after the record [d] has been merged into its predecessor
    [p], read record by record. *)
Lemma merge_prev_rd pm d p i :
  (d < length (node_heap pm))%nat -> (p < length (node_heap pm))%nat -> p <> d ->
  next (rd (node_heap pm) d) <> Some p -> next (rd (node_heap pm) d) <> Some d ->
  (forall x, next (rd (node_heap pm) d) = Some x -> (x < length (node_heap pm))%nat) ->
  rd (node_heap (merge_prev pm d p)) i =
  if decide (i = p) then
    set_next (next (rd (node_heap pm) d))
      (set_size (wrap64 (size (alloc_record (rd (node_heap pm) p))
                         + size (alloc_record (rd (node_heap pm) d))))
         (rd (node_heap pm) p))
  else if decide (i = d) then
    mk_node (mk_alloc 0 0) false (allocated (rd (node_heap pm) d)) None None
  else if decide (next (rd (node_heap pm) d) = Some i) then
    set_prev (Some p) (rd (node_heap pm) i)
  else rd (node_heap pm) i.
Proof.
  intros Hd Hp Hpd Hnp Hnd Hx. unfold merge_prev. simpl_pm.
  set (g := node_heap pm) in *.
  assert (Hdp : d <> p) by congruence.
  set (h1 := wr g p _).
  assert (S1 : size (alloc_record (rd h1 d)) = size (alloc_record (rd g d))).
  { subst h1. rd_eval. reflexivity. }
  set (h2 := wr h1 d (set_used false)).
  set (h3 := wr h2 d (set_size 0)).
  set (h4 := wr h3 d (set_mem 0)).
  assert (L4 : length h4 = length g) by (subst h4 h3 h2 h1; rewrite !length_wr; reflexivity).
  assert (E4 : next (rd h4 d) = next (rd g d)).
  { subst h4 h3 h2 h1. rd_eval. destruct (rd g d). reflexivity. }
  rewrite !E4.
  destruct (next (rd g d)) as [x|] eqn:Ex.
  - specialize (Hx x eq_refl).
    assert (x <> p) by congruence. assert (x <> d) by congruence.
    set (h5 := wr h4 p (set_next (Some x))).
    assert (E5 : next (rd h5 d) = Some x) by (subst h5; rd_eval; exact E4).
    rewrite E5. cbn [wr_p].
    subst h5 h4 h3 h2 h1.
    destruct (decide (i = p)) as [->|Hip]; [rd_eval; reflexivity|].
    destruct (decide (i = d)) as [->|Hid].
    { rd_eval. destruct (rd g d) as [[? ?] ? ? ? ?]. reflexivity. }
    destruct (decide (Some x = Some i)) as [Hxi|Hxi].
    + injection Hxi as Hxi. subst x. rewrite ?decide_True by reflexivity.
      rd_eval. reflexivity.
    + assert (x <> i) by congruence. rewrite ?decide_False by exact Hxi.
      rd_eval. reflexivity.
  - subst h4 h3 h2 h1.
    destruct (decide (i = p)) as [->|Hip]; [rd_eval; reflexivity|].
    destruct (decide (i = d)) as [->|Hid].
    { rd_eval. destruct (rd g d) as [[? ?] ? ? ? ?]. reflexivity. }
    rewrite decide_False by discriminate. rd_eval. reflexivity.
Qed.

(** The release starts by clearing the flag of the record [d]; what is
    asked of gaps is suspended for [d]. *)
Lemma heap_inv_release_flag lo hi h d b :
  heap_inv None lo hi h -> used (rd h d) = true ->
  heap_inv (Some d) lo hi (wr h d (set_allocated b)).
Proof.
  intros (Hh & Hn & He & Hp & Hs & Hg) Hd.
  pose proof (used_in_arena _ _ Hd) as Hlen.
  set (hf := wr h d (set_allocated b)).
  assert (Hview : forall i, used (rd hf i) = used (rd h i) /\ next (rd hf i) = next (rd h i)
                            /\ prev (rd hf i) = prev (rd h i)
                            /\ base_of hf i = base_of h i /\ size_of hf i = size_of h i
                            /\ (i <> d -> allocated (rd hf i) = allocated (rd h i))).
  { intros i. unfold base_of, size_of. subst hf.
    destruct (decide (i = d)) as [->|Hid].
    - rewrite rd_wr_same by exact Hlen. destruct (rd h d). repeat split. contradiction.
    - rewrite rd_wr_ne by congruence. repeat split. }
  clearbody hf. unfold heap_inv.
  split. { destruct (Hview 0%nat) as (-> & _ & -> & -> & _). exact Hh. }
  split. { intros i x Hu Hx.
           destruct (Hview i) as (Hui & Hni & _ & Hbi & Hsi & _).
           destruct (Hview x) as (Hux & _ & Hpx & Hbx & _).
           rewrite Hui in Hu. rewrite Hni in Hx. rewrite Hux, Hpx, Hbx, Hbi, Hsi.
           exact (Hn i x Hu Hx). }
  split. { intros i Hu Hx. destruct (Hview i) as (Hui & Hni & _ & Hbi & Hsi & _).
           rewrite Hui in Hu. rewrite Hni in Hx. rewrite Hbi, Hsi. exact (He i Hu Hx). }
  split. { intros x p Hu Hx.
           destruct (Hview x) as (Hux & _ & Hpx & _).
           destruct (Hview p) as (Hup & Hnp & _).
           rewrite Hux in Hu. rewrite Hpx in Hx. rewrite Hup, Hnp. exact (Hp x p Hu Hx). }
  split. { intros i Hu. destruct (Hview i) as (Hui & _ & _ & Hbi & Hsi & _).
           rewrite Hui in Hu. rewrite Hbi, Hsi. exact (Hs i Hu). }
  intros i x Hu Hgi Hx Hid Hxd.
  destruct (Hview i) as (Hui & Hni & _ & _ & _ & Hai).
  destruct (Hview x) as (_ & _ & _ & _ & _ & Hax).
  rewrite Hui in Hu. rewrite Hni in Hx. rewrite Hai in Hgi by congruence.
  rewrite Hax by congruence. apply (Hg i x Hu Hgi Hx); discriminate.
Qed.

(** The release ends: the neighbours of [d] are allocated, so nothing is
    suspended any more. *)
Lemma heap_inv_release_done lo hi h d :
  heap_inv (Some d) lo hi h -> used (rd h d) = true ->
  (forall x, next (rd h d) = Some x -> allocated (rd h x) = true) ->
  (forall p, prev (rd h d) = Some p -> allocated (rd h p) = true) ->
  heap_inv None lo hi h.
Proof.
  intros (Hh & Hn & He & Hp & Hs & Hg) Hd Hfw Hbw.
  repeat (split; [assumption|]).
  intros i x Hu Hgi Hx _ _.
  destruct (decide (i = d)) as [->|Hid]; [apply Hfw, Hx|].
  destruct (decide (x = d)) as [->|Hxd].
  - destruct (Hn i d Hu Hx) as (_ & Hpd & _). specialize (Hbw i Hpd). congruence.
  - apply (Hg i x Hu Hgi Hx); congruence.
Qed.

(** The forward merge: [d] absorbs its successor [n], a gap. *)
Lemma heap_inv_absorb lo hi h d n :
  hi - lo < 2 ^ 64 ->
  heap_inv (Some d) lo hi h -> used (rd h d) = true ->
  next (rd h d) = Some n -> allocated (rd h n) = false ->
  heap_inv (Some d) lo hi (absorb_next h d)
  /\ used (rd (absorb_next h d) d) = true
  /\ prev (rd (absorb_next h d) d) = prev (rd h d)
  /\ allocated (rd (absorb_next h d) d) = allocated (rd h d)
  /\ (forall x, next (rd (absorb_next h d) d) = Some x ->
        allocated (rd (absorb_next h d) x) = true).
Proof.
  intros Hrange Hinv Hd Hdn Hgn.
  pose proof Hinv as (Hh & Hn & He & Hp & Hs & Hg).
  pose proof (used_in_arena _ _ Hd) as Hdl.
  destruct (Hn d n Hd Hdn) as (Hun & Hpn & Hbn).
  pose proof (used_in_arena _ _ Hun) as Hnl.
  pose proof (heap_inv_ascending _ _ _ _ _ _ Hinv Hd Hdn) as Hasc.
  assert (Hnd : n <> d) by (intros ->; lia).
  assert (Hnn : next (rd h n) <> Some n) by (apply (heap_inv_no_loop _ _ _ _ _ Hinv Hun)).
  assert (Hnnd : next (rd h n) <> Some d).
  { intros Hx. pose proof (heap_inv_ascending _ _ _ _ _ _ Hinv Hun Hx). lia. }
  assert (Hnl' : forall x, next (rd h n) = Some x -> (x < length h)%nat).
  { intros x Hx. destruct (Hn n x Hun Hx) as (Hux & _). apply used_in_arena, Hux. }
  destruct (Hs d Hd) as (Hsd & Hlod & Hhid). destruct (Hs n Hun) as (Hsn & Hlon & Hhin).
  unfold base_of, size_of in *.
  assert (Hw : wrap64 (size (alloc_record (rd h d)) + size (alloc_record (rd h n)))
               = size (alloc_record (rd h d)) + size (alloc_record (rd h n))).
  { unfold wrap64. apply Z.mod_small. lia. }
  set (hf := absorb_next h d).
  assert (Hfn : used (rd hf n) = false).
  { subst hf. apply absorb_next_absorbed; assumption. }
  assert (Hfd : rd hf d = set_next (next (rd h n))
                            (set_size (size (alloc_record (rd h d))
                                       + size (alloc_record (rd h n))) (rd h d))).
  { subst hf. rewrite (absorb_next_rd h d n d) by (assumption || congruence).
    rewrite decide_True by reflexivity. rewrite Hw. reflexivity. }
  assert (Hfo : forall i, i <> d -> i <> n ->
            used (rd hf i) = used (rd h i) /\ allocated (rd hf i) = allocated (rd h i)
            /\ next (rd hf i) = next (rd h i)
            /\ mem (alloc_record (rd hf i)) = mem (alloc_record (rd h i))
            /\ size (alloc_record (rd hf i)) = size (alloc_record (rd h i))
            /\ prev (rd hf i) = if decide (next (rd h n) = Some i) then Some d
                                else prev (rd h i)).
  { intros i Hid Hin. subst hf. rewrite (absorb_next_rd h d n i) by (assumption || congruence).
    rewrite decide_False by exact Hid.
    destruct (decide _); [destruct (rd h i)|]; repeat split. }
  clearbody hf.
  assert (Hfdv : used (rd hf d) = true /\ allocated (rd hf d) = allocated (rd h d)
                 /\ next (rd hf d) = next (rd h n) /\ prev (rd hf d) = prev (rd h d)
                 /\ mem (alloc_record (rd hf d)) = mem (alloc_record (rd h d))
                 /\ size (alloc_record (rd hf d))
                    = size (alloc_record (rd h d)) + size (alloc_record (rd h n))).
  { rewrite Hfd. destruct (rd h d) as [[? ?] ? ? ? ?]. simpl in *. repeat split. exact Hd. }
  destruct Hfdv as (Hfdu & Hfda & Hfdn & Hfdp & Hfdm & Hfds).
  (* who points to whom in the old arena *)
  assert (Hpred_n : forall i, used (rd h i) = true -> next (rd h i) = Some n -> i = d).
  { intros i Hui Hx. destruct (Hn i n Hui Hx) as (_ & Hpi & _). congruence. }
  assert (Hpred_x : forall i x, used (rd h i) = true -> next (rd h i) = Some x ->
                      next (rd h n) = Some x -> i = n).
  { intros i x Hui Hx Hnx. destruct (Hn i x Hui Hx) as (_ & Hpi & _).
    destruct (Hn n x Hun Hnx) as (_ & Hpn' & _). congruence. }
  assert (Hfw : forall x, next (rd h n) = Some x -> allocated (rd h x) = true /\ x <> d /\ x <> n).
  { intros x Hx. pose proof (heap_inv_ascending _ _ _ _ _ _ Hinv Hun Hx) as Hax.
    unfold base_of in Hax.
    assert (x <> d) by (intros ->; lia). assert (x <> n) by (intros ->; lia).
    split; [|split; assumption].
    apply (Hg n x Hun Hgn Hx); congruence. }
  split; [|split; [exact Hfdu|split; [exact Hfdp|split; [exact Hfda|]]]].
  2:{ intros x Hx. rewrite Hfdn in Hx. destruct (Hfw x Hx) as (Hax & Hxd & Hxn).
      destruct (Hfo x Hxd Hxn) as (_ & -> & _). exact Hax. }
  unfold heap_inv, base_of, size_of.
  assert (H0n : 0%nat <> n).
  { intros <-. destruct Hh as (_ & Hp0 & _). congruence. }
  split.
  { destruct (decide (0%nat = d)) as [<-|H0d].
    - rewrite Hfdu, Hfdp, Hfdm. destruct Hh as (_ & ? & ?). auto.
    - destruct (Hfo 0%nat H0d H0n) as (-> & _ & _ & -> & _ & ->).
      destruct (decide (next (rd h n) = Some 0%nat)) as [Hx|_]; [|exact Hh].
      destruct (Hn n 0%nat Hun Hx) as (_ & Hp0' & _). destruct Hh as (_ & Hp0 & _). congruence. }
  split.
  { intros i x.
    destruct (decide (i = n)) as [->|Hin]; [rewrite Hfn; discriminate|].
    destruct (decide (i = d)) as [->|Hid].
    - rewrite Hfdn, Hfdm, Hfds. intros _ Hx.
      destruct (Hn n x Hun Hx) as (Hux & Hpx & Hbx). destruct (Hfw x Hx) as (_ & Hxd & Hxn).
      destruct (Hfo x Hxd Hxn) as (-> & _ & _ & -> & _ & ->).
      rewrite decide_True by exact Hx. unfold base_of, size_of in *.
      split; [exact Hux|]. split; [reflexivity|]. lia.
    - destruct (Hfo i Hid Hin) as (-> & _ & -> & -> & -> & _).
      intros Hui Hx.
      destruct (Hn i x Hui Hx) as (Hux & Hpx & Hbx).
      assert (Hxn : x <> n) by (intros ->; apply Hid, Hpred_n; assumption).
      destruct (decide (x = d)) as [->|Hxd].
      + rewrite Hfdu, Hfdp, Hfdm. auto.
      + destruct (Hfo x Hxd Hxn) as (-> & _ & _ & -> & _ & ->).
        rewrite decide_False by (intros Hnx; apply Hin, (Hpred_x i x Hui Hx Hnx)).
        auto. }
  split.
  { intros i.
    destruct (decide (i = n)) as [->|Hin]; [rewrite Hfn; discriminate|].
    destruct (decide (i = d)) as [->|Hid].
    - rewrite Hfdn, Hfdm, Hfds. intros _ Hx. pose proof (He n Hun Hx).
      unfold base_of, size_of in *. lia.
    - destruct (Hfo i Hid Hin) as (-> & _ & -> & -> & -> & _). apply He. }
  split.
  { intros x p.
    destruct (decide (x = n)) as [->|Hxn]; [rewrite Hfn; discriminate|].
    destruct (decide (x = d)) as [->|Hxd].
    - rewrite Hfdp. intros _ Hpd.
      destruct (Hp d p Hd Hpd) as (Hup & Hnp).
      assert (Hpd' : p <> d) by (intros ->; congruence).
      assert (Hpn' : p <> n).
      { intros ->. pose proof (heap_inv_ascending _ _ _ _ _ _ Hinv Hun Hnp).
        unfold base_of in *. lia. }
      destruct (Hfo p Hpd' Hpn') as (-> & _ & -> & _). auto.
    - destruct (Hfo x Hxd Hxn) as (-> & _ & _ & _ & _ & ->).
      destruct (decide (next (rd h n) = Some x)) as [Hnx|Hnx].
      + intros _ [= <-]. rewrite Hfdu, Hfdn. auto.
      + intros Hux Hpx.
        destruct (Hp x p Hux Hpx) as (Hup & Hnp).
        assert (Hpn' : p <> n) by (intros ->; contradiction).
        assert (Hpd' : p <> d) by (intros ->; congruence).
        destruct (Hfo p Hpd' Hpn') as (-> & _ & -> & _). auto. }
  split.
  { intros i.
    destruct (decide (i = n)) as [->|Hin]; [rewrite Hfn; discriminate|].
    destruct (decide (i = d)) as [->|Hid].
    - rewrite Hfdm, Hfds. intros _. unfold base_of, size_of in *. lia.
    - destruct (Hfo i Hid Hin) as (-> & _ & _ & -> & -> & _). apply Hs. }
  intros i x Hui Hgi Hx Hid Hxd.
  assert (Hid' : i <> d) by congruence. assert (Hxd' : x <> d) by congruence.
  destruct (decide (i = n)) as [->|Hin]; [rewrite Hfn in Hui; discriminate|].
  destruct (Hfo i Hid' Hin) as (Ei1 & Ei2 & Ei3 & _).
  rewrite Ei1 in Hui. rewrite Ei2 in Hgi. rewrite Ei3 in Hx.
  assert (Hxn : x <> n) by (intros ->; apply Hid', Hpred_n; assumption).
  destruct (Hfo x Hxd' Hxn) as (_ & -> & _).
  apply (Hg i x Hui Hgi Hx); assumption.
Qed.

(** The backward merge: the predecessor [p] of [d], a gap, absorbs [d]. *)
Lemma heap_inv_merge_prev lo hi pm d p :
  hi - lo < 2 ^ 64 ->
  heap_inv (Some d) lo hi (node_heap pm) -> used (rd (node_heap pm) d) = true ->
  prev (rd (node_heap pm) d) = Some p -> allocated (rd (node_heap pm) p) = false ->
  (forall x, next (rd (node_heap pm) d) = Some x -> allocated (rd (node_heap pm) x) = true) ->
  heap_inv None lo hi (node_heap (merge_prev pm d p)).
Proof.
  intros Hrange Hinv Hd Hdp Hgp Hfw.
  set (h := node_heap pm) in *.
  pose proof Hinv as (Hh & Hn & He & Hp & Hs & Hg).
  pose proof (used_in_arena _ _ Hd) as Hdl.
  destruct (Hp d p Hd Hdp) as (Hup & Hpn).
  pose proof (used_in_arena _ _ Hup) as Hpl.
  destruct (Hn p d Hup Hpn) as (_ & _ & Hbd).
  pose proof (heap_inv_ascending _ _ _ _ _ _ Hinv Hup Hpn) as Hasc.
  assert (Hpd : p <> d) by (intros ->; lia).
  assert (Hdd : next (rd h d) <> Some d) by (apply (heap_inv_no_loop _ _ _ _ _ Hinv Hd)).
  assert (Hdnp : next (rd h d) <> Some p).
  { intros Hx. pose proof (heap_inv_ascending _ _ _ _ _ _ Hinv Hd Hx). lia. }
  assert (Hdl' : forall x, next (rd h d) = Some x -> (x < length h)%nat).
  { intros x Hx. destruct (Hn d x Hd Hx) as (Hux & _). apply used_in_arena, Hux. }
  destruct (Hs d Hd) as (Hsd & Hlod & Hhid). destruct (Hs p Hup) as (Hsp & Hlop & Hhip).
  unfold base_of, size_of in *.
  assert (Hw : wrap64 (size (alloc_record (rd h p)) + size (alloc_record (rd h d)))
               = size (alloc_record (rd h p)) + size (alloc_record (rd h d))).
  { unfold wrap64. apply Z.mod_small. lia. }
  set (hf := node_heap (merge_prev pm d p)).
  assert (Hrd : forall i, rd hf i =
            if decide (i = p) then
              set_next (next (rd h d))
                (set_size (size (alloc_record (rd h p)) + size (alloc_record (rd h d)))
                   (rd h p))
            else if decide (i = d) then
              mk_node (mk_alloc 0 0) false (allocated (rd h d)) None None
            else if decide (next (rd h d) = Some i) then set_prev (Some p) (rd h i)
            else rd h i).
  { intros i. subst hf. rewrite merge_prev_rd by assumption. fold h. rewrite Hw. reflexivity. }
  clearbody hf.
  assert (Hfd : used (rd hf d) = false).
  { rewrite Hrd, decide_False by congruence. rewrite decide_True by reflexivity. reflexivity. }
  assert (Hfp : used (rd hf p) = true /\ allocated (rd hf p) = false
                /\ next (rd hf p) = next (rd h d) /\ prev (rd hf p) = prev (rd h p)
                /\ mem (alloc_record (rd hf p)) = mem (alloc_record (rd h p))
                /\ size (alloc_record (rd hf p))
                   = size (alloc_record (rd h p)) + size (alloc_record (rd h d))).
  { rewrite Hrd, decide_True by reflexivity.
    destruct (rd h p) as [[? ?] ? ? ? ?]. simpl in *. repeat split; assumption. }
  destruct Hfp as (Hfpu & Hfpa & Hfpn & Hfpp & Hfpm & Hfps).
  assert (Hfo : forall i, i <> p -> i <> d ->
            used (rd hf i) = used (rd h i) /\ allocated (rd hf i) = allocated (rd h i)
            /\ next (rd hf i) = next (rd h i)
            /\ mem (alloc_record (rd hf i)) = mem (alloc_record (rd h i))
            /\ size (alloc_record (rd hf i)) = size (alloc_record (rd h i))
            /\ prev (rd hf i) = if decide (next (rd h d) = Some i) then Some p
                                else prev (rd h i)).
  { intros i Hip Hid. rewrite Hrd, decide_False by exact Hip. rewrite decide_False by exact Hid.
    destruct (decide _); [destruct (rd h i)|]; repeat split. }
  clear Hrd.
  assert (Hpred_d : forall i, used (rd h i) = true -> next (rd h i) = Some d -> i = p).
  { intros i Hui Hx. destruct (Hn i d Hui Hx) as (_ & Hpi & _). congruence. }
  assert (Hpred_x : forall i x, used (rd h i) = true -> next (rd h i) = Some x ->
                      next (rd h d) = Some x -> i = d).
  { intros i x Hui Hx Hdx. destruct (Hn i x Hui Hx) as (_ & Hpi & _).
    destruct (Hn d x Hd Hdx) as (_ & Hpd' & _). congruence. }
  assert (Hsucc : forall x, next (rd h d) = Some x -> x <> p /\ x <> d).
  { intros x Hx. pose proof (heap_inv_ascending _ _ _ _ _ _ Hinv Hd Hx) as Hax.
    unfold base_of in Hax. split; intros ->; lia. }
  assert (H0d : 0%nat <> d).
  { intros <-. destruct Hh as (_ & Hp0 & _). congruence. }
  unfold heap_inv, base_of, size_of.
  split.
  { destruct (decide (0%nat = p)) as [<-|H0p].
    - rewrite Hfpu, Hfpp, Hfpm. destruct Hh as (_ & ? & ?). auto.
    - destruct (Hfo 0%nat H0p H0d) as (-> & _ & _ & -> & _ & ->).
      destruct (decide (next (rd h d) = Some 0%nat)) as [Hx|_]; [|exact Hh].
      destruct (Hn d 0%nat Hd Hx) as (_ & Hp0' & _). destruct Hh as (_ & Hp0 & _). congruence. }
  split.
  { intros i x.
    destruct (decide (i = d)) as [->|Hid]; [rewrite Hfd; discriminate|].
    destruct (decide (i = p)) as [->|Hip].
    - rewrite Hfpn, Hfpm, Hfps. intros _ Hx.
      destruct (Hn d x Hd Hx) as (Hux & Hpx & Hbx). destruct (Hsucc x Hx) as (Hxp & Hxd).
      destruct (Hfo x Hxp Hxd) as (-> & _ & _ & -> & _ & ->).
      rewrite decide_True by exact Hx. unfold base_of, size_of in *.
      split; [exact Hux|]. split; [reflexivity|]. lia.
    - destruct (Hfo i Hip Hid) as (-> & _ & -> & -> & -> & _).
      intros Hui Hx.
      destruct (Hn i x Hui Hx) as (Hux & Hpx & Hbx).
      assert (Hxd : x <> d) by (intros ->; apply Hip, Hpred_d; assumption).
      destruct (decide (x = p)) as [->|Hxp].
      + rewrite Hfpu, Hfpp, Hfpm. auto.
      + destruct (Hfo x Hxp Hxd) as (-> & _ & _ & -> & _ & ->).
        rewrite decide_False by (intros Hdx; apply Hid, (Hpred_x i x Hui Hx Hdx)).
        auto. }
  split.
  { intros i.
    destruct (decide (i = d)) as [->|Hid]; [rewrite Hfd; discriminate|].
    destruct (decide (i = p)) as [->|Hip].
    - rewrite Hfpn, Hfpm, Hfps. intros _ Hx. pose proof (He d Hd Hx).
      unfold base_of, size_of in *. lia.
    - destruct (Hfo i Hip Hid) as (-> & _ & -> & -> & -> & _). apply He. }
  split.
  { intros x q.
    destruct (decide (x = d)) as [->|Hxd]; [rewrite Hfd; discriminate|].
    destruct (decide (x = p)) as [->|Hxp].
    - rewrite Hfpp. intros _ Hpq.
      destruct (Hp p q Hup Hpq) as (Huq & Hnq).
      assert (Hqp : q <> p) by (intros ->; apply (heap_inv_no_loop _ _ _ _ _ Hinv Hup Hnq)).
      assert (Hqd : q <> d).
      { intros ->. contradiction. }
      destruct (Hfo q Hqp Hqd) as (-> & _ & -> & _). auto.
    - destruct (Hfo x Hxp Hxd) as (-> & _ & _ & _ & _ & ->).
      destruct (decide (next (rd h d) = Some x)) as [Hdx|Hdx].
      + intros _ [= <-]. rewrite Hfpu, Hfpn. auto.
      + intros Hux Hpx.
        destruct (Hp x q Hux Hpx) as (Huq & Hnq).
        assert (Hqd : q <> d) by (intros ->; contradiction).
        assert (Hqp : q <> p) by (intros ->; congruence).
        destruct (Hfo q Hqp Hqd) as (-> & _ & -> & _). auto. }
  split.
  { intros i.
    destruct (decide (i = d)) as [->|Hid]; [rewrite Hfd; discriminate|].
    destruct (decide (i = p)) as [->|Hip].
    - rewrite Hfpm, Hfps. intros _. unfold base_of, size_of in *. lia.
    - destruct (Hfo i Hip Hid) as (-> & _ & _ & -> & -> & _). apply Hs. }
  intros i x Hui Hgi Hx _ _.
  destruct (decide (i = d)) as [->|Hid]; [rewrite Hfd in Hui; discriminate|].
  destruct (decide (i = p)) as [->|Hip].
  - rewrite Hfpn in Hx. destruct (Hsucc x Hx) as (Hxp & Hxd).
    destruct (Hfo x Hxp Hxd) as (_ & -> & _). apply Hfw, Hx.
  - destruct (Hfo i Hip Hid) as (Ei1 & Ei2 & Ei3 & _).
    rewrite Ei1 in Hui. rewrite Ei2 in Hgi. rewrite Ei3 in Hx.
    assert (Hxd : x <> d) by (intros ->; apply Hip, Hpred_d; assumption).
    assert (Hax : allocated (rd h x) = true) by (apply (Hg i x Hui Hgi Hx); congruence).
    destruct (decide (x = p)) as [->|Hxp]; [congruence|].
    destruct (Hfo x Hxp Hxd) as (_ & -> & _). exact Hax.
Qed.

Lemma list_inv_no_adjacent_gaps pm :
  list_inv pm -> adjacent_gaps (segments pm) = false.
Proof.
  intros (Hinv & _). unfold segments, segment_ids.
  apply (heap_inv_no_adjacent_gaps _ _ _ _ _ Hinv).
  destruct Hinv as ((H0 & _) & _). exact H0.
Qed.

Lemma add_region e pm sz node :
  node_heap (snd (_mem_add_to_gap_ix e pm sz node)) = node_heap pm
  /\ total_nodes (snd (_mem_add_to_gap_ix e pm sz node)) = total_nodes pm
  /\ pool_mem (pool (snd (_mem_add_to_gap_ix e pm sz node))) = pool_mem (pool pm)
  /\ total_size (pool (snd (_mem_add_to_gap_ix e pm sz node))) = total_size (pool pm).
Proof.
  destruct (outside_gap_ix_eq _ _ (add_frame e pm sz node))
    as (-> & -> & _ & _ & _ & _ & -> & ->). repeat split.
Qed.

Lemma remove_region e pm sz node :
  node_heap (snd (_mem_remove_from_gap_ix e pm sz node)) = node_heap pm
  /\ total_nodes (snd (_mem_remove_from_gap_ix e pm sz node)) = total_nodes pm
  /\ pool_mem (pool (snd (_mem_remove_from_gap_ix e pm sz node))) = pool_mem (pool pm)
  /\ total_size (pool (snd (_mem_remove_from_gap_ix e pm sz node))) = total_size (pool pm).
Proof.
  destruct (outside_gap_ix_eq _ _ (remove_frame e pm sz node))
    as (-> & -> & _ & _ & _ & _ & -> & ->). repeat split.
Qed.

(** [mem_del_alloc] keeps the region of the pool. *)
Lemma del_region e pm d :
  pool_mem (pool (snd (mem_del_alloc e pm d))) = pool_mem (pool pm)
  /\ total_size (pool (snd (mem_del_alloc e pm d))) = total_size (pool pm).
Proof.
  unfold mem_del_alloc.
  set (pm1 := with_pool _ (with_pool _ (with_node_heap _ pm))).
  assert (H1 : pool_mem (pool pm1) = pool_mem (pool pm)
               /\ total_size (pool pm1) = total_size (pool pm)) by (split; reflexivity).
  destruct H1 as [<- <-]. clearbody pm1.
  set (pm2 := match next (rd (node_heap pm1) d) with
              | Some n => if allocated (rd (node_heap pm1) n) then pm1 else merge_next e pm1 d
              | None => pm1 end).
  assert (H2 : pool_mem (pool pm2) = pool_mem (pool pm1)
               /\ total_size (pool pm2) = total_size (pool pm1)).
  { subst pm2. destruct (next (rd (node_heap pm1) d)) as [n|]; [|split; reflexivity].
    destruct (allocated _); [split; reflexivity|]. unfold merge_next. simpl_pm.
    match goal with |- context [_mem_remove_from_gap_ix ?e ?p ?s ?n] =>
      destruct (remove_region e p s n) as (_ & _ & -> & ->)
    end. split; reflexivity. }
  destruct H2 as [<- <-]. clearbody pm2.
  assert (Hadd : forall pm' sz node,
            pool_mem (pool (snd (_mem_add_to_gap_ix e pm' sz node))) = pool_mem (pool pm')
            /\ total_size (pool (snd (_mem_add_to_gap_ix e pm' sz node)))
               = total_size (pool pm')).
  { intros pm' sz node. destruct (add_region e pm' sz node) as (_ & _ & -> & ->).
    split; reflexivity. }
  destruct (prev (rd (node_heap pm2) d)) as [p|]; [|apply Hadd].
  destruct (allocated (rd (node_heap pm2) p)); [apply Hadd|].
  destruct (_mem_remove_from_gap_ix e pm2 _ (Some p)) as [st pm3] eqn:Hrm.
  pose proof (remove_region e pm2 (size (alloc_record (rd (node_heap pm2) p))) (Some p)) as Hf.
  rewrite Hrm in Hf. cbn [snd] in Hf. destruct Hf as (_ & _ & Hm & Ht).
  destruct (decide (st = ALLOC_FAIL)); [simpl; split; assumption|].
  destruct (Hadd (merge_prev pm3 d p) (size (alloc_record (rd (node_heap (merge_prev pm3 d p)) p)))
              (Some p)) as [-> ->].
  rewrite merge_prev_pool. split; assumption.
Qed.

(** The arena after a release that reports [ALLOC_OK]. *)
Lemma del_heap_inv e pm d lo hi :
  hi - lo < 2 ^ 64 ->
  heap_inv None lo hi (node_heap pm) ->
  used (rd (node_heap pm) d) = true ->
  fst (mem_del_alloc e pm d) = ALLOC_OK ->
  heap_inv None lo hi (node_heap (snd (mem_del_alloc e pm d))).
Proof.
  intros Hrange Hinv Hd. unfold mem_del_alloc.
  set (pm1 := with_pool _ (with_pool _ (with_node_heap _ pm))).
  assert (H1 : heap_inv (Some d) lo hi (node_heap pm1) /\ used (rd (node_heap pm1) d) = true).
  { subst pm1. simpl_pm. split; [apply heap_inv_release_flag; assumption|].
    rewrite field_rd_wr by (intros []; reflexivity). exact Hd. }
  clearbody pm1.
  set (pm2 := match next (rd (node_heap pm1) d) with
              | Some n => if allocated (rd (node_heap pm1) n) then pm1 else merge_next e pm1 d
              | None => pm1 end).
  assert (H2 : heap_inv (Some d) lo hi (node_heap pm2) /\ used (rd (node_heap pm2) d) = true
               /\ (forall x, next (rd (node_heap pm2) d) = Some x ->
                     allocated (rd (node_heap pm2) x) = true)).
  { destruct H1 as [H1 Hd1]. subst pm2.
    destruct (next (rd (node_heap pm1) d)) as [n|] eqn:En.
    2:{ split; [exact H1|]. split; [exact Hd1|]. intros x Hx. congruence. }
    destruct (allocated (rd (node_heap pm1) n)) eqn:Ea.
    { split; [exact H1|]. split; [exact Hd1|]. intros x Hx. congruence. }
    assert (Hh : node_heap (merge_next e pm1 d) = absorb_next (node_heap pm1) d).
    { unfold merge_next. simpl_pm.
      match goal with |- context [_mem_remove_from_gap_ix ?e ?p ?s ?n] =>
        destruct (remove_region e p s n) as (-> & _)
      end. reflexivity. }
    rewrite Hh.
    destruct (heap_inv_absorb lo hi (node_heap pm1) d n Hrange H1 Hd1 En Ea)
      as (G1 & G2 & _ & _ & G3).
    split; [exact G1|]. split; [exact G2 | exact G3]. }
  clearbody pm2. destruct H2 as (H2 & Hd2 & Hfw).
  assert (Hadd : forall pm' sz node,
            heap_inv None lo hi (node_heap pm') ->
            heap_inv None lo hi (node_heap (snd (_mem_add_to_gap_ix e pm' sz node)))).
  { intros pm' sz node H'. destruct (add_region e pm' sz node) as (-> & _). exact H'. }
  destruct (prev (rd (node_heap pm2) d)) as [p|] eqn:Ep.
  2:{ intros _. apply Hadd. apply (heap_inv_release_done _ _ _ d); try assumption.
      intros p Hp. congruence. }
  destruct (allocated (rd (node_heap pm2) p)) eqn:Ea.
  { intros _. apply Hadd. apply (heap_inv_release_done _ _ _ d); try assumption.
    intros q Hq. congruence. }
  destruct (_mem_remove_from_gap_ix e pm2 _ (Some p)) as [st pm3] eqn:Hrm.
  pose proof (remove_region e pm2 (size (alloc_record (rd (node_heap pm2) p))) (Some p)) as Hf.
  rewrite Hrm in Hf. cbn [snd] in Hf. destruct Hf as (Hh3 & _).
  destruct (decide (st = ALLOC_FAIL)); [discriminate|].
  intros _. apply Hadd.
  apply heap_inv_merge_prev; rewrite ?Hh3; assumption.
Qed.

(** X16: in a pool whose records form the segment list of its region, the
    release of the handle of an allocated record of the list, when it
    reports [ALLOC_OK], leaves records that form the segment list of the
    region again: contiguous segments by ascending address, consistent
    links, and no gap next to a gap, the freed segment being merged with
    the gaps on both sides. *)
Theorem X16_release_keeps_list (e : env) (pm : pool_mgr_t) (d : nat) :
  list_inv pm -> valid_handle pm d = true ->
  fst (mem_del_alloc e pm d) = ALLOC_OK ->
  list_inv (snd (mem_del_alloc e pm d))
  /\ adjacent_gaps (segments (snd (mem_del_alloc e pm d))) = false
  /\ allocated (rd (node_heap (snd (mem_del_alloc e pm d))) d) = false.
Proof.
  intros (Hinv & Hts & Htn) Hvalid Hok.
  unfold valid_handle in Hvalid. apply andb_prop in Hvalid as [Hd _].
  assert (Hl : list_inv (snd (mem_del_alloc e pm d))).
  { destruct (del_region e pm d) as [Hm Ht].
    unfold list_inv. rewrite Hm, Ht, del_total_nodes, del_arena_length.
    split; [|split; assumption].
    apply del_heap_inv; [lia | assumption..]. }
  split; [exact Hl|]. split; [apply list_inv_no_adjacent_gaps, Hl|].
  apply del_clears_allocated.
Qed.

(** The arena after an allocation that returns a handle, the candidate
    being a gap of the list that can hold the request. *)
Lemma alloc_heap_inv e pm sz a lo hi :
  hi - lo < 2 ^ 64 ->
  heap_inv None lo hi (node_heap pm) ->
  total_nodes pm = Z.of_nat (length (node_heap pm)) ->
  0 <= used_nodes pm < total_nodes pm ->
  0 < sz -> select_node e pm sz = Some a ->
  fits sz (rd (node_heap pm) a) = true ->
  fst (mem_new_alloc e pm sz) <> None ->
  heap_inv None lo hi (node_heap (snd (mem_new_alloc e pm sz))).
Proof.
  intros Hrange Hinv Htn Hroom Hsz Hsel Hfit.
  unfold fits in Hfit. apply andb_prop in Hfit as [Hfit Hle].
  apply andb_prop in Hfit as [Hua Hga].
  apply negb_true_iff in Hga. apply Z.leb_le in Hle.
  pose proof Hinv as (_ & _ & _ & _ & Hs & _).
  destruct (Hs a Hua) as (Hsa & Hlo & Hhi). unfold base_of, size_of in *.
  unfold mem_new_alloc.
  destruct (num_gaps (pool pm) =? 0); [intros H; contradiction H; reflexivity|].
  rewrite (resize_node_heap_below_capacity e pm Hroom). rewrite Hsel.
  set (pm2 := with_pool _ (with_pool _ pm)).
  change (rd (node_heap pm2) a) with (rd (node_heap pm) a).
  destruct (remove_region e pm2 sz (Some a)) as (Hh & Ht & _).
  set (pm3 := snd (_mem_remove_from_gap_ix e pm2 sz (Some a))) in *. clearbody pm3.
  change (node_heap pm2) with (node_heap pm) in Hh.
  change (total_nodes pm2) with (total_nodes pm) in Ht.
  simpl_pm. rewrite Hh, Ht.
  assert (Hw : wrap64 (size (alloc_record (rd (node_heap pm) a)) - sz)
               = size (alloc_record (rd (node_heap pm) a)) - sz).
  { unfold wrap64. apply Z.mod_small. lia. }
  rewrite Hw.
  destruct (_ - sz =? 0) eqn:E.
  { intros _. simpl_pm. apply Z.eqb_eq in E.
    replace sz with (size_of (node_heap pm) a) by (unfold size_of; lia).
    apply heap_inv_alloc_whole; assumption. }
  apply Z.eqb_neq in E.
  destruct (find_unused _ _ 0) as [u|] eqn:Eu; [|intros H; contradiction H; reflexivity].
  intros _. cbn [fst snd].
  match goal with |- context [_mem_add_to_gap_ix ?e ?p ?s ?n] =>
    destruct (add_region e p s n) as (-> & _)
  end.
  simpl_pm.
  apply find_unused_sound in Eu as [Eu Hul].
  rewrite !field_rd_wr in Eu by (intros []; reflexivity).
  apply (heap_inv_alloc_split lo hi (node_heap pm) a u sz); try assumption;
    unfold size_of; lia.
Qed.

(** [mem_new_alloc] keeps the region of the pool, and the arena when it has
    a record left. *)
Lemma alloc_region e pm sz :
  pool_mem (pool (snd (mem_new_alloc e pm sz))) = pool_mem (pool pm)
  /\ total_size (pool (snd (mem_new_alloc e pm sz))) = total_size (pool pm).
Proof.
  unfold mem_new_alloc.
  destruct (num_gaps (pool pm) =? 0); [split; reflexivity|].
  destruct (resize_node_heap_frame e pm) as (Hp & _).
  set (pm1 := _mem_resize_node_heap e pm) in *.
  assert (H1 : pool_mem (pool pm1) = pool_mem (pool pm)
               /\ total_size (pool pm1) = total_size (pool pm)) by (rewrite Hp; split; reflexivity).
  destruct H1 as [<- <-]. clearbody pm1.
  destruct (select_node e pm1 sz) as [a|]; [|split; reflexivity].
  set (pm2 := with_pool _ (with_pool _ pm1)).
  change (rd (node_heap pm2) a) with (rd (node_heap pm1) a).
  destruct (remove_region e pm2 sz (Some a)) as (_ & _ & Hm & Ht).
  set (pm3 := snd (_mem_remove_from_gap_ix e pm2 sz (Some a))) in *. clearbody pm3.
  change (pool_mem (pool pm2)) with (pool_mem (pool pm1)) in Hm.
  change (total_size (pool pm2)) with (total_size (pool pm1)) in Ht.
  simpl_pm.
  destruct (_ =? 0); [simpl_pm; split; assumption|].
  destruct (find_unused _ _ 0) as [u|]; [|simpl_pm; split; assumption].
  cbn [fst snd].
  match goal with |- context [_mem_add_to_gap_ix ?e ?p ?s ?n] =>
    destruct (add_region e p s n) as (_ & _ & -> & ->)
  end.
  simpl_pm. split; assumption.
Qed.

(** The allocation from a gap of the list. *)
Lemma alloc_keeps_list (e : env) (pm : pool_mgr_t) (sz : Z) (a : nat) :
  list_inv pm ->
  0 <= used_nodes pm < total_nodes pm ->
  0 < sz -> select_node e pm sz = Some a ->
  fits sz (rd (node_heap pm) a) = true ->
  fst (mem_new_alloc e pm sz) <> None ->
  list_inv (snd (mem_new_alloc e pm sz))
  /\ adjacent_gaps (segments (snd (mem_new_alloc e pm sz))) = false
  /\ fst (mem_new_alloc e pm sz) = Some a
  /\ allocated (rd (node_heap (snd (mem_new_alloc e pm sz))) a) = true
  /\ alloc_record (rd (node_heap (snd (mem_new_alloc e pm sz))) a)
     = mk_alloc sz (mem (alloc_record (rd (node_heap pm) a))).
Proof.
  intros (Hinv & Hts & Htn) Hroom Hsz Hsel Hfit Hret.
  assert (Hl : list_inv (snd (mem_new_alloc e pm sz))).
  { destruct (alloc_region e pm sz) as [Hm Ht].
    destruct (alloc_arena_in_place e pm sz Hroom) as [Htn' Hlen'].
    unfold list_inv. rewrite Hm, Ht, Htn', Hlen'.
    split; [|split; assumption].
    apply (alloc_heap_inv e pm sz a); [lia | assumption..]. }
  split; [exact Hl|]. split; [apply list_inv_no_adjacent_gaps, Hl|].
  assert (Hgaps : num_gaps (pool pm) <> 0).
  { intros H0. apply Hret. unfold mem_new_alloc. rewrite H0. reflexivity. }
  pose proof (mem_new_alloc_on_candidate e pm sz a Hgaps) as H.
  rewrite (resize_node_heap_below_capacity e pm Hroom) in H.
  destruct (H Hsel) as (_ & _ & Hres & Hrec).
  split; [destruct Hres as [Hres|(Hres & _)]; [exact Hres | contradiction]|].
  apply Hrec. unfold fits in Hfit. apply andb_prop in Hfit as [Hfit _].
  apply andb_prop in Hfit as [Hua _]. exact Hua.
Qed.


(** The pool manager of a pool that has just been opened. *)
Lemma list_inv_open base sz pol :
  0 < sz < 2 ^ 64 -> list_inv (pool_mgr_open base sz pol).
Proof.
  intros Hsz. unfold list_inv.
  change (pool_mem (pool (pool_mgr_open base sz pol))) with base.
  change (total_size (pool (pool_mgr_open base sz pol))) with sz.
  split; [|split; [lia | reflexivity]].
  change (node_heap (pool_mgr_open base sz pol))
    with (mk_node (mk_alloc sz base) true false None None :: replicate 39 node_zero).
  set (h := _ :: replicate 39 node_zero).
  assert (H0 : rd h 0 = mk_node (mk_alloc sz base) true false None None) by reflexivity.
  assert (Hu : forall i, used (rd h i) = true -> i = 0%nat).
  { intros [|i]; [reflexivity|]. unfold rd, h. cbn [lookup list_lookup].
    destruct (replicate 39 node_zero !! i) as [x|] eqn:E; [|discriminate].
    apply lookup_replicate in E as [-> _]. discriminate. }
  unfold heap_inv, base_of, size_of.
  split; [rewrite H0; auto|].
  split; [intros i x Hi; apply Hu in Hi as ->; rewrite H0; discriminate|].
  split; [intros i Hi _; apply Hu in Hi as ->; rewrite H0; reflexivity|].
  split; [intros x p Hx; apply Hu in Hx as ->; rewrite H0; discriminate|].
  split; [intros i Hi; apply Hu in Hi as ->; rewrite H0; simpl; lia|].
  intros i x Hi; apply Hu in Hi as ->; rewrite H0; discriminate.
Qed.

(** A request that finds no candidate leaves the pool as it is, when the
    arena has a record left. *)
Lemma alloc_refused e pm sz :
  0 <= used_nodes pm < total_nodes pm -> select_node e pm sz = None ->
  snd (mem_new_alloc e pm sz) = pm.
Proof.
  intros Hroom Hsel. unfold mem_new_alloc.
  destruct (num_gaps (pool pm) =? 0); [reflexivity|].
  rewrite (resize_node_heap_below_capacity e pm Hroom), Hsel. reflexivity.
Qed.

Lemma orderly_list_inv pm : orderly pm -> list_inv pm.
Proof.
  induction 1 as [base sz pol Hsz | e pm sz a _ IH Hroom Hsz Hsel Hfit Hret
                  | e pm sz _ IH Hroom Hsel | e pm d _ IH Hvalid Hok].
  - apply list_inv_open, Hsz.
  - destruct IH as (Hinv & Hts & Htn).
    destruct (alloc_region e pm sz) as [Hm Ht].
    destruct (alloc_arena_in_place e pm sz Hroom) as [Htn' Hlen'].
    unfold list_inv. rewrite Hm, Ht, Htn', Hlen'.
    split; [|split; assumption].
    apply (alloc_heap_inv e pm sz a); [lia | assumption..].
  - rewrite alloc_refused by assumption. exact IH.
  - destruct IH as (Hinv & Hts & Htn).
    unfold valid_handle in Hvalid. apply andb_prop in Hvalid as [Hd _].
    destruct (del_region e pm d) as [Hm Ht].
    unfold list_inv. rewrite Hm, Ht, del_total_nodes, del_arena_length.
    split; [|split; assumption].
    apply del_heap_inv; [lia | assumption..].
Qed.

(** The pool with two gaps is reached by an orderly run. *)
Lemma pool_two_gaps_orderly : orderly pool_two_gaps.
Proof.
  unfold pool_two_gaps. cbn [run fold_left step].
  apply orderly_del; [|vm_compute; reflexivity..].
  apply orderly_del; [|vm_compute; reflexivity..].
  apply (orderly_alloc _ _ _ 2);
    [|vm_compute; split; [discriminate | reflexivity]|reflexivity
     |vm_compute; reflexivity..|vm_compute; discriminate].
  apply (orderly_alloc _ _ _ 1);
    [|vm_compute; split; [discriminate | reflexivity]|reflexivity
     |vm_compute; reflexivity..|vm_compute; discriminate].
  apply (orderly_alloc _ _ _ 0);
    [|vm_compute; split; [discriminate | reflexivity]|reflexivity
     |vm_compute; reflexivity..|vm_compute; discriminate].
  apply orderly_open. split; reflexivity.
Qed.

(** X16, witness: the release of the allocation of 30 bytes in the middle
    of the pool with two gaps, which merges with both. *)
Lemma X16_witness :
  list_inv (snd (mem_del_alloc env_zero pool_two_gaps 1))
  /\ adjacent_gaps (segments (snd (mem_del_alloc env_zero pool_two_gaps 1))) = false
  /\ allocated (rd (node_heap (snd (mem_del_alloc env_zero pool_two_gaps 1))) 1) = false.
Proof.
  apply (X16_release_keeps_list env_zero pool_two_gaps 1).
  - apply orderly_list_inv, pool_two_gaps_orderly.
  - vm_compute. reflexivity.
  - vm_compute. reflexivity.
Defined.


(** X18: in every pool manager reached by an orderly run the records in use
    form the segment list of the region and [total_nodes] is the number of
    records of the arena; no two neighbours of the list are gaps, each
    segment has a positive size and starts where its predecessor ends, and
    the first one starts at the base of the region. *)
Theorem X18_orderly_runs_keep_list (pm : pool_mgr_t) :
  orderly pm ->
  list_inv pm
  /\ adjacent_gaps (segments pm) = false
  /\ (forall k s s', segments pm !! k = Some s -> segments pm !! S k = Some s' ->
        fst (fst s') = fst (fst s) + snd (fst s) /\ 0 < snd (fst s))
  /\ (fun s => fst (fst s)) <$> head (segments pm) = Some (pool_mem (pool pm)).
Proof.
  intros H. pose proof (orderly_list_inv pm H) as Hl.
  split; [exact Hl|]. split; [apply list_inv_no_adjacent_gaps, Hl|].
  destruct Hl as (Hinv & _ & Htn).
  pose proof Hinv as ((H0 & _ & Hb0) & _).
  split.
  - unfold segments, segment_ids. apply (heap_inv_contiguous _ _ _ _ _ Hinv H0).
  - unfold segments, segment_ids.
    pose proof (used_in_arena _ _ H0) as Hlen.
    destruct (length (node_heap pm)) as [|n]; [lia|].
    cbn [walk map head fmap option_fmap option_map segment_of fst].
    f_equal. exact Hb0.
Qed.

(** X18, witness: the pool with two gaps. *)
Lemma X18_witness :
  list_inv pool_two_gaps
  /\ adjacent_gaps (segments pool_two_gaps) = false
  /\ (forall k s s', segments pool_two_gaps !! k = Some s ->
        segments pool_two_gaps !! S k = Some s' ->
        fst (fst s') = fst (fst s) + snd (fst s) /\ 0 < snd (fst s))
  /\ (fun s => fst (fst s)) <$> head (segments pool_two_gaps)
     = Some (pool_mem (pool pool_two_gaps)).
Proof.
  apply (X18_orderly_runs_keep_list pool_two_gaps).
  unfold pool_two_gaps. cbn [run fold_left step].
  apply orderly_del; [|vm_compute; reflexivity..].
  apply orderly_del; [|vm_compute; reflexivity..].
  apply (orderly_alloc _ _ _ 2);
    [|vm_compute; split; [discriminate | reflexivity]|reflexivity
     |vm_compute; reflexivity..|vm_compute; discriminate].
  apply (orderly_alloc _ _ _ 1);
    [|vm_compute; split; [discriminate | reflexivity]|reflexivity
     |vm_compute; reflexivity..|vm_compute; discriminate].
  apply (orderly_alloc _ _ _ 0);
    [|vm_compute; split; [discriminate | reflexivity]|reflexivity
     |vm_compute; reflexivity..|vm_compute; discriminate].
  apply orderly_open. split; reflexivity.
Defined.

(** The records met after [i] lie above it and are in use. *)
Lemma walk_above lo hi h fuel i :
  heap_inv None lo hi h -> used (rd h i) = true ->
  Forall (fun j => base_of h i < base_of h j /\ used (rd h j) = true)
    (walk h fuel (next (rd h i))).
Proof.
  intros H. revert i. induction fuel as [|fuel IH]; intros i Hu; [constructor|].
  destruct (next (rd h i)) as [x|] eqn:Ex; [|constructor].
  cbn [walk].
  pose proof (heap_inv_ascending _ _ _ _ _ _ H Hu Ex) as Hasc.
  pose proof H as (_ & Hn & _).
  destruct (Hn i x Hu Ex) as (Hux & _).
  constructor; [split; assumption|].
  eapply Forall_impl; [apply IH, Hux|].
  intros j [Hj Huj]. split; [lia | exact Huj].
Qed.

Lemma walk_NoDup lo hi h fuel i :
  heap_inv None lo hi h -> used (rd h i) = true ->
  NoDup (walk h fuel (Some i)) /\ Forall (fun j => (j < length h)%nat) (walk h fuel (Some i)).
Proof.
  intros H. revert i. induction fuel as [|fuel IH]; intros i Hu.
  - split; constructor.
  - cbn [walk].
    pose proof (walk_above lo hi h fuel i H Hu) as Hab.
    assert (Hin : i ∉ walk h fuel (next (rd h i))).
    { intros Hi. rewrite Forall_forall in Hab. destruct (Hab i Hi). lia. }
    destruct (next (rd h i)) as [x|] eqn:Ex.
    + pose proof H as (_ & Hn & _). destruct (Hn i x Hu Ex) as (Hux & _).
      destruct (IH x Hux) as [Hnd Hlt].
      split; [constructor; assumption|].
      constructor; [apply used_in_arena, Hu | exact Hlt].
    + assert (Hw : walk h fuel None = []) by (destruct fuel; reflexivity).
      rewrite Hw. split; [constructor; [apply not_elem_of_nil | constructor]|].
      constructor; [apply used_in_arena, Hu | constructor].
Qed.

Lemma walk_short lo hi h fuel i :
  heap_inv None lo hi h -> used (rd h i) = true ->
  (length (walk h fuel (Some i)) <= length h)%nat.
Proof.
  intros H Hu. destruct (walk_NoDup lo hi h fuel i H Hu) as [Hnd Hlt].
  assert (Hsub : walk h fuel (Some i) ⊆+ seq 0 (length h)).
  { apply NoDup_submseteq; [exact Hnd|].
    intros j Hj. rewrite Forall_forall in Hlt. apply elem_of_seq. specialize (Hlt j Hj). lia. }
  apply submseteq_length in Hsub. rewrite length_seq in Hsub. exact Hsub.
Qed.

(** A walk that stops before its fuel ends has met the last record. *)
Lemma walk_tiles lo hi h fuel i :
  heap_inv None lo hi h -> used (rd h i) = true ->
  (length (walk h fuel (Some i)) < fuel)%nat ->
  tiles h (base_of h i) hi (walk h fuel (Some i)) = true.
Proof.
  intros H. revert i. induction fuel as [|fuel IH]; intros i Hu Hlen; [lia|].
  cbn [walk] in Hlen |- *. cbn [tiles length] in Hlen |- *.
  pose proof H as (_ & Hn & He & _ & Hs & _).
  destruct (Hs i Hu) as (Hsi & _).
  fold (base_of h i) (size_of h i).
  rewrite Z.eqb_refl. rewrite (proj2 (Z.ltb_lt _ _) Hsi). cbn [andb].
  destruct (next (rd h i)) as [x|] eqn:Ex.
  - destruct (Hn i x Hu Ex) as (Hux & _ & Hbx). rewrite <- Hbx.
    apply IH; [exact Hux | lia].
  - assert (Hw : walk h fuel None = []) by (destruct fuel; reflexivity).
    rewrite Hw. cbn [tiles]. apply Z.eqb_eq. apply He; assumption.
Qed.

Lemma walk_more h fuel p :
  (length (walk h (S fuel) p) <= fuel)%nat -> walk h (S fuel) p = walk h fuel p.
Proof.
  revert p. induction fuel as [|fuel IH]; intros p Hlen.
  - destruct p; [cbn [walk length] in Hlen; lia | reflexivity].
  - destruct p as [i|]; [|reflexivity].
    change (walk h (S (S fuel)) (Some i)) with (i :: walk h (S fuel) (next (rd h i))) in *.
    change (walk h (S fuel) (Some i)) with (i :: walk h fuel (next (rd h i))).
    cbn [length] in Hlen. f_equal. apply IH. lia.
Qed.

(** The segments of a pool whose records form the segment list tile its
    region. *)
Lemma list_inv_tiles pm :
  list_inv pm ->
  tiles (node_heap pm) (pool_mem (pool pm)) (pool_mem (pool pm) + total_size (pool pm))
    (segment_ids pm) = true.
Proof.
  intros (Hinv & _ & _).
  pose proof Hinv as ((H0 & _ & Hb0) & _).
  unfold segment_ids.
  pose proof (walk_short _ _ _ (S (length (node_heap pm))) 0 Hinv H0) as Hshort.
  rewrite <- (walk_more _ _ _ Hshort).
  rewrite <- Hb0 at 1. eapply walk_tiles; [exact Hinv | exact H0 | lia].
Qed.

Lemma walk_enough lo hi h fuel i :
  heap_inv None lo hi h -> used (rd h i) = true -> (length h <= fuel)%nat ->
  walk h fuel (Some i) = walk h (length h) (Some i).
Proof.
  intros H Hu Hle.
  replace fuel with ((fuel - length h) + length h)%nat by lia.
  induction (fuel - length h)%nat as [|k IH]; [reflexivity|].
  rewrite <- IH. cbn [Nat.add]. apply walk_more.
  etransitivity; [apply (walk_short lo hi); assumption | lia].
Qed.

Lemma tiles_sum h from to l :
  tiles h from to l = true -> from + sum_sizes h l = to.
Proof.
  revert from. induction l as [|i l IH]; intros from; cbn [tiles sum_sizes foldr].
  - intros H. apply Z.eqb_eq in H. lia.
  - intros H. apply andb_prop in H as [H Ht]. apply andb_prop in H as [_ _].
    apply IH in Ht. unfold sum_sizes in Ht. lia.
Qed.

(** X19: in a pool manager reached by an orderly run the loop of
    [mem_inspect_pool] ends by itself after at most as many records as the
    arena has: with that much fuel or more it reports the size and the flag
    of each segment of the list, by ascending address, and the sizes
    reported add up to the size of the region. *)
Theorem X19_inspect_reports_the_region (pm : pool_mgr_t) (fuel : nat) :
  orderly pm -> (length (node_heap pm) <= fuel)%nat ->
  fst (mem_inspect_pool fuel pm) = map (fun s => (snd (fst s), snd s)) (segments pm)
  /\ (length (fst (mem_inspect_pool fuel pm)) <= length (node_heap pm))%nat
  /\ foldr (fun s acc => fst s + acc) 0 (fst (mem_inspect_pool fuel pm)) = total_size (pool pm)
  /\ tiles (node_heap pm) (pool_mem (pool pm)) (pool_mem (pool pm) + total_size (pool pm))
       (segment_ids pm) = true.
Proof.
  intros H Hfuel. pose proof (orderly_list_inv pm H) as Hl.
  pose proof (list_inv_tiles pm Hl) as Ht.
  destruct Hl as (Hinv & _ & _).
  pose proof Hinv as ((H0 & _) & _).
  assert (Hrep : fst (mem_inspect_pool fuel pm)
                 = map (fun s => (snd (fst s), snd s)) (segments pm)).
  { unfold mem_inspect_pool, segments, segment_ids. cbn [fst].
    rewrite (walk_enough _ _ _ _ _ Hinv H0 Hfuel).
    rewrite map_map. reflexivity. }
  split; [exact Hrep|].
  split.
  { rewrite Hrep. unfold segments, segment_ids. rewrite !length_map.
    apply (walk_short _ _ _ _ _ Hinv H0). }
  split; [|exact Ht].
  rewrite Hrep. apply tiles_sum in Ht.
  unfold segments. rewrite map_map.
  assert (Hs : forall l, foldr (fun s acc => fst s + acc) 0
                 (map (fun i => (snd (fst (segment_of (node_heap pm) i)),
                                 snd (segment_of (node_heap pm) i))) l)
               = sum_sizes (node_heap pm) l).
  { induction l as [|i l IHl]; [reflexivity|].
    cbn [map foldr sum_sizes]. unfold sum_sizes in IHl. rewrite IHl. reflexivity. }
  rewrite Hs. lia.
Qed.

(** X19, witness: the pool with two gaps. *)
Lemma X19_witness :
  fst (mem_inspect_pool 40 pool_two_gaps)
  = map (fun s => (snd (fst s), snd s)) (segments pool_two_gaps)
  /\ (length (fst (mem_inspect_pool 40 pool_two_gaps)) <= length (node_heap pool_two_gaps))%nat
  /\ foldr (fun s acc => fst s + acc) 0 (fst (mem_inspect_pool 40 pool_two_gaps))
     = total_size (pool pool_two_gaps)
  /\ tiles (node_heap pool_two_gaps) (pool_mem (pool pool_two_gaps))
       (pool_mem (pool pool_two_gaps) + total_size (pool pool_two_gaps))
       (segment_ids pool_two_gaps) = true.
Proof.
  apply (X19_inspect_reports_the_region pool_two_gaps 40).
  - unfold pool_two_gaps. cbn [run fold_left step].
    apply orderly_del; [|vm_compute; reflexivity..].
    apply orderly_del; [|vm_compute; reflexivity..].
    apply (orderly_alloc _ _ _ 2);
      [|vm_compute; split; [discriminate | reflexivity]|reflexivity
       |vm_compute; reflexivity..|vm_compute; discriminate].
    apply (orderly_alloc _ _ _ 1);
      [|vm_compute; split; [discriminate | reflexivity]|reflexivity
       |vm_compute; reflexivity..|vm_compute; discriminate].
    apply (orderly_alloc _ _ _ 0);
      [|vm_compute; split; [discriminate | reflexivity]|reflexivity
       |vm_compute; reflexivity..|vm_compute; discriminate].
    apply orderly_open. split; reflexivity.
  - vm_compute. lia.
Defined.

(** X20: under FIRST_FIT, in a pool whose records form the segment list of
    its region, with a non-empty gap index and an arena that has a record
    left and a record not in use, a request of a positive size that some gap
    in use can hold is served from the first such record of the arena: its
    handle is returned, it holds the requested size at the base the gap had,
    and the records form the segment list of the region again. *)
Theorem X20_first_fit_serves_first_fitting
    (e : env) (pm : pool_mgr_t) (sz : Z) (k u : nat) :
  list_inv pm ->
  policy (pool pm) = FIRST_FIT ->
  num_gaps (pool pm) <> 0 ->
  0 <= used_nodes pm < total_nodes pm ->
  0 < sz ->
  (k < Z.to_nat (total_nodes pm))%nat ->
  fits sz (rd (node_heap pm) k) = true ->
  (forall j, (j < k)%nat -> fits sz (rd (node_heap pm) j) = false) ->
  (u < Z.to_nat (total_nodes pm))%nat ->
  used (rd (node_heap pm) u) = false ->
  fst (mem_new_alloc e pm sz) = Some k
  /\ alloc_record (rd (node_heap (snd (mem_new_alloc e pm sz))) k)
     = mk_alloc sz (mem (alloc_record (rd (node_heap pm) k)))
  /\ allocated (rd (node_heap (snd (mem_new_alloc e pm sz))) k) = true
  /\ list_inv (snd (mem_new_alloc e pm sz))
  /\ adjacent_gaps (segments (snd (mem_new_alloc e pm sz))) = false.
Proof.
  intros Hl Hpol Hgaps Hroom Hsz Hk Hfit Hbefore Hu Hun.
  assert (Hsel : select_node e pm sz = Some k).
  { unfold select_node. rewrite Hpol.
    rewrite (first_fit_scan_first _ _ _ _ _ k);
      [|lia|exact Hfit|intros j Hj; apply Hbefore; lia].
    simpl. unfold fits in Hfit.
    apply andb_prop in Hfit as [_ Hle]. apply Z.leb_le in Hle.
    destruct (_ <? sz) eqn:E; [apply Z.ltb_lt in E; lia | reflexivity]. }
  assert (Hret : fst (mem_new_alloc e pm sz) <> None).
  { pose proof (mem_new_alloc_on_candidate e pm sz k Hgaps) as H.
    rewrite (resize_node_heap_below_capacity e pm Hroom) in H.
    destruct (H Hsel) as (_ & _ & [Hres|(_ & _ & Hall)] & _); [congruence|].
    rewrite (Hall u Hu) in Hun. discriminate. }
  destruct (alloc_keeps_list e pm sz k Hl Hroom Hsz Hsel Hfit Hret)
    as (Hl' & Hadj & Hres & Halloc & Hrec).
  split; [exact Hres|]. split; [exact Hrec|]. split; [exact Halloc|].
  split; [exact Hl' | exact Hadj].
Qed.

(** The run behind [pool_arena_order] is orderly. *)
Lemma pool_arena_order_orderly : orderly pool_arena_order.
Proof.
  unfold pool_arena_order, ops_arena_order. cbn [run fold_left step].
  apply orderly_del; [|vm_compute; reflexivity..].
  apply (orderly_alloc _ _ _ 0);
    [|vm_compute; split; [discriminate | reflexivity]|reflexivity
     |vm_compute; reflexivity..|vm_compute; discriminate].
  apply (orderly_alloc _ _ _ 4);
    [|vm_compute; split; [discriminate | reflexivity]|reflexivity
     |vm_compute; reflexivity..|vm_compute; discriminate].
  apply orderly_del; [|vm_compute; reflexivity..].
  apply orderly_del; [|vm_compute; reflexivity..].
  apply (orderly_alloc _ _ _ 3);
    [|vm_compute; split; [discriminate | reflexivity]|reflexivity
     |vm_compute; reflexivity..|vm_compute; discriminate].
  apply (orderly_alloc _ _ _ 2);
    [|vm_compute; split; [discriminate | reflexivity]|reflexivity
     |vm_compute; reflexivity..|vm_compute; discriminate].
  apply (orderly_alloc _ _ _ 1);
    [|vm_compute; split; [discriminate | reflexivity]|reflexivity
     |vm_compute; reflexivity..|vm_compute; discriminate].
  apply (orderly_alloc _ _ _ 0);
    [|vm_compute; split; [discriminate | reflexivity]|reflexivity
     |vm_compute; reflexivity..|vm_compute; discriminate].
  apply orderly_open. split; reflexivity.
Qed.

(** X20, witness: the pool where the arena order and the address order
    differ; the request of 100 bytes goes to [node_heap[1]]. *)
Lemma X20_witness :
  fst (mem_new_alloc env_zero pool_arena_order 100) = Some 1%nat
  /\ alloc_record (rd (node_heap (snd (mem_new_alloc env_zero pool_arena_order 100))) 1)
     = mk_alloc 100 (mem (alloc_record (rd (node_heap pool_arena_order) 1)))
  /\ allocated (rd (node_heap (snd (mem_new_alloc env_zero pool_arena_order 100))) 1) = true
  /\ list_inv (snd (mem_new_alloc env_zero pool_arena_order 100))
  /\ adjacent_gaps (segments (snd (mem_new_alloc env_zero pool_arena_order 100))) = false.
Proof.
  apply (X20_first_fit_serves_first_fitting env_zero pool_arena_order 100 1 5).
  - apply orderly_list_inv, pool_arena_order_orderly.
  - reflexivity.
  - vm_compute. discriminate.
  - vm_compute. split; [discriminate | reflexivity].
  - reflexivity.
  - vm_compute. lia.
  - vm_compute. reflexivity.
  - intros j Hj. assert (j = 0%nat) as -> by lia. vm_compute. reflexivity.
  - vm_compute. lia.
  - vm_compute. reflexivity.
Defined.
